(** * x509search: a shallow embedding of the search engine and of the
    Static CT API (tiled log) client, with the properties of its
    specification.

    Layout:
    - [GoBase]      Go values shared by all packages: errors, int64, strings;
    - [strconv], [fmt], [strings], [base64]
                    the parts of Go's standard library the code calls;
    - [staticctapi] retry.go and log.go: retry policy, tile paths,
                    checkpoints, tile fetching, the binary search from a
                    time to a tile, the data source of a tiled log;
    - [x509search]  the cachers and search.go: the consumer loop, and the
                    goroutines of Execute as a step relation;
    - [boulder]     the data source of the package boulder;
    - [Spec], [SearchSpec]
                    the vocabulary of the specification, and [Demo], a log
                    with its network on which the client runs;
    - [Notions], [SearchNotions]
                    the notions in which the further properties are stated;
    - the properties, package by package, and the further properties.

    Go functions returning [(v, err)] are embedded as functions returning a
    pair whose second component is an [option error] ([None] is Go's [nil]).
    Code that talks to the network threads an explicit world state; what it
    calls outside the repository (net/http, gzip, sunlight, backoff,
    crypto/x509, crypto/sha256, bloom) is a field of the classes [Net] and
    [Libs]. Loops that structural recursion cannot follow take fuel, and the
    properties show how much is enough. *)

From Stdlib Require Import ZArith Lia Ascii.
From stdpp Require Import base gmap strings list.

Local Open Scope Z_scope.

(* ================================================================== *)
(** * Go base values *)
(* ================================================================== *)

Module GoBase.

(** Go's [error] values as the code builds them: [errors.New], and
    [fmt.Errorf] with a [%w] verb, which wraps its cause. *)
Inductive error : Type :=
| errors_New (msg : string)
| Errorf_w (prefix : string) (cause : error).

(** [err.Error()]. *)
Fixpoint Error (e : error) : string :=
  match e with
  | errors_New msg => msg
  | Errorf_w prefix cause => prefix +:+ Error cause
  end.

#[global] Instance error_eq_dec : EqDecision error.
Proof. solve_decision. Defined.

(** [err != nil] *)
Definition is_err (e : option error) : bool :=
  match e with Some _ => true | None => false end.

(** Bounds of Go's [int64] and [uint64]; on the 64-bit targets of the module
    [int] is 64 bits wide as well. *)
Definition minInt64 : Z := - 2 ^ 63.
Definition maxInt64 : Z := 2 ^ 63 - 1.
Definition maxUint64 : Z := 2 ^ 64 - 1.

(** Two's-complement wrap-around of a 64-bit signed result. *)
Definition wrap64 (z : Z) : Z := (z + 2 ^ 63) mod 2 ^ 64 - 2 ^ 63.

(** Conversion [uint64(x)] and unsigned 64-bit wrap-around. *)
Definition uint64 (z : Z) : Z := z mod 2 ^ 64.

(** [len(s)] of a Go string: its number of bytes. *)
Fixpoint len (s : string) : Z :=
  match s with
  | EmptyString => 0
  | String _ s' => 1 + len s'
  end.

(** A Go [[]byte]. *)
Definition bytes : Type := list Byte.byte.

End GoBase.
Export GoBase.

(* ================================================================== *)
(** * strconv: decimal parsing and printing *)
(* ================================================================== *)

Module strconv.

Inductive NumError : Type := ErrSyntax | ErrRange.

(** The value of a decimal digit byte: ['0' <= c && c <= '9'] gives
    [c - '0']. *)
Definition digit_val (c : ascii) : option Z :=
  let n := Z.of_nat (nat_of_ascii c) in
  if (48 <=? n) && (n <=? 57) then Some (n - 48) else None.

(** The digit loop of [strconv.ParseUint(s, 10, 64)]: bytes are consumed left
    to right; a byte that is no decimal digit is a syntax error, and the first
    prefix whose value leaves [uint64] is a range error (reported with the
    maximal value). *)
Fixpoint ParseUint_loop (n : Z) (s : string) : Z * option NumError :=
  match s with
  | EmptyString => (n, None)
  | String c s' =>
      match digit_val c with
      | None => (0, Some ErrSyntax)
      | Some d =>
          if maxUint64 <? n * 10 + d then (maxUint64, Some ErrRange)
          else ParseUint_loop (n * 10 + d) s'
      end
  end.

Definition ParseUint (s : string) : Z * option NumError :=
  match s with
  | EmptyString => (0, Some ErrSyntax)
  | _ => ParseUint_loop 0 s
  end.

(** [strconv.ParseInt(s, 10, 64)]: an optional sign, then [ParseUint], then
    the range check against [1 << 63]. *)
Definition ParseInt (s : string) : Z * option NumError :=
  match s with
  | EmptyString => (0, Some ErrSyntax)
  | String c s' =>
      let '(neg, digits) :=
        if Stdlib.Strings.Ascii.eqb c "+" then (false, s')
        else if Stdlib.Strings.Ascii.eqb c "-" then (true, s')
        else (false, s) in
      let '(un, err) := ParseUint digits in
      match err with
      | Some ErrSyntax => (0, Some ErrSyntax)
      | _ =>
          let cutoff := 2 ^ 63 in
          if negb neg && (cutoff <=? un) then (cutoff - 1, Some ErrRange)
          else if neg && (cutoff <? un) then (- cutoff, Some ErrRange)
          else (if neg then - un else un, None)
      end
  end.

(** The ASCII digit of a value below ten. *)
Definition digit_char (d : Z) : ascii :=
  ascii_of_nat (48 + Z.to_nat d).

(** The digit loop of [strconv.FormatUint] in base 10: the digits of a
    non-negative number, most significant first, put in front of [acc]. The
    loop runs once per digit; [fuel] bounds its iterations. *)
Fixpoint FormatUint_go (fuel : nat) (n : Z) (acc : string) : string :=
  match fuel with
  | O => acc
  | S fuel' =>
      if n <? 10 then String (digit_char n) acc
      else FormatUint_go fuel' (n / 10) (String (digit_char (n mod 10)) acc)
  end.

(** A number has no more decimal digits than binary ones. *)
Definition bits (n : Z) : nat := S (Z.to_nat (Z.log2 (Z.abs n))).

Definition FormatUint (n : Z) : string := FormatUint_go (bits n) n "".

(** [strconv.FormatInt(i, 10)]. *)
Definition FormatInt (i : Z) : string :=
  if i <? 0 then String "-" (FormatUint (- i)) else FormatUint i.

End strconv.

(* ================================================================== *)
(** * fmt: the two verbs the code uses *)
(* ================================================================== *)

Module fmt.

(** Left padding of a digit string with zeros up to [width] bytes. *)
Fixpoint zero_pad (k : nat) (s : string) : string :=
  match k with
  | O => s
  | S k' => String "0" (zero_pad k' s)
  end.

(** [fmt.Sprintf("%03d", v)]: the digits are padded with zeros to the width,
    which a minus sign shares. *)
Definition Sprintf_03d (v : Z) : string :=
  let digits := strconv.FormatUint (Z.abs v) in
  let width := if v <? 0 then 2%nat else 3%nat in
  let padded := zero_pad (width - String.length digits) digits in
  if v <? 0 then String "-" padded else padded.

End fmt.


(* ================================================================== *)
(** * strings: counting and splitting on a one-byte separator *)
(* ================================================================== *)

Module strings.

(** [strings.Count(s, sep)] for a separator of one byte. *)
Fixpoint Count (s : string) (sep : ascii) : Z :=
  match s with
  | EmptyString => 0
  | String c s' => (if decide (c = sep) then 1 else 0) + Count s' sep
  end.

(** [strings.Index] and the two slices [s[:m]], [s[m+1:]] around the first
    separator, [None] when there is none. *)
Fixpoint cut (s : string) (sep : ascii) : option (string * string) :=
  match s with
  | EmptyString => None
  | String c s' =>
      if decide (c = sep) then Some (EmptyString, s')
      else match cut s' sep with
           | Some (before, after) => Some (String c before, after)
           | None => None
           end
  end.

(** [strings.SplitN(s, sep, n)] for [n >= 0] and a separator of one byte: at
    most [n] pieces, the last one being the unsplit remainder. *)
Fixpoint SplitN (s : string) (sep : ascii) (n : nat) : list string :=
  match n with
  | O => []
  | S O => [s]
  | S n' =>
      match cut s sep with
      | None => [s]
      | Some (before, after) => before :: SplitN after sep n'
      end
  end.

(** [strings.HasPrefix(s, prefix)]. *)
Fixpoint HasPrefix (s prefix : string) : bool :=
  match prefix, s with
  | EmptyString, _ => true
  | String p prefix', String c s' =>
      if decide (c = p) then HasPrefix s' prefix' else false
  | String _ _, EmptyString => false
  end.

End strings.

(* ================================================================== *)
(** * encoding/base64: [StdEncoding.DecodeString] *)
(* ================================================================== *)

Module base64.

(** The decode map of the standard alphabet. *)
Definition decodeMap (c : ascii) : option Z :=
  let n := Z.of_nat (nat_of_ascii c) in
  if (65 <=? n) && (n <=? 90) then Some (n - 65)
  else if (97 <=? n) && (n <=? 122) then Some (n - 71)
  else if (48 <=? n) && (n <=? 57) then Some (n + 4)
  else if n =? 43 then Some 62
  else if n =? 47 then Some 63
  else None.

Definition is_newline (c : ascii) : bool :=
  bool_decide (c = "010"%char) || bool_decide (c = "013"%char).

(** The decoder skips carriage returns and line feeds wherever they stand. *)
Fixpoint skip_newlines (s : string) : string :=
  match s with
  | String c s' => if is_newline c then skip_newlines s' else s
  | EmptyString => EmptyString
  end.

Definition byte_of_Z (z : Z) : Byte.byte :=
  byte_of_ascii (ascii_of_N (Z.to_N (z mod 256))).

(** The bytes of one quantum: four sextets give three bytes, three give two,
    two give one (the standard encoding is not strict about the unused
    bits). *)
Definition quantum_bytes (q : list Z) : bytes :=
  let val := fold_left (fun acc v => Z.lor (Z.shiftl acc 6) v)
               (q ++ replicate (4 - length q)%nat 0) 0 in
  take (length q - 1)%nat
    [byte_of_Z (Z.shiftr val 16); byte_of_Z (Z.shiftr val 8); byte_of_Z val].

(** [DecodeString]: [q] holds the sextets of the quantum being read. Padding
    is mandatory and may only end the input; [None] is a
    [CorruptInputError]. *)
Fixpoint decode (q : list Z) (s : string) : option bytes :=
  match s with
  | EmptyString =>
      match q with
      | [] => Some []
      | _ => None
      end
  | String c s' =>
      match decodeMap c with
      | Some v =>
          let q' := q ++ [v] in
          if decide (length q' = 4%nat)
          then match decode [] s' with
               | Some out => Some (quantum_bytes q' ++ out)
               | None => None
               end
          else decode q' s'
      | None =>
          if is_newline c then decode q s'
          else if decide (c = "="%char) then
            match q with
            | [_; _] =>
                match skip_newlines s' with
                | String c2 s2 =>
                    if decide (c2 = "="%char) then
                      match skip_newlines s2 with
                      | EmptyString => Some (quantum_bytes q)
                      | _ => None
                      end
                    else None
                | EmptyString => None
                end
            | [_; _; _] =>
                match skip_newlines s' with
                | EmptyString => Some (quantum_bytes q)
                | _ => None
                end
            | _ => None
            end
          else None
      end
  end.

Definition DecodeString (s : string) : option bytes := decode [] s.

End base64.


(* ================================================================== *)
(** * Package staticctapi *)
(* ================================================================== *)

Module staticctapi.

(** ** retry.go *)

(** [time.Duration] counts nanoseconds in an [int64]. *)
Definition Second : Z := 1000000000.

Record Retry : Type := mkRetry {
  MaxAttempts : Z;   (* int *)
  MaxInterval : Z;   (* time.Duration *)
  Timeout : Z        (* time.Duration *)
}.

Definition DefaultTileRetry : Retry :=
  {| MaxAttempts := 5; MaxInterval := 1 * Second; Timeout := 5 * Second |}.

(** The zero value of [Retry], which an unset [Log.TileRetry] holds. *)
Definition zeroRetry : Retry :=
  {| MaxAttempts := 0; MaxInterval := 0; Timeout := 0 |}.

Definition Validate (r : Retry) : option error :=
  if MaxAttempts r <? 1 then
    Some (errors_New "max attempts less than one")
  else if MaxInterval r <=? 0 then
    Some (errors_New "max interval less than or equal to zero")
  else if Timeout r <=? 0 then
    Some (errors_New "timeout less than or equal to zero")
  else if Timeout r <=? MaxInterval r then
    Some (errors_New "timeout less than or equal to max interval")
  else None.

(** What [createBackoff] configures: an exponential back-off with the two
    options set (the other settings keep the library's defaults), under a
    cap on the number of retries. *)
Record BackOff : Type := mkBackOff {
  WithMaxElapsedTime : Z;
  WithMaxInterval : Z;
  WithMaxRetries : Z   (* uint64 *)
}.

Definition createBackoff (r : Retry) : BackOff :=
  {| WithMaxElapsedTime := Timeout r;
     WithMaxInterval := MaxInterval r;
     WithMaxRetries := uint64 (uint64 (MaxAttempts r) - 1) |}.

(** ** log.go: tile paths *)

(** The loop [for remainder != 0] of [TilePathFromIndex]; Go's [/] and [%]
    on [int64] truncate towards zero. The loop runs once per group of three
    digits of the remainder; [fuel] bounds its iterations. *)
Fixpoint TilePathFromIndex_loop (fuel : nat) (path : string) (remainder : Z)
  : string :=
  match fuel with
  | O => path
  | S fuel' =>
      if bool_decide (remainder <> 0) then
        TilePathFromIndex_loop fuel'
          ("x" +:+ fmt.Sprintf_03d (Z.rem remainder 1000) +:+ "/" +:+ path)
          (remainder ÷ 1000)
      else path
  end.

Definition TilePathFromIndex (tileIndex : Z) : string :=
  let path := fmt.Sprintf_03d (Z.rem tileIndex 1000) in
  let remainder := tileIndex ÷ 1000 in
  TilePathFromIndex_loop (strconv.bits remainder) path remainder.

(** ** log.go: checkpoints *)

Definition newline : ascii := "010"%char.

Definition TreeSizeFromCheckpoint (text : string) : Z * option error :=
  if (strings.Count text newline <? 3) || (1000000 <? len text) then
    (-1, Some (errors_New "malformed checkpoint: incorrect size"))
  else
    let lines := strings.SplitN text newline 4 in
    let '(treeSize, err) := strconv.ParseInt (lines !!! 1%nat) in
    if bool_decide (err <> None) || (treeSize <? 0)
       || bool_decide (lines !!! 1%nat <> strconv.FormatInt treeSize) then
      (-1, Some (errors_New "malformed checkpoint: invalid tree size"))
    else
      match base64.DecodeString (lines !!! 2%nat) with
      | Some hash =>
          if bool_decide (length hash <> 32%nat) then
            (-1, Some (errors_New "malformed checkpoint: invalid root hash"))
          else (treeSize, None)
      | None =>
          (-1, Some (errors_New "malformed checkpoint: invalid root hash"))
      end.

(** ** log.go: the log client *)

(** The fields of [sunlight.LogEntry] that the code reads. *)
Record LogEntry : Type := mkLogEntry {
  Timestamp : Z;            (* int64, milliseconds since the epoch *)
  IsPrecert : bool;
  Certificate : bytes;
  PreCertificate : bytes
}.

(** An [io.Reader] as [io.ReadAll] sees it: the bytes it yields and the
    error, if any, that ends them. *)
Record Stream : Type := mkStream {
  stream_data : bytes;
  stream_err : option error
}.

Definition ReadAll (r : Stream) : bytes * option error :=
  (stream_data r, stream_err r).

Record Response : Type := mkResponse {
  StatusCode : Z;
  Status : string;
  ContentEncoding : string;   (* Header.Get("Content-Encoding") *)
  Body : Stream
}.

Record Request (Ctx : Type) : Type := mkRequest {
  req_ctx : Ctx;
  req_method : string;
  req_url : string;
  req_AcceptEncoding : list string   (* Header["Accept-Encoding"] *)
}.
Arguments mkRequest {Ctx}.
Arguments req_ctx {Ctx}.
Arguments req_method {Ctx}.
Arguments req_url {Ctx}.
Arguments req_AcceptEncoding {Ctx}.

Definition Header_Add_AcceptEncoding {Ctx} (r : Request Ctx) (v : string)
  : Request Ctx :=
  mkRequest (req_ctx r) (req_method r) (req_url r) (req_AcceptEncoding r ++ [v]).

Record Log : Type := mkLog {
  MetricsEndpoint : string;
  TileRetry : Retry
}.

(** How a run of a function with a loop or an indexing ends: it returns, it
    panics (index out of range, nil dereference), or the embedding's fuel
    is used up before the loop ends. *)
Inductive run (A : Type) : Type :=
| Done (a : A)
| Panic
| OutOfFuel.
Arguments Done {A}.
Arguments Panic {A}.
Arguments OutOfFuel {A}.

(** [time.Time] instants as nanoseconds since the Unix epoch. *)
Definition Time : Type := Z.
Definition UnixMilli (msec : Z) : Time := msec * 1000000.
Definition Before (t u : Time) : bool := t <? u.
Definition After (t u : Time) : bool := u <? t.

(** A [[]*LogEntry]: a slot holds [None] while its pointer is nil. *)
Abbreviation Entries := (list (option LogEntry)).

(** What the client calls outside this repository: the context type, the
    state of everything outside the process (the network, the log's server,
    the clock), and the library functions that act on them. *)
Class Net : Type := mkNet {
  Ctx : Type;
  World : Type;
  (** [url.URL.JoinPath(path).String()] on the endpoint *)
  url_JoinPath : string -> string -> string;
  (** [http.NewRequestWithContext(ctx, method, url, nil)] *)
  NewRequestWithContext :
    Ctx -> string -> string -> Request Ctx * option error;
  (** [l.httpClient.Do(request)] *)
  http_Do : Request Ctx -> World -> (Response * option error) * World;
  (** [gzip.NewReader] *)
  gzip_NewReader : Stream -> Stream * option error;
  (** [sunlight.ReadTileLeaf(tile)]: the entry and the rest of the tile, or
      the error *)
  ReadTileLeaf : bytes -> (LogEntry * bytes) + error;
  (** [backoff.RetryWithData(operation, backoff.WithContext(bo, ctx))] *)
  RetryWithData :
    BackOff -> Ctx ->
    (World -> (Entries * option error) * World) ->
    World -> (Entries * option error) * World
}.

Section Client.

Context {net : Net}.

(** The loop [for entryIndex := 0; entryIndex < 256; entryIndex++] of
    [GetTileEntries], with [n] iterations left. *)
Fixpoint readLeaves (n : nat) (entryIndex : nat) (tileData : bytes)
    (entries : Entries) : Entries * option error :=
  match n with
  | O => (entries, None)
  | S n' =>
      match ReadTileLeaf tileData with
      | inr err => ([], Some (Errorf_w "reading entry from tile: " err))
      | inl (entry, rest) =>
          readLeaves n' (S entryIndex) rest
            (<[entryIndex := Some entry]> entries)
      end
  end.

(** The tile data of a response: its body, decompressed when the response
    announces gzip. *)
Definition tileBody (response : Response) : bytes * option error :=
  if strings.HasPrefix (ContentEncoding response) "gzip" then
    let '(reader, err) := gzip_NewReader (Body response) in
    match err with
    | Some e => ([], Some (Errorf_w "creating gzip reader: " e))
    | None =>
        let '(tileData, err) := ReadAll reader in
        match err with
        | Some e =>
            ([], Some (Errorf_w
               "reading data from gzipped response body: " e))
        | None => (tileData, None)
        end
    end
  else
    let '(tileData, err) := ReadAll (Body response) in
    match err with
    | Some e => ([], Some (Errorf_w "reading response body: " e))
    | None => (tileData, None)
    end.

Definition GetTileEntries (l : Log) (ctx : Ctx) (tileIndex : Z) (w : World)
  : (Entries * option error) * World :=
  let tilePath := "/tile/data/" +:+ TilePathFromIndex tileIndex in
  let tileUrl := url_JoinPath (MetricsEndpoint l) tilePath in
  let '(request, err) := NewRequestWithContext ctx "GET" tileUrl in
  match err with
  | Some e => (([], Some (Errorf_w "building http request: " e)), w)
  | None =>
  let request := Header_Add_AcceptEncoding request "gzip, identity" in
  let '((response, err), w) := http_Do request w in
  match err with
  | Some e => (([], Some (Errorf_w "requesting tile: " e)), w)
  | None =>
  if bool_decide (StatusCode response <> 200) then
    (([], Some (errors_New
                  ("unexpected response status: " +:+ Status response))), w)
  else
    match tileBody response with
    | (_, Some e) => (([], Some e), w)
    | (tileData, None) =>
        let entries := replicate 256 None in
        (readLeaves 256 0 tileData entries, w)
    end
  end end.

Definition GetTileEntriesWithBackoff (l : Log) (ctx : Ctx) (tileIndex : Z)
    (w : World) : (Entries * option error) * World :=
  let bo := createBackoff DefaultTileRetry in
  let bo :=
    if bool_decide (Validate (TileRetry l) = None)
    then createBackoff (TileRetry l) else bo in
  let operation := GetTileEntries l ctx tileIndex in
  RetryWithData bo ctx operation w.

Definition GetLastFullTileIndex (l : Log) (ctx : Ctx) (w : World)
  : (Z * option error) * World :=
  let checkpointUrl := url_JoinPath (MetricsEndpoint l) "/checkpoint" in
  let '(request, err) := NewRequestWithContext ctx "GET" checkpointUrl in
  match err with
  | Some e => ((-1, Some (Errorf_w "building http request: " e)), w)
  | None =>
  let '((response, err), w) := http_Do request w in
  match err with
  | Some e => ((-1, Some (Errorf_w "requesting checkpoint: " e)), w)
  | None =>
  if bool_decide (StatusCode response <> 200) then
    ((-1, Some (errors_New
                  ("unexpected response status: " +:+ Status response))), w)
  else
    let '(checkpointData, err) := ReadAll (Body response) in
    match err with
    | Some e => ((-1, Some (Errorf_w "reading response body: " e)), w)
    | None =>
        let '(treeSize, err) :=
          TreeSizeFromCheckpoint
            (String.string_of_list_byte checkpointData) in
        match err with
        | Some e =>
            ((-1, Some (Errorf_w "parsing tree size from checkpoint: " e)), w)
        | None => ((treeSize ÷ 256, None), w)
        end
    end
  end end.

(** The loop [for startIndex <= endIndex] of [GetTileIndexFromTime]; the
    sums are taken in [int64]. *)
Fixpoint GetTileIndexFromTime_loop (fuel : nat) (l : Log) (ctx : Ctx)
    (t : Time) (startIndex endIndex : Z) (w : World)
  : run ((Z * option error) * World) :=
  if startIndex <=? endIndex then
    match fuel with
    | O => OutOfFuel
    | S fuel' =>
        let pivotIndex := wrap64 (startIndex + endIndex) ÷ 2 in
        let '((tileEntries, err), w) := GetTileEntries l ctx pivotIndex w in
        match err with
        | Some e =>
            Done ((-1, Some (Errorf_w "getting entries for tile: " e)), w)
        | None =>
            match tileEntries !! 0%nat with
            | Some (Some first) =>
                let firstTime := UnixMilli (Timestamp first) in
                if Before t firstTime then
                  GetTileIndexFromTime_loop fuel' l ctx t
                    startIndex (wrap64 (pivotIndex - 1)) w
                else
                  match tileEntries !! 255%nat with
                  | Some (Some last) =>
                      let lastTime := UnixMilli (Timestamp last) in
                      if After t lastTime then
                        GetTileIndexFromTime_loop fuel' l ctx t
                          (wrap64 (pivotIndex + 1)) endIndex w
                      else Done ((pivotIndex, None), w)
                  | _ => Panic
                  end
            | _ => Panic
            end
        end
    end
  else
    Done ((-1, Some (errors_New
      "timestamp doesn't fall within the time bounds of the log entries")),
      w).

Definition GetTileIndexFromTime (fuel : nat) (l : Log) (ctx : Ctx)
    (t : Time) (startTile endTile : Z) (w : World)
  : run ((Z * option error) * World) :=
  if startTile <? 0 then
    Done ((-1, Some (errors_New "negative startTile")), w)
  else
    let startIndex := startTile in
    let endIndex := endTile in
    GetTileIndexFromTime_loop fuel l ctx t startIndex endIndex w.

Definition GetBoundingTilesFromTimes (fuel : nat) (l : Log) (ctx : Ctx)
    (startTime endTime : Time) (w : World)
  : run ((Z * Z * option error) * World) :=
  if negb (Before startTime endTime) then
    Done ((-1, -1, Some (errors_New "start time is not before end time")), w)
  else
    let '((lastTile, err), w) := GetLastFullTileIndex l ctx w in
    match err with
    | Some e =>
        Done ((-1, -1,
               Some (Errorf_w "getting index of current final tile: " e)), w)
    | None =>
    match GetTileIndexFromTime fuel l ctx startTime 0 lastTile w with
    | Done ((startIndex, err), w) =>
        match err with
        | Some e =>
            Done ((-1, -1,
                   Some (Errorf_w "getting index of start tile: " e)), w)
        | None =>
        match GetTileIndexFromTime fuel l ctx endTime startIndex lastTile w
        with
        | Done ((endIndex, err), w) =>
            match err with
            | Some e =>
                Done ((-1, -1,
                       Some (Errorf_w "getting index of end tile: " e)), w)
            | None => Done ((startIndex, endIndex, None), w)
            end
        | Panic => Panic
        | OutOfFuel => OutOfFuel
        end
        end
    | Panic => Panic
    | OutOfFuel => OutOfFuel
    end
    end.

(** ** The data source of a tiled log *)

Record DataSource : Type := mkDataSource {
  ds_Log : option Log;               (* Log *Log, nil when unset *)
  IncludePrecertificates : bool;
  IncludeCertificates : bool;
  StartTimeInclusive : Time;
  EndTimeInclusive : Time;
  MaxConnections : Z
}.

Definition concurrency (b : DataSource) : Z :=
  if 1 <? MaxConnections b then MaxConnections b else 1.

(** The loop [for _, entry := range entries] of a worker: what it sends on
    [certs], after what was sent before. *)
Fixpoint emitEntries (b : DataSource) (entries : Entries)
    (certs : list bytes) : run (list bytes) :=
  match entries with
  | [] => Done certs
  | None :: _ => Panic
  | Some entry :: rest =>
      if IsPrecert entry then
        if IncludePrecertificates b
        then emitEntries b rest (certs ++ [PreCertificate entry])
        else emitEntries b rest certs
      else if IncludeCertificates b
        then emitEntries b rest (certs ++ [Certificate entry])
        else emitEntries b rest certs
  end.

(** The loop [for tileIndex := range workChan] of the workers, run on the
    indices in the order in which the enumerating goroutine sends them:
    this is the execution with one worker ([MaxConnections <= 1]), and
    with several workers the one in which each tile is finished before the
    next is taken. [stderr] collects the lines written to [os.Stderr]. *)
Fixpoint workers (b : DataSource) (l : Log) (ctx : Ctx) (work : list Z)
    (w : World) (certs : list bytes) (stderr : list string)
  : run ((list bytes * list string) * World) :=
  match work with
  | [] => Done ((certs, stderr), w)
  | tileIndex :: work' =>
      let '((entries, err), w) :=
        GetTileEntriesWithBackoff l ctx tileIndex w in
      match err with
      | Some e =>
          workers b l ctx work' w certs
            (stderr ++
               ["getting entries for tile: " +:+ Error e +:+ String newline ""])
      | None =>
          match emitEntries b entries certs with
          | Done certs => workers b l ctx work' w certs stderr
          | Panic => Panic
          | OutOfFuel => OutOfFuel
          end
      end
  end.

(** [DataSource.Source]: the byte strings sent on [certs], the lines
    written to [os.Stderr], and the returned error. *)
Definition Source (fuel : nat) (b : DataSource) (ctx : Ctx) (w : World)
  : run ((list bytes * list string * option error) * World) :=
  match ds_Log b with
  | None => Done (([], [], Some (errors_New "nil log")), w)
  | Some l =>
  if negb (IncludeCertificates b || IncludePrecertificates b) then
    Done (([], [], Some (errors_New
      "neither precertficates nor certificates are selected")), w)
  else
    match GetBoundingTilesFromTimes fuel l ctx
            (StartTimeInclusive b) (EndTimeInclusive b) w with
    | Done ((startIndex, endIndex, err), w) =>
        match err with
        | Some e =>
            Done (([], [],
                   Some (Errorf_w "determining search bounds: " e)), w)
        | None =>
            let stderr :=
              ["determined search bounds, start tile: "
                 +:+ strconv.FormatInt startIndex +:+ " end tile: "
                 +:+ strconv.FormatInt endIndex +:+ String newline ""] in
            let work := seqZ startIndex (endIndex - startIndex + 1) in
            match workers b l ctx work w [] stderr with
            | Done ((certs, stderr), w) => Done ((certs, stderr, None), w)
            | Panic => Panic
            | OutOfFuel => OutOfFuel
            end
        end
    | Panic => Panic
    | OutOfFuel => OutOfFuel
    end
  end.

End Client.

(** ** log.go: making a log *)

Section NewLog.

(** [url.Parse]: the parsed URL (as [JoinPath] takes it), or the error. *)
Variable url_Parse : string -> string * option error.

(** [NewLog]: a nil [*Log] is [None]; the field that the literal does not
    set, [TileRetry], holds its zero value. *)
Definition NewLog (metricsEndpoint : string) : option Log * option error :=
  let '(endpointUrl, err) := url_Parse metricsEndpoint in
  match err with
  | Some e => (None, Some e)
  | None =>
      (Some {| MetricsEndpoint := endpointUrl; TileRetry := zeroRetry |}, None)
  end.

End NewLog.

End staticctapi.

(* ================================================================== *)
(** * Package x509search *)
(* ================================================================== *)

Module x509search.

(** What the package calls outside this repository: [crypto/x509],
    [crypto/sha256] and the Bloom filter of [bits-and-blooms/bloom]. *)
Class Libs : Type := mkLibs {
  Certificate : Type;
  (** [cert.Raw], the complete DER encoding of a parsed certificate *)
  Raw : Certificate -> bytes;
  (** [x509.ParseCertificate(der)] *)
  ParseCertificate : bytes -> Certificate + error;
  (** a certificate is returned only for a [der] without trailing data, and
      then [Raw] is that [der] *)
  ParseCertificate_Raw :
    forall der cert, ParseCertificate der = inl cert -> Raw cert = der;
  (** [[32]byte] as a map key *)
  Digest : Type;
  Digest_eq_dec :: EqDecision Digest;
  Digest_countable :: Countable Digest;
  (** [sha256.Sum256] *)
  Sum256 : bytes -> Digest;
  BloomFilter : Type;
  (** [filter.TestOrAdd(data)]: whether [data] was reported present, and the
      filter with [data] added *)
  TestOrAdd : BloomFilter -> bytes -> bool * BloomFilter
}.

Inductive ErrorBehavior : Type :=
| ErrorBehaviorCancel
| ErrorBehaviorContinue.

#[global] Instance ErrorBehavior_eq_dec : EqDecision ErrorBehavior.
Proof. solve_decision. Defined.

(** [f == nil] for a value of function, interface or pointer type. *)
Definition isNil {A : Type} (f : option A) : bool :=
  match f with None => true | Some _ => false end.

Section Search.

Context {libs : Libs}.

(** ** The cachers *)

(** The implementations of the interface [Cacher] in the package. A
    [Sha256MapCacher] holds the map that [NewSha256MapCacher] made. *)
Inductive Cacher : Type :=
| NopCacher
| BloomCacher (filter : BloomFilter)
| Sha256MapCacher (certs : gmap Digest bool).

Definition NewSha256MapCacher : Cacher := Sha256MapCacher ∅.

(** [c.Cache(cert)]: the result, and the cacher after the call. *)
Definition Cache (c : Cacher) (cert : Certificate) : bool * Cacher :=
  match c with
  | NopCacher => (false, NopCacher)
  | BloomCacher filter =>
      let '(present, filter) := TestOrAdd filter (Raw cert) in
      (present, BloomCacher filter)
  | Sha256MapCacher certs =>
      let hash := Sum256 (Raw cert) in
      (* a key that is not present reads as the zero value, false *)
      let present := default false (certs !! hash) in
      let certs := <[hash := true]> certs in
      (present, Sha256MapCacher certs)
  end.

(** ** Data sources *)

(** What a [Sourcer.Source(ctx, certs)] does, as far as [Execute] can see:
    it sends on [certs], it looks at [ctx], it returns. *)
Inductive Sourcer : Type :=
| Send (certBytes : bytes) (next : Sourcer)
| IfDone (cancelled : error -> Sourcer) (otherwise : Sourcer)
| Return (err : option error).

(** ** The search *)

(** The filters are predicates: a filter function is taken to answer by its
    argument alone. [MatchCallback] returns nothing; its calls are recorded
    in the consumer's state. A nil function, interface or cacher is
    [None]. *)
Record Search : Type := mkSearch {
  DERFilter : option (bytes -> bool);
  Filter : option (Certificate -> bool);
  MatchCallback : option (Certificate -> unit);
  DataSources : list Sourcer;
  MatchCacher : option Cacher;
  DataSourceErrorBehavior : ErrorBehavior
}.

Definition ValidateParameters (s : Search) : option error :=
  if isNil (DERFilter s) && isNil (Filter s) then
    Some (errors_New "nil filter functions")
  else if isNil (MatchCallback s) then
    Some (errors_New "nil match callback function")
  else if bool_decide (length (DataSources s) = 0%nat) then
    Some (errors_New "no data sources")
  else None.

(** The state of the goroutine that runs [Execute]'s [for]/[select] loop:
    the cacher, the calls of [MatchCallback] so far (oldest first), and the
    lines written to [os.Stderr]. *)
Record Consumer : Type := mkConsumer {
  matches : Cacher;
  calls : list Certificate;
  stderr : list string
}.

(** The values [Execute] settles before it starts its goroutines. *)
Definition matches_of (s : Search) : Cacher := default NopCacher (MatchCacher s).
Definition derFilter_of (s : Search) : bytes -> bool :=
  default (fun _ => true) (DERFilter s).
Definition filter_of (s : Search) : Certificate -> bool :=
  default (fun _ => true) (Filter s).

(** The body of [case certBytes, ok := <-certs] for a received value. *)
Definition receive (s : Search) (certBytes : bytes) (c : Consumer) : Consumer :=
  if negb (derFilter_of s certBytes) then c
  else
    match ParseCertificate certBytes with
    | inr err =>
        mkConsumer (matches c) (calls c)
          (stderr c ++
             ["parsing certificate: " +:+ Error err +:+ String "010"%char ""])
    | inl cert =>
        if negb (filter_of s cert) then c
        else
          let '(seen, matches') := Cache (matches c) cert in
          if seen then mkConsumer matches' (calls c) (stderr c)
          else mkConsumer matches' (calls c ++ [cert]) (stderr c)
    end.

(** What one [select] of the loop picks. *)
Inductive select_event : Type :=
| ctx_Done (cause : error)          (* case <-ctx.Done() *)
| certs_recv (certBytes : bytes)    (* a value was received *)
| certs_closed.                     (* the channel is closed and empty *)

(** The loop [for { select { ... } }] of [Execute] along the events its
    selects pick: the consumer's state, and [Execute]'s return value once it
    has returned. *)
Fixpoint consumer_loop (s : Search) (events : list select_event)
    (c : Consumer) : Consumer * option (option error) :=
  match events with
  | [] => (c, None)
  | ctx_Done cause :: _ => (c, Some (Some cause))
  | certs_closed :: _ => (c, Some None)
  | certs_recv certBytes :: events' =>
      consumer_loop s events' (receive s certBytes c)
  end.

(** ** The goroutines of [Execute] *)

(** The shared state once [Execute] has started: the cancel cause of [ctx]
    ([None] while it is not done), the buffer of [certs] (each value with the
    index of the data source that sent it) and whether it is closed, what is
    left to run of each data source's goroutine ([None] once it has called
    [wg.Done]), the consumer, [Execute]'s return value once it has returned,
    the values the consumer has received so far, and the goroutines that
    have written the error of their data source to [os.Stderr]: such a
    goroutine stands between its [Fprintf] and its [cancel(err)]. *)
Record State : Type := mkState {
  cause : option error;
  certs : list (nat * bytes);
  closed : bool;
  sources : list (option Sourcer);
  consumer : Consumer;
  returned : option (option error);
  delivered : list (nat * bytes);
  reported : list nat
}.

Definition initial (s : Search) : State :=
  {| cause := None;
     certs := [];
     closed := false;
     sources := Some <$> DataSources s;
     consumer := mkConsumer (matches_of s) [] [];
     returned := None;
     delivered := [];
     reported := [] |}.

(** [cancel(err)] and the cancellation of the parent context: the first
    cause stays. *)
Definition cancel (err : error) (cause : option error) : option error :=
  match cause with
  | None => Some err
  | Some _ => cause
  end.

Definition Canceled : error := errors_New "context canceled".

Inductive label : Type :=
| l_send (i : nat)
| l_look (i : nat)
| l_return (i : nat)
| l_report (i : nat)
| l_cancel (i : nat)
| l_close
| l_recv
| l_done
| l_closed
| l_parent_cancelled.

(** One step of one goroutine. The goroutine of a data source whose
    [Source] has returned [err] goes on in one of two ways. When [err] is
    [nil] or the behaviour is not [ErrorBehaviorCancel], the deferred
    [wg.Done()] is all that is left ([step_return]). Otherwise it writes the
    error to [os.Stderr] ([step_report]) and then, in a step of its own
    before which the other goroutines may run, calls [cancel(err)]
    ([step_cancel]); after that it has the deferred [wg.Done()] left, as
    after a [Source] that has returned [nil], which is what its slot then
    holds. The consumer handles a received value in the step that receives
    it ([step_recv]). *)
Inductive step (s : Search) : label -> State -> State -> Prop :=
| step_send st i certBytes next :
    sources st !! i = Some (Some (Send certBytes next)) ->
    (length (certs st) < length (DataSources s))%nat ->
    step s (l_send i) st
      (mkState (cause st) (certs st ++ [(i, certBytes)]) (closed st)
         (<[i := Some next]> (sources st)) (consumer st) (returned st)
         (delivered st) (reported st))
| step_look st i cancelled otherwise :
    sources st !! i = Some (Some (IfDone cancelled otherwise)) ->
    step s (l_look i) st
      (mkState (cause st) (certs st) (closed st)
         (<[i := Some (match cause st with
                       | Some e => cancelled e
                       | None => otherwise
                       end)]> (sources st))
         (consumer st) (returned st) (delivered st) (reported st))
| step_return st i err :
    sources st !! i = Some (Some (Return err)) ->
    err = None \/ DataSourceErrorBehavior s <> ErrorBehaviorCancel ->
    step s (l_return i) st
      (mkState (cause st) (certs st) (closed st)
         (<[i := None]> (sources st)) (consumer st) (returned st)
         (delivered st) (reported st))
| step_report st i e :
    sources st !! i = Some (Some (Return (Some e))) ->
    DataSourceErrorBehavior s = ErrorBehaviorCancel ->
    i ∉ reported st ->
    step s (l_report i) st
      (mkState (cause st) (certs st) (closed st) (sources st)
         (mkConsumer (matches (consumer st)) (calls (consumer st))
            (stderr (consumer st) ++
               ["data source encountered error: " +:+ Error e
                  +:+ String "010"%char ""]))
         (returned st) (delivered st) (i :: reported st))
| step_cancel st i e :
    sources st !! i = Some (Some (Return (Some e))) ->
    DataSourceErrorBehavior s = ErrorBehaviorCancel ->
    i ∈ reported st ->
    step s (l_cancel i) st
      (mkState (cancel e (cause st)) (certs st) (closed st)
         (<[i := Some (Return None)]> (sources st)) (consumer st)
         (returned st) (delivered st) (reported st))
| step_close st :
    Forall (fun g => g = None) (sources st) ->
    closed st = false ->
    step s l_close st
      (mkState (cause st) (certs st) true (sources st) (consumer st)
         (returned st) (delivered st) (reported st))
| step_recv st i certBytes rest :
    returned st = None ->
    certs st = (i, certBytes) :: rest ->
    step s l_recv st
      (mkState (cause st) rest (closed st) (sources st)
         (receive s certBytes (consumer st)) (returned st)
         (delivered st ++ [(i, certBytes)]) (reported st))
| step_done st e :
    returned st = None ->
    cause st = Some e ->
    step s l_done st
      (mkState (cause st) (certs st) (closed st) (sources st) (consumer st)
         (Some (Some e)) (delivered st) (reported st))
| step_closed st :
    returned st = None ->
    certs st = [] ->
    closed st = true ->
    step s l_closed st
      (mkState (cause st) (certs st) (closed st) (sources st) (consumer st)
         (Some None) (delivered st) (reported st))
| step_parent_cancelled st :
    step s l_parent_cancelled st
      (mkState (cancel Canceled (cause st)) (certs st) (closed st)
         (sources st) (consumer st) (returned st) (delivered st)
         (reported st)).

(** A run of the goroutines, with the labels of its steps. *)
Inductive steps (s : Search) : list label -> State -> State -> Prop :=
| steps_nil st : steps s [] st st
| steps_cons l ls st1 st2 st3 :
    step s l st1 st2 -> steps s ls st2 st3 -> steps s (l :: ls) st1 st3.

(** [s.Execute(ctx)] returns [r], with the consumer in state [c]: a failed
    validation and a context that is already done return at once;
    otherwise the goroutines run until the loop returns. [ctxErr] is
    [ctx.Err()] at the call. *)
Inductive Execute (s : Search) (ctxErr : option error)
  : option error -> Consumer -> Prop :=
| Execute_invalid e :
    ValidateParameters s = Some e ->
    Execute s ctxErr (Some e) (mkConsumer (matches_of s) [] [])
| Execute_ctx_err e :
    ValidateParameters s = None ->
    ctxErr = Some e ->
    Execute s ctxErr (Some e) (mkConsumer (matches_of s) [] [])
| Execute_run ls st r :
    ValidateParameters s = None ->
    ctxErr = None ->
    steps s ls (initial s) st ->
    returned st = Some r ->
    Execute s ctxErr r (consumer st).

End Search.

End x509search.

(* ================================================================== *)
(** * Package boulder *)
(* ================================================================== *)

Module boulder.

Import x509search.

Definition not_implemented : error := errors_New "not implemented".

(** [DataSource.Source], as [Execute] sees it: it sends nothing and returns
    its error at once. *)
Definition Source {libs : Libs} : Sourcer := Return (Some not_implemented).

End boulder.

(* ================================================================== *)
(** * The specification's vocabulary *)
(* ================================================================== *)

Module Spec.

Import staticctapi.

(** The constraints of a retry policy, in the specification's words: at
    least one attempt, a positive maximal interval, a positive overall
    timeout above the maximal interval. *)
Definition retry_rejected (r : Retry) : Prop :=
  MaxAttempts r < 1 \/ MaxInterval r <= 0 \/ Timeout r <= 0
  \/ Timeout r <= MaxInterval r.

(** ** Tile paths *)

(** The three decimal digits of a group below 1000, zero-padded. *)
Definition three_digits (g : Z) : string :=
  String (strconv.digit_char (g / 100))
    (String (strconv.digit_char (g / 10 mod 10))
       (String (strconv.digit_char (g mod 10)) "")).

(** An [xDDD/] segment. *)
Definition x_segment (g : Z) : string := "x" +:+ three_digits g +:+ "/".

(** The concatenation of the segments of a path. *)
Definition join (segments : list string) : string :=
  fold_right String.append "" segments.

(** The groups of three decimal digits of a number, most significant first:
    none for zero, so the first group of a positive number is not zero. *)
Inductive base1000 : Z -> list Z -> Prop :=
| base1000_zero : base1000 0 []
| base1000_more r gs :
    r <> 0 -> base1000 (r / 1000) gs -> base1000 r (gs ++ [r mod 1000]).

(** The value of three digit bytes. *)
Definition digits3 (a b c : ascii) : option Z :=
  match strconv.digit_val a, strconv.digit_val b, strconv.digit_val c with
  | Some x, Some y, Some z => Some (100 * x + 10 * y + z)
  | _, _, _ => None
  end.

(** Decoding a tile path back to an index: every [xDDD/] segment shifts the
    index by three decimal digits, the last segment [DDD] ends the path. *)
Fixpoint IndexFromTilePath_go (acc : Z) (path : string) : option Z :=
  match path with
  | String a (String b (String c EmptyString)) =>
      match digits3 a b c with
      | Some g => Some (acc * 1000 + g)
      | None => None
      end
  | String x (String a (String b (String c (String slash rest)))) =>
      if bool_decide (x = "x"%char) && bool_decide (slash = "/"%char) then
        match digits3 a b c with
        | Some g => IndexFromTilePath_go (acc * 1000 + g) rest
        | None => None
        end
      else None
  | _ => None
  end.

Definition IndexFromTilePath (path : string) : option Z :=
  IndexFromTilePath_go 0 path.


(** ** Checkpoints *)

(** The value of a string of decimal digits, read after [acc]; [None] when a
    byte is no digit. *)
Fixpoint digits_value (acc : Z) (s : string) : option Z :=
  match s with
  | EmptyString => Some acc
  | String c s' =>
      match strconv.digit_val c with
      | Some d => digits_value (acc * 10 + d) s'
      | None => None
      end
  end.

(** [s] is the canonical decimal of the non-negative number [n]: digits
    only, at least one, and no leading zero unless [s] is ["0"]; so there is
    no sign and no other byte. *)
Definition canonical_decimal (s : string) (n : Z) : Prop :=
  s <> ""
  /\ digits_value 0 s = Some n
  /\ (s = "0" \/ forall s', s <> String "0" s').

(** The text up to the first newline, and the text after it. *)
Fixpoint first_line (text : string) : string :=
  match text with
  | EmptyString => EmptyString
  | String c text' =>
      if decide (c = newline) then EmptyString else String c (first_line text')
  end.

Fixpoint drop_line (text : string) : string :=
  match text with
  | EmptyString => EmptyString
  | String c text' => if decide (c = newline) then text' else drop_line text'
  end.

(** Line [k] of a text, counted from 1. *)
Definition line (k : nat) (text : string) : string :=
  first_line (Nat.iter (k - 1) drop_line text).

(** A checkpoint the code accepts with tree size [n]: at least three
    newlines, at most 1,000,000 bytes, line 2 the canonical decimal of [n]
    with [n] in [int64], line 3 the base64 of exactly 32 bytes. *)
Definition accepted_checkpoint (text : string) (n : Z) : Prop :=
  3 <= strings.Count text newline
  /\ len text <= 1000000
  /\ canonical_decimal (line 2 text) n
  /\ n <= maxInt64
  /\ exists hash, base64.DecodeString (line 3 text) = Some hash
                  /\ length hash = 32%nat.

Definition MiB : Z := 1048576.

(** A checkpoint that is well formed when the size bound is 1 MiB and any
    canonical decimal will do for the tree size. *)
Definition claimed_checkpoint (text : string) (n : Z) : Prop :=
  3 <= strings.Count text newline
  /\ len text <= 1 * MiB
  /\ canonical_decimal (line 2 text) n
  /\ exists hash, base64.DecodeString (line 3 text) = Some hash
                  /\ length hash = 32%nat.

(** A text of [k] bytes [c] followed by [s]. *)
Definition filler (k : N) (c : ascii) (s : string) : string :=
  N.iter k (String c) s.

(** A checkpoint with tree size 0 and the base64 of 32 zero bytes, after a
    first line of [k] bytes: [k + 48] bytes in all. *)
Definition padded_checkpoint (k : N) : string :=
  filler k "a"
    (String newline
       ("0" +:+ String newline
          ("AAAAAAAAAAAAAAAAAAAAAAAAAAAAAAAAAAAAAAAAAAA=" +:+ String newline ""))).

(** A checkpoint of 1,000,001 bytes. *)
Definition oversized_checkpoint : string := padded_checkpoint 999953.

(** A checkpoint whose tree size is [2^63], one more than [int64] holds. *)
Definition beyond_int64_checkpoint : string :=
  "log" +:+ String newline
    ("9223372036854775808" +:+ String newline
       ("AAAAAAAAAAAAAAAAAAAAAAAAAAAAAAAAAAAAAAAAAAA=" +:+ String newline "")).

(** ** Tiles *)

(** The first [k] leaf records of a tile body and what follows them; [None]
    when one of them is not well formed. *)
Fixpoint read_records {net : Net} (k : nat) (data : bytes)
  : option (list LogEntry * bytes) :=
  match k with
  | O => Some ([], data)
  | S k' =>
      match ReadTileLeaf data with
      | inl (entry, rest) =>
          match read_records k' rest with
          | Some (entries, rest') => Some (entry :: entries, rest')
          | None => None
          end
      | inr _ => None
      end
  end.


(** ** The search for the tile of a time *)

(** The binary search as the specification words it, over the integers: the
    pivot is the midpoint of the interval; a time strictly before the
    pivot's first entry sends the search left, a time strictly after its
    last entry sends it right, and otherwise the pivot is the answer; an
    empty interval is an error. *)
Fixpoint midpoint_search {net : Net} (fuel : nat) (l : Log) (ctx : Ctx)
    (t : Time) (low high : Z) (w : World)
  : run ((Z * option error) * World) :=
  if low <=? high then
    match fuel with
    | O => OutOfFuel
    | S fuel' =>
        let pivot := (low + high) / 2 in
        let '((tileEntries, err), w) := GetTileEntries l ctx pivot w in
        match err with
        | Some e =>
            Done ((-1, Some (Errorf_w "getting entries for tile: " e)), w)
        | None =>
            match tileEntries !! 0%nat, tileEntries !! 255%nat with
            | Some (Some first), Some (Some last) =>
                if t <? UnixMilli (Timestamp first) then
                  midpoint_search fuel' l ctx t low (pivot - 1) w
                else if UnixMilli (Timestamp last) <? t then
                  midpoint_search fuel' l ctx t (pivot + 1) high w
                else Done ((pivot, None), w)
            | _, _ => Panic
            end
        end
    end
  else
    Done ((-1, Some (errors_New
      "timestamp doesn't fall within the time bounds of the log entries")),
      w).

Definition TileIndexFromTime_spec {net : Net} (fuel : nat) (l : Log)
    (ctx : Ctx) (t : Time) (low high : Z) (w : World)
  : run ((Z * option error) * World) :=
  if low <? 0 then Done ((-1, Some (errors_New "negative startTile")), w)
  else midpoint_search fuel l ctx t low high w.


End Spec.

(* ================================================================== *)
(** * A log and its network, for running the client *)
(* ================================================================== *)

Module Demo.

Import staticctapi.
Import Spec.

Definition Z_of_byte (b : Byte.byte) : Z := Z.of_N (Byte.to_N b).

(** A leaf encoding of four bytes: the timestamp in two bytes, the entry
    type, one byte of certificate. *)
Definition demo_ReadTileLeaf (tile : bytes) : (LogEntry * bytes) + error :=
  match tile with
  | hi :: lo :: type :: body :: rest =>
      let precert := negb (Z_of_byte type =? 0) in
      inl ({| Timestamp := 256 * Z_of_byte hi + Z_of_byte lo;
              IsPrecert := precert;
              Certificate := if precert then [] else [body];
              PreCertificate := if precert then [body] else [] |}, rest)
  | _ => inr (errors_New "invalid data tile")
  end.

(** Entry [j] of tile [i] of the demo log: it was logged at millisecond
    [256 * i + j]; every fourth entry is a precertificate. *)
Definition demo_leaf (i j : Z) : bytes :=
  [base64.byte_of_Z i; base64.byte_of_Z j;
   base64.byte_of_Z (if j mod 4 =? 3 then 1 else 0); base64.byte_of_Z (i + j)].

(** The entries of tile [i], as [demo_ReadTileLeaf] reads them. *)
Definition demo_entries (i : Z) : list LogEntry :=
  (fun j =>
     let precert := j mod 4 =? 3 in
     {| Timestamp := 256 * i + j;
        IsPrecert := precert;
        Certificate := if precert then [] else [base64.byte_of_Z (i + j)];
        PreCertificate := if precert then [base64.byte_of_Z (i + j)] else [] |})
  <$> seqZ 0 256.

(** The body the server sends for tile [i]: its 256 leaves, and three bytes
    more. *)
Definition demo_tile (i : Z) : bytes :=
  flat_map (demo_leaf i) (seqZ 0 256) ++ [Byte.xff; Byte.xfe; Byte.xfd].

(** The demo log has 1000 entries: tiles 0 to 3 are served. *)
Definition demo_checkpoint : string :=
  "log.example" +:+ String newline
    ("1000" +:+ String newline
       ("AAAAAAAAAAAAAAAAAAAAAAAAAAAAAAAAAAAAAAAAAAA=" +:+ String newline "")).

Definition demo_endpoint : string := "https://log.example".

Fixpoint strip_prefix (prefix s : string) : option string :=
  match prefix, s with
  | EmptyString, _ => Some s
  | String p prefix', String c s' =>
      if decide (c = p) then strip_prefix prefix' s' else None
  | String _ _, EmptyString => None
  end.

Definition demo_response (code : Z) (status : string) (body : bytes)
  : Response :=
  {| StatusCode := code; Status := status; ContentEncoding := "";
     Body := mkStream body None |}.

Definition demo_serve (url : string) : Response :=
  let not_found := demo_response 404 "404 Not Found" [] in
  if decide (url = demo_endpoint +:+ "/checkpoint") then
    demo_response 200 "200 OK" (String.list_byte_of_string demo_checkpoint)
  else
    match strip_prefix (demo_endpoint +:+ "/tile/data/") url with
    | Some path =>
        match IndexFromTilePath path with
        | Some i => if i <? 4 then demo_response 200 "200 OK" (demo_tile i)
                    else not_found
        | None => not_found
        end
    | None => not_found
    end.

(** The world is the list of the URLs requested so far; a context is
    cancelled once a given number of requests has been made ([None]: never). *)
Definition demo_cancelled (ctx : option nat) (w : list string) : bool :=
  match ctx with
  | Some k => bool_decide (k <= length w)%nat
  | None => false
  end.

Definition context_Canceled : error := errors_New "context canceled".

Definition demo_Do (request : Request (option nat)) (w : list string)
  : (Response * option error) * list string :=
  if demo_cancelled (req_ctx request) w then
    ((demo_response 0 "" [], Some context_Canceled), w ++ [req_url request])
  else ((demo_serve (req_url request), None), w ++ [req_url request]).

(** Retrying without waiting: up to [n] retries, none once the context is
    cancelled. *)
Fixpoint demo_retry (n : nat) (ctx : option nat)
    (operation : list string -> (Entries * option error) * list string)
    (w : list string) : (Entries * option error) * list string :=
  let '((res, err), w) := operation w in
  match err with
  | None => ((res, None), w)
  | Some e =>
      if demo_cancelled ctx w then ((res, Some context_Canceled), w)
      else match n with
           | O => ((res, Some e), w)
           | S n' => demo_retry n' ctx operation w
           end
  end.

Definition demo_net : Net :=
  {| Ctx := option nat;
     World := list string;
     url_JoinPath := fun endpoint path => endpoint +:+ path;
     NewRequestWithContext := fun ctx method url =>
       (mkRequest ctx method url [], None);
     http_Do := demo_Do;
     gzip_NewReader := fun r => (r, Some (errors_New "gzip: invalid header"));
     ReadTileLeaf := demo_ReadTileLeaf;
     RetryWithData := fun bo ctx operation w =>
       demo_retry (Z.to_nat (WithMaxRetries bo)) ctx operation w |}.

Definition demo_log : Log :=
  {| MetricsEndpoint := demo_endpoint; TileRetry := zeroRetry |}.

(** A data source over the demo log, with one worker, for the entries
    logged from millisecond 300 to millisecond 700. *)
Definition demo_source : DataSource :=
  {| ds_Log := Some demo_log;
     IncludePrecertificates := true;
     IncludeCertificates := true;
     StartTimeInclusive := UnixMilli 300;
     EndTimeInclusive := UnixMilli 700;
     MaxConnections := 1 |}.

End Demo.

(* ================================================================== *)
(** * The specification's vocabulary for the search *)
(* ================================================================== *)

Module SearchSpec.

Import x509search.

Section Vocabulary.

Context {libs : Libs}.

(** The SHA-256 fingerprint of a certificate: the digest of its raw DER
    bytes. *)
Definition fingerprint (cert : Certificate) : Digest := Sum256 (Raw cert).

(** An input that passes [DERFilter], parses as a certificate, and passes
    [Filter], with the certificate it parses to. *)
Definition accepted (s : Search) (certBytes : bytes) : option Certificate :=
  if derFilter_of s certBytes then
    match ParseCertificate certBytes with
    | inl cert => if filter_of s cert then Some cert else None
    | inr _ => None
    end
  else None.

(** The certificates of a list whose fingerprint occurs neither in [seen]
    nor earlier in the list. *)
Fixpoint first_occurrences (seen : list Digest) (certs : list Certificate)
  : list Certificate :=
  match certs with
  | [] => []
  | cert :: certs' =>
      if decide (fingerprint cert ∈ seen) then first_occurrences seen certs'
      else cert :: first_occurrences (fingerprint cert :: seen) certs'
  end.

(** The fingerprints that the map of a [Sha256MapCacher] holds [true] for:
    those of the certificates it has cached. *)
Definition recorded (certs : gmap Digest bool) : list Digest :=
  omap (fun kv : Digest * bool => if snd kv then Some (fst kv) else None)
    (map_to_list certs).

(** The consumer loop on the values of [inputs] followed by the closing of
    the channel, from the state in which [Execute] starts it. *)
Definition consumer_run (s : Search) (inputs : list bytes)
  : Consumer * option (option error) :=
  consumer_loop s ((certs_recv <$> inputs) ++ [certs_closed])
    (mkConsumer (matches_of s) [] []).

(** What a data source sends while the context is not cancelled. *)
Fixpoint sends (p : Sourcer) : list bytes :=
  match p with
  | Send certBytes next => certBytes :: sends next
  | IfDone _ otherwise => sends otherwise
  | Return _ => []
  end.

(** The values of a list of tagged values that carry the tag [i]. *)
Definition from_source (i : nat) (l : list (nat * bytes)) : list bytes :=
  snd <$> filter (fun x => fst x = i) l.

(** The consumer after it has received the given values. *)
Definition consumer_after (s : Search) (l : list (nat * bytes)) : Consumer :=
  foldl (fun c x => receive s (snd x) c) (mkConsumer (matches_of s) [] []) l.

(** A line that reports a certificate that does not parse. *)
Definition parse_error_line (line : string) : Prop :=
  exists err,
    line = "parsing certificate: " +:+ Error err +:+ String "010"%char "".

(** The line that would report the error of a data source. *)
Definition source_error_line (err : error) : string :=
  "data source encountered error: " +:+ Error err +:+ String "010"%char "".

(** The steps a data source's goroutine has left while the context is not
    cancelled, a send counting twice (the value is also received). *)
Fixpoint size (p : Sourcer) : nat :=
  match p with
  | Send _ next => 2 + size next
  | IfDone _ otherwise => 1 + size otherwise
  | Return _ => 1
  end.

(** A bound on the steps the goroutines of [Execute] have left. *)
Definition weight (st : State) : nat :=
  sum_list ((fun g => match g with Some p => size p | None => 0%nat end)
              <$> sources st)
  + length (certs st)
  + (if closed st then 0 else 1)
  + (match returned st with Some _ => 0 | None => 1 end).

(** What the goroutine in a slot of [sources] still sends while the context
    is not cancelled. *)
Definition remaining (g : option (option Sourcer)) : list bytes :=
  match g with
  | Some (Some p) => sends p
  | _ => []
  end.

(** What holds of the goroutines of [Execute] as long as nothing cancels the
    context: the consumer has processed exactly the values delivered to it;
    the channel is closed only after every data source has returned; the
    loop has returned only [nil], on a closed and empty channel; and what
    each data source sends is delivered, buffered, or still to be sent. *)
Definition invariant (s : Search) (st : State) : Prop :=
  cause st = None
  /\ consumer st = consumer_after s (delivered st)
  /\ length (sources st) = length (DataSources s)
  /\ (closed st = true -> Forall (fun g => g = None) (sources st))
  /\ (forall r, returned st = Some r ->
        r = None /\ closed st = true /\ certs st = [])
  /\ (forall i p, DataSources s !! i = Some p ->
        from_source i (delivered st) ++ from_source i (certs st)
          ++ remaining (sources st !! i) = sends p).

End Vocabulary.

(** ** A search to run *)

(** Certificates that are their own DER bytes (the empty string does not
    parse), and a digest that is the bytes themselves. *)
Definition demo_libs : Libs :=
  {| Certificate := bytes;
     Raw := fun cert => cert;
     ParseCertificate := fun der =>
       match der with
       | [] => inr (errors_New "x509: malformed certificate")
       | _ :: _ => inl der
       end;
     ParseCertificate_Raw := fun der cert =>
       match der with
       | [] => fun H => match H with end
       | b :: der' => fun H => match H with eq_refl => eq_refl end
       end;
     Digest := list N;
     Sum256 := fun data => Byte.to_N <$> data;
     BloomFilter := unit;
     TestOrAdd := fun filter _ => (false, filter) |}.

Definition cert_A : bytes := [Byte.x41].
Definition cert_B : bytes := [Byte.x42].
Definition cert_C : bytes := [Byte.x43].

Definition boom : error := errors_New "boom".

(** Two data sources: the first sends [A] and fails, the second sends [B]
    and [C] and returns [nil]; every certificate matches; exact
    de-duplication; the search continues when a data source fails. *)
Definition demo_search : Search (libs := demo_libs) :=
  {| DERFilter := None;
     Filter := Some (fun _ => true);
     MatchCallback := Some (fun _ => tt);
     DataSources :=
       [Send cert_A (Return (Some boom));
        Send cert_B (Send cert_C (Return None))];
     MatchCacher := Some NewSha256MapCacher;
     DataSourceErrorBehavior := ErrorBehaviorContinue |}.

(** A run of [demo_search]: both data sources send, the consumer receives
    [A] and [B], the first data source fails, the second sends [C] and
    returns, the channel is closed, and the loop returns. *)
Definition demo_labels : list label :=
  [l_send 0; l_send 1; l_recv; l_recv; l_return 0; l_send 1; l_recv;
   l_return 1; l_close; l_closed].

Definition demo_final : State (libs := demo_libs) :=
  {| cause := None;
     certs := [];
     closed := true;
     sources := [None; None];
     consumer :=
       mkConsumer (libs := demo_libs)
         (Sha256MapCacher (libs := demo_libs)
            (<[Sum256 (Libs := demo_libs) cert_C := true]>
               (<[Sum256 (Libs := demo_libs) cert_B := true]>
                  (<[Sum256 (Libs := demo_libs) cert_A := true]> ∅))))
         [cert_A; cert_B; cert_C] [];
     returned := Some None;
     delivered := [(0%nat, cert_A); (1%nat, cert_B); (1%nat, cert_C)];
     reported := [] |}.

(** [demo_search] with its cacher as a first [Execute] that received [A]
    has left it: the cacher is shared by the calls of [Execute] on one
    [Search], and its map keeps what it holds. *)
Definition used_search : Search (libs := demo_libs) :=
  {| DERFilter := None;
     Filter := Some (fun _ => true);
     MatchCallback := Some (fun _ => tt);
     DataSources :=
       [Send cert_A (Return (Some boom));
        Send cert_B (Send cert_C (Return None))];
     MatchCacher := Some (matches (fst (consumer_run demo_search [cert_A])));
     DataSourceErrorBehavior := ErrorBehaviorContinue |}.

End SearchSpec.

(* ================================================================== *)
(** * Notions for the further properties of the log client *)
(* ================================================================== *)

Module Notions.

Import staticctapi.
Import Spec.

(** Whether a byte occurs in a string. *)
Fixpoint has_byte (c : ascii) (s : string) : bool :=
  match s with
  | EmptyString => false
  | String a s' => bool_decide (a = c) || has_byte c s'
  end.

(** A checkpoint text: the origin line, the tree size line, the root hash
    line, and what follows the third newline (the signature lines). *)
Definition checkpoint_text (origin size hash rest : string) : string :=
  origin
    +:+ String newline (size +:+ String newline (hash +:+ String newline rest)).

(** A server that answers every request with the first 100 leaves of tile 0
    of the demo log: a partial tile. *)
Definition partial_tile_net : Net :=
  {| Ctx := unit;
     World := list string;
     url_JoinPath := fun endpoint path => endpoint +:+ path;
     NewRequestWithContext := fun ctx method url =>
       (mkRequest ctx method url [], None);
     http_Do := fun request w =>
       ((Demo.demo_response 200 "200 OK"
           (flat_map (Demo.demo_leaf 0) (seqZ 0 100)), None),
        w ++ [req_url request]);
     gzip_NewReader := fun r => (r, Some (errors_New "gzip: invalid header"));
     ReadTileLeaf := Demo.demo_ReadTileLeaf;
     RetryWithData := fun bo ctx operation w => operation w |}.

(** The log serves tile [i] whatever the state of the world:
    [GetTileEntries] succeeds on it, and the first and the last entry it
    returns were logged at the milliseconds [first] and [last]. *)
Definition serves_tile {net : Net} (l : Log) (ctx : Ctx) (i first last : Z)
  : Prop :=
  forall w, exists entries w' e0 e255,
    GetTileEntries l ctx i w = ((entries, None), w')
    /\ entries !! 0%nat = Some (Some e0) /\ Timestamp e0 = first
    /\ entries !! 255%nat = Some (Some e255) /\ Timestamp e255 = last.

(** The time [t] is not before the millisecond [first] and not after the
    millisecond [last]. *)
Definition within (first last : Z) (t : Time) : Prop :=
  UnixMilli first <= t <= UnixMilli last.

(** The tiles from [low] to [high] are in sequential order: in a tile the
    last entry is not older than the first, and the first entry of a tile
    is not older than the last entry of a tile before it. *)
Definition sequential (first last : Z -> Z) (low high : Z) : Prop :=
  (forall i, low <= i <= high -> first i <= last i)
  /\ (forall i j, low <= i -> i < j -> j <= high -> last i <= first j).

Definition not_in_log : error :=
  errors_New "timestamp doesn't fall within the time bounds of the log entries".

(** What a worker sends for an entry of a tile: the precertificate of a
    precertificate entry, the certificate of any other entry, each only
    when its kind is selected. *)
Definition selected (b : DataSource) (entry : LogEntry) : option bytes :=
  if IsPrecert entry then
    if IncludePrecertificates b then Some (PreCertificate entry) else None
  else if IncludeCertificates b then Some (Certificate entry) else None.

(** How the download of tile [i] ends, whatever the state of the world:
    with the entries [inl es], or with the error [inr e]. *)
Definition fetches {net : Net} (l : Log) (ctx : Ctx) (i : Z)
    (r : list LogEntry + error) : Prop :=
  forall w, exists entries w',
    GetTileEntriesWithBackoff l ctx i w
    = ((entries, match r with inl _ => None | inr e => Some e end), w')
    /\ match r with inl es => entries = Some <$> es | inr _ => True end.

(** What is sent for a tile, and the line written for it. *)
Definition sent_for (b : DataSource) (r : list LogEntry + error)
  : list bytes :=
  match r with
  | inl es => omap (selected b) es
  | inr _ => []
  end.

Definition logged_for (r : list LogEntry + error) : option string :=
  match r with
  | inl _ => None
  | inr e =>
      Some ("getting entries for tile: " +:+ Error e +:+ String newline "")
  end.

(** The line [Source] writes once the bounds are determined. *)
Definition bounds_line (startIndex endIndex : Z) : string :=
  "determined search bounds, start tile: "
    +:+ strconv.FormatInt startIndex +:+ " end tile: "
    +:+ strconv.FormatInt endIndex +:+ String newline "".

End Notions.

(* ================================================================== *)
(** * Notions for the further properties of the search *)
(* ================================================================== *)

Module SearchNotions.

Import x509search.
Import SearchSpec.

(** The results of caching the certificates of a list one after the other,
    and the cacher after the last. *)
Fixpoint CacheAll {libs : Libs} (c : Cacher) (certs : list Certificate)
  : list bool * Cacher :=
  match certs with
  | [] => ([], c)
  | cert :: certs' =>
      let '(present, c) := Cache c cert in
      let '(results, c) := CacheAll c certs' in
      (present :: results, c)
  end.

(** The calls so far are calls on certificates that received values were
    accepted as, in the order of their receipt. *)
Definition calls_accepted {libs : Libs} (s : Search) (st : State) : Prop :=
  calls (consumer st)
    `sublist_of` omap (accepted s) (snd <$> delivered st).

(** An error that a data source may return. *)
Inductive may_return {libs : Libs} : Sourcer -> error -> Prop :=
| may_return_here e : may_return (Return (Some e)) e
| may_return_send certBytes next e :
    may_return next e -> may_return (Send certBytes next) e
| may_return_cancelled cancelled otherwise x e :
    may_return (cancelled x) e -> may_return (IfDone cancelled otherwise) e
| may_return_otherwise cancelled otherwise e :
    may_return otherwise e -> may_return (IfDone cancelled otherwise) e.

(** An error that one of the data sources of the search may return. *)
Definition source_error {libs : Libs} (s : Search) (e : error) : Prop :=
  exists i p, DataSources s !! i = Some p /\ may_return p e.

(** The report of [e] is the first report of a data source's error on
    [os.Stderr]: before it stand only reports of certificates that do not
    parse. *)
Definition first_reported (e : error) (lines : list string) : Prop :=
  exists before after,
    lines = before ++ source_error_line e :: after
    /\ Forall parse_error_line before.

(** A line of [os.Stderr] that [Execute] writes: the report of a
    certificate that does not parse, or of an error that a data source of
    the search may return. *)
Definition report_line {libs : Libs} (s : Search) (line : string) : Prop :=
  parse_error_line line
  \/ exists e, source_error s e /\ line = source_error_line e.

(** The slot of a goroutine that has reported the error of its data source:
    it has [cancel(err)] next, and the report of [err] is on [os.Stderr];
    or it has called [cancel(err)], and perhaps [wg.Done()]. *)
Definition reported_slot {libs : Libs} (lines : list string)
    (g : option (option Sourcer)) : Prop :=
  g = Some None \/ g = Some (Some (Return None))
  \/ exists e, g = Some (Some (Return (Some e)))
               /\ source_error_line e ∈ lines.

(** What holds of the goroutines of [Execute] as long as nothing cancels the
    parent context: a data source still returns only what it could return
    from the start; a goroutine that has reported the error of its data
    source has called [cancel] since, or its report is on [os.Stderr]; the
    lines of [os.Stderr] are reports; the context is cancelled only under
    [ErrorBehaviorCancel], with an error of a data source that has been
    reported; and the loop returns no error but the cause. *)
Definition failure_invariant {libs : Libs} (s : Search) (st : State) : Prop :=
  (forall i q e, sources st !! i = Some (Some q) -> may_return q e ->
                 source_error s e)
  /\ (forall i, i ∈ reported st ->
        reported_slot (stderr (consumer st)) (sources st !! i))
  /\ Forall (report_line s) (stderr (consumer st))
  /\ match cause st with
     | None => True
     | Some e =>
         DataSourceErrorBehavior s = ErrorBehaviorCancel
         /\ source_error s e
         /\ source_error_line e ∈ stderr (consumer st)
     end
  /\ (forall e, returned st = Some (Some e) -> cause st = Some e).

(** The number of data sources that have not returned. *)
Definition running {libs : Libs} (srcs : list (option Sourcer)) : nat :=
  sum_list ((fun g => match g with Some _ => 1%nat | None => 0%nat end)
              <$> srcs).

(** A run without a cancellation of the parent context, after which the
    loop has not returned, the channel is closed only if it was, and the
    cause of a cancelled context is the same. *)
Definition continues {libs : Libs} (s : Search) (ls : list label)
    (st st' : State) : Prop :=
  steps s ls st st'
  /\ (l_parent_cancelled ∉ ls)
  /\ returned st' = None
  /\ closed st' = closed st
  /\ length (sources st') = length (sources st)
  /\ (forall e, cause st = Some e -> cause st' = Some e).

(** Nothing was sent: the data sources are those of the package boulder,
    or have returned. *)
Definition nothing_sent {libs : Libs} (st : State) : Prop :=
  certs st = [] /\ delivered st = [] /\ calls (consumer st) = []
  /\ Forall (fun g => g = None \/ g = Some (Return None)
                      \/ g = Some boulder.Source) (sources st).

(** The same search under [ErrorBehaviorContinue]. *)
Definition continuing {libs : Libs} (s : Search) : Search :=
  mkSearch (DERFilter s) (Filter s) (MatchCallback s) (DataSources s)
    (MatchCacher s) ErrorBehaviorContinue.

(** What a data source returns while the context is not cancelled. *)
Fixpoint returns {libs : Libs} (p : Sourcer) : option error :=
  match p with
  | Send _ next => returns next
  | IfDone _ otherwise => returns otherwise
  | Return err => err
  end.

(** The context is not cancelled, and the data sources that run will
    return [nil] if it stays so. *)
Definition no_failure {libs : Libs} (st : State) : Prop :=
  cause st = None
  /\ forall i q, sources st !! i = Some (Some q) -> returns q = None.

(** ** Searches to run *)

(** The search of [demo_search] under [ErrorBehaviorCancel]. *)
Definition cancel_search : Search (libs := demo_libs) :=
  {| DERFilter := None;
     Filter := Some (fun _ => true);
     MatchCallback := Some (fun _ => tt);
     DataSources :=
       [Send cert_A (Return (Some boom));
        Send cert_B (Send cert_C (Return None))];
     MatchCacher := Some NewSha256MapCacher;
     DataSourceErrorBehavior := ErrorBehaviorCancel |}.

(** A run of [cancel_search] up to the failure of the first data source, and
    the state it reaches. *)
Definition failure_labels : list label := [l_send 0; l_report 0; l_cancel 0].

Definition failure_state : State (libs := demo_libs) :=
  {| cause := Some boom;
     certs := [(0%nat, cert_A)];
     closed := false;
     sources := [Some (Return None);
                 Some (Send cert_B (Send cert_C (Return None)))];
     consumer :=
       mkConsumer (libs := demo_libs)
         (Sha256MapCacher (libs := demo_libs) ∅) []
         [source_error_line boom];
     returned := None;
     delivered := [];
     reported := [0%nat] |}.

(** A search whose only data source is one of the package boulder. *)
Definition boulder_search : Search (libs := demo_libs) :=
  {| DERFilter := None;
     Filter := Some (fun _ => true);
     MatchCallback := Some (fun _ => tt);
     DataSources := [boulder.Source (libs := demo_libs)];
     MatchCacher := None;
     DataSourceErrorBehavior := ErrorBehaviorCancel |}.

(** A search under [ErrorBehaviorCancel] whose data sources do not fail:
    the second one would return the cause of a cancelled context. *)
Definition quiet_search : Search (libs := demo_libs) :=
  {| DERFilter := None;
     Filter := Some (fun _ => true);
     MatchCallback := Some (fun _ => tt);
     DataSources :=
       [Send cert_A (Return None);
        Send cert_B (IfDone (fun e => Return (Some e))
                       (Send cert_A (Return None)))];
     MatchCacher := Some NewSha256MapCacher;
     DataSourceErrorBehavior := ErrorBehaviorCancel |}.

Definition quiet_labels : list label :=
  [l_send 1; l_send 0; l_recv; l_look 1; l_return 0; l_recv; l_send 1;
   l_return 1; l_recv; l_close; l_closed].

Definition bang : error := errors_New "bang".

(** A search under [ErrorBehaviorCancel] whose two data sources fail, with
    different errors. *)
Definition race_search : Search (libs := demo_libs) :=
  {| DERFilter := None;
     Filter := Some (fun _ => true);
     MatchCallback := Some (fun _ => tt);
     DataSources := [Return (Some boom); Return (Some bang)];
     MatchCacher := None;
     DataSourceErrorBehavior := ErrorBehaviorCancel |}.

(** The first goroutine writes its report, the second one writes its report
    and cancels the context, the first one calls [cancel] in its turn, and
    the loop finds the context done. *)
Definition race_labels : list label :=
  [l_report 0; l_report 1; l_cancel 1; l_cancel 0; l_done].

(** ** A Bloom filter *)

(** A Bloom filter without false negatives: [holds f data] says that [data]
    was added to [f]; what was added is reported present, and stays
    added. *)
Definition no_false_negatives {libs : Libs}
    (holds : BloomFilter -> bytes -> Prop) : Prop :=
  forall f data,
    (holds f data -> fst (TestOrAdd f data) = true)
    /\ holds (snd (TestOrAdd f data)) data
    /\ (forall d, holds f d -> holds (snd (TestOrAdd f data)) d).

(** Certificates that are their own DER bytes, with a Bloom filter that is
    the list of what was added to it (each byte as a number). *)
Definition bloom_libs : Libs :=
  {| Certificate := bytes;
     Raw := fun cert => cert;
     ParseCertificate := fun der =>
       match der with
       | [] => inr (errors_New "x509: malformed certificate")
       | _ :: _ => inl der
       end;
     ParseCertificate_Raw := fun der cert =>
       match der with
       | [] => fun H => match H with end
       | b :: der' => fun H => match H with eq_refl => eq_refl end
       end;
     Digest := list N;
     Sum256 := fun data => Byte.to_N <$> data;
     BloomFilter := list (list N);
     TestOrAdd := fun filter data =>
       (bool_decide ((Byte.to_N <$> data) ∈ filter),
        (Byte.to_N <$> data) :: filter) |}.

(** A search that de-duplicates with a [BloomCacher], over an empty
    filter. *)
Definition bloom_search : Search (libs := bloom_libs) :=
  {| DERFilter := None;
     Filter := Some (fun _ => true);
     MatchCallback := Some (fun _ => tt);
     DataSources := [Return None];
     MatchCacher := Some (BloomCacher (libs := bloom_libs) []);
     DataSourceErrorBehavior := ErrorBehaviorCancel |}.

End SearchNotions.

Import staticctapi.
Import Spec.

(* ================================================================== *)
(** * Properties of retry.go *)
(* ================================================================== *)

Lemma Validate_None_iff (r : Retry) :
  Validate r = None <-> ~ retry_rejected r.
Proof.
  unfold Validate, retry_rejected.
  destruct (Z.ltb_spec (MaxAttempts r) 1); [split; [discriminate | lia] |].
  destruct (Z.leb_spec (MaxInterval r) 0); [split; [discriminate | lia] |].
  destruct (Z.leb_spec (Timeout r) 0); [split; [discriminate | lia] |].
  destruct (Z.leb_spec (Timeout r) (MaxInterval r));
    [split; [discriminate | lia] |].
  split; [lia | reflexivity].
Qed.

(** C8. [Retry.Validate] returns an error if and only if [MaxAttempts < 1],
    [MaxInterval <= 0], [Timeout <= 0] or [Timeout <= MaxInterval]; a policy
    with none of these is accepted ([nil]). *)
Theorem Validate_error_iff (r : Retry) :
  (is_err (Validate r) = true <-> retry_rejected r)
  /\ (Validate r = None <-> ~ retry_rejected r).
Proof.
  split; [| apply Validate_None_iff].
  pose proof (Validate_None_iff r) as HN.
  destruct (Validate r) as [e|]; simpl.
  - split; [intros _ | reflexivity].
    destruct (decide (retry_rejected r)) as [Hr|Hr]; [exact Hr |].
    apply HN in Hr. discriminate.
  - split; [discriminate |]. intros Hr. exfalso. apply HN; [reflexivity | exact Hr].
Qed.

(** The zero value of [Retry] does not pass validation, and the default
    policy does. *)
Lemma Validate_zeroRetry : Validate zeroRetry <> None.
Proof. discriminate. Qed.

Lemma Validate_DefaultTileRetry : Validate DefaultTileRetry = None.
Proof. reflexivity. Qed.

(** C9. [GetTileEntriesWithBackoff] retries [GetTileEntries] under the log's
    [TileRetry] when that policy passes validation, and otherwise (an invalid
    policy, or the zero value of an unset one) under the default policy: 5
    attempts (4 retries), at most 1 second between them, 5 seconds overall. *)
Theorem GetTileEntriesWithBackoff_policy {net : Net} (l : Log) (ctx : Ctx)
    (tileIndex : Z) (w : World) :
  GetTileEntriesWithBackoff l ctx tileIndex w
  = RetryWithData
      (createBackoff
         (if decide (retry_rejected (TileRetry l)) then DefaultTileRetry
          else TileRetry l))
      ctx (GetTileEntries l ctx tileIndex) w
  /\ DefaultTileRetry = mkRetry 5 1000000000 5000000000
  /\ createBackoff DefaultTileRetry = mkBackOff 5000000000 1000000000 4
  /\ retry_rejected zeroRetry.
Proof.
  split; [| split; [reflexivity | split; [reflexivity |]]].
  - unfold GetTileEntriesWithBackoff.
    destruct (decide (retry_rejected (TileRetry l))) as [Hr|Hr].
    + rewrite bool_decide_eq_false_2; [reflexivity |].
      intros HV. apply Validate_None_iff in HV. exact (HV Hr).
    + rewrite bool_decide_eq_true_2; [reflexivity |].
      apply Validate_None_iff. exact Hr.
  - unfold retry_rejected. simpl. lia.
Qed.

(* ================================================================== *)
(** * Properties of decimal printing and parsing *)
(* ================================================================== *)

Lemma app_String (c : ascii) (s t : string) :
  String c s +:+ t = String c (s +:+ t).
Proof. reflexivity. Qed.

Lemma app_empty_l (s : string) : "" +:+ s = s.
Proof. reflexivity. Qed.

Lemma app_empty_r (s : string) : s +:+ "" = s.
Proof. induction s as [|c s IH]; [reflexivity |]. rewrite app_String, IH. reflexivity. Qed.

Lemma app_assoc_str (s t u : string) : (s +:+ t) +:+ u = s +:+ (t +:+ u).
Proof.
  induction s as [|c s IH]; [reflexivity |].
  rewrite !app_String, IH. reflexivity.
Qed.

Lemma length_app_str (s t : string) :
  String.length (s +:+ t) = (String.length s + String.length t)%nat.
Proof.
  induction s as [|c s IH]; [reflexivity |].
  rewrite app_String. simpl. rewrite IH. reflexivity.
Qed.

Import strconv.

(** With fuel for every binary digit, the digit loop does not depend on its
    fuel. *)
Lemma FormatUint_go_fuel (f1 f2 : nat) (n : Z) (acc : string) :
  (1 <= f1)%nat -> (1 <= f2)%nat ->
  n < 2 ^ Z.of_nat f1 -> n < 2 ^ Z.of_nat f2 ->
  FormatUint_go f1 n acc = FormatUint_go f2 n acc.
Proof.
  revert f2 n acc. induction f1 as [|f1 IH]; intros f2 n acc H1 H2 Hn1 Hn2; [lia |].
  destruct f2 as [|f2]; [lia |]. cbn [FormatUint_go].
  destruct (Z.ltb_spec n 10) as [|Hge]; [reflexivity |].
  rewrite !Nat2Z.inj_succ, !Z.pow_succ_r in * by lia.
  assert (1 <= n / 10) by (apply Z.div_le_lower_bound; lia).
  assert (n / 10 < 2 ^ Z.of_nat f1) by (apply Z.div_lt_upper_bound; lia).
  assert (n / 10 < 2 ^ Z.of_nat f2) by (apply Z.div_lt_upper_bound; lia).
  apply IH; try assumption.
  - destruct f1; [change (2 ^ Z.of_nat 0) with 1 in *; lia | lia].
  - destruct f2; [change (2 ^ Z.of_nat 0) with 1 in *; lia | lia].
Qed.

Lemma bits_bound (n : Z) : Z.abs n < 2 ^ Z.of_nat (bits n).
Proof.
  unfold bits. rewrite Nat2Z.inj_succ, Z2Nat.id by apply Z.log2_nonneg.
  destruct (Z.eq_dec (Z.abs n) 0) as [->|Hne]; [reflexivity |].
  apply Z.log2_spec. lia.
Qed.

Lemma FormatUint_go_bits (f : nat) (n : Z) (acc : string) :
  (1 <= f)%nat -> n < 2 ^ Z.of_nat f ->
  FormatUint_go f n acc = FormatUint_go (bits n) n acc.
Proof.
  intros Hf Hn. apply FormatUint_go_fuel; [exact Hf | unfold bits; lia | exact Hn |].
  pose proof (bits_bound n). lia.
Qed.

Lemma FormatUint_go_unfold (n : Z) (acc : string) :
  FormatUint_go (bits n) n acc =
  if Z_lt_dec n 10 then String (digit_char n) acc
  else FormatUint_go (bits (n / 10)) (n / 10)
         (String (digit_char (n mod 10)) acc).
Proof.
  pose proof (bits_bound n) as Hb. unfold bits in Hb. unfold bits at 1.
  cbn [FormatUint_go].
  destruct (Z.ltb_spec n 10) as [Hlt|Hge]; destruct (Z_lt_dec n 10); try lia;
    [reflexivity |].
  rewrite Nat2Z.inj_succ, Z.pow_succ_r in Hb by lia.
  assert (1 <= n / 10) by (apply Z.div_le_lower_bound; lia).
  assert (n / 10 < 2 ^ Z.of_nat (Z.to_nat (Z.log2 (Z.abs n))))
    by (apply Z.div_lt_upper_bound; lia).
  apply FormatUint_go_bits; [| assumption].
  destruct (Z.to_nat (Z.log2 (Z.abs n))); [change (2 ^ Z.of_nat 0) with 1 in *; lia | lia].
Qed.

(** The accumulator of the digit loop is a suffix of its result. *)
Lemma FormatUint_go_app (n : Z) (acc : string) :
  FormatUint_go (bits n) n acc = FormatUint n +:+ acc.
Proof.
  unfold FormatUint.
  destruct (Z_lt_dec n 0) as [Hneg|Hpos].
  { rewrite (FormatUint_go_unfold n acc), (FormatUint_go_unfold n "").
    destruct (Z_lt_dec n 10); [reflexivity | lia]. }
  revert acc. pattern n. apply Z_lt_induction; [| lia].
  clear n Hpos. intros n IH acc.
  rewrite (FormatUint_go_unfold n acc), (FormatUint_go_unfold n "").
  destruct (Z_lt_dec n 10) as [Hlt|Hge]; [reflexivity |].
  assert (0 <= n / 10 < n) as Hd.
  { split; [apply Z.div_pos; lia | apply Z.div_lt; lia]. }
  rewrite (IH (n / 10) Hd (String _ acc)), (IH (n / 10) Hd (String _ "")).
  rewrite app_assoc_str. reflexivity.
Qed.

Lemma FormatUint_small (n : Z) :
  n < 10 -> FormatUint n = String (digit_char n) "".
Proof.
  intros Hn. unfold FormatUint. rewrite FormatUint_go_unfold.
  destruct (Z_lt_dec n 10); [reflexivity | lia].
Qed.

Lemma FormatUint_step (n : Z) :
  10 <= n ->
  FormatUint n = FormatUint (n / 10) +:+ String (digit_char (n mod 10)) "".
Proof.
  intros Hn. unfold FormatUint at 1. rewrite FormatUint_go_unfold.
  destruct (Z_lt_dec n 10); [lia |]. apply FormatUint_go_app.
Qed.

Lemma digit_val_char (d : Z) : 0 <= d < 10 -> digit_val (digit_char d) = Some d.
Proof.
  intros Hd.
  assert (d = 0 \/ d = 1 \/ d = 2 \/ d = 3 \/ d = 4 \/ d = 5 \/ d = 6
          \/ d = 7 \/ d = 8 \/ d = 9) as Hc by lia.
  repeat (destruct Hc as [-> | Hc]; [reflexivity |]). subst d. reflexivity.
Qed.

(** Reading a digit byte back: it is the byte [digit_char] prints. *)
Lemma digit_char_val (c : ascii) (d : Z) :
  digit_val c = Some d -> 0 <= d < 10 /\ digit_char d = c.
Proof.
  destruct c as [[] [] [] [] [] [] [] []]; vm_compute; intros Hd;
    try discriminate; injection Hd as <-; repeat split; discriminate.
Qed.

(* ================================================================== *)
(** * Properties of tile paths *)
(* ================================================================== *)

Lemma Sprintf_03d_three_digits (g : Z) :
  0 <= g < 1000 -> fmt.Sprintf_03d g = three_digits g.
Proof.
  intros Hg. unfold fmt.Sprintf_03d, three_digits.
  destruct (Z.ltb_spec g 0) as [|_]; [lia |].
  rewrite Z.abs_eq by lia.
  destruct (Z_lt_dec g 10) as [H10|H10].
  { rewrite FormatUint_small by lia. simpl.
    rewrite (Z.div_small g 100), (Z.div_small g 10), (Z.mod_small g 10) by lia.
    reflexivity. }
  rewrite (FormatUint_step g) by lia.
  destruct (Z_lt_dec g 100) as [H100|H100].
  { rewrite (FormatUint_small (g / 10)) by (apply Z.div_lt_upper_bound; lia).
    rewrite app_String, app_empty_l. simpl.
    rewrite (Z.div_small g 100) by lia.
    rewrite (Z.mod_small (g / 10) 10);
      [reflexivity | split; [apply Z.div_pos; lia | apply Z.div_lt_upper_bound; lia]]. }
  assert (10 <= g / 10 < 100) as Hq.
  { split; [apply Z.div_le_lower_bound; lia | apply Z.div_lt_upper_bound; lia]. }
  rewrite (FormatUint_step (g / 10)) by lia.
  rewrite (FormatUint_small (g / 10 / 10)) by (apply Z.div_lt_upper_bound; lia).
  rewrite !app_String, !app_empty_l. simpl.
  rewrite Z.div_div by lia. reflexivity.
Qed.

Lemma digits3_three_digits (g : Z) :
  0 <= g < 1000 ->
  exists a b c, three_digits g = String a (String b (String c ""))
                /\ digits3 a b c = Some g.
Proof.
  intros Hg. eexists _, _, _. split; [reflexivity |].
  unfold digits3.
  assert (0 <= g / 100 < 10) as H1.
  { split; [apply Z.div_pos; lia | apply Z.div_lt_upper_bound; lia]. }
  pose proof (Z.mod_pos_bound (g / 10) 10 ltac:(lia)) as H2.
  pose proof (Z.mod_pos_bound g 10 ltac:(lia)) as H3.
  rewrite !digit_val_char by assumption. f_equal.
  pose proof (Z.div_mod g 10 ltac:(lia)).
  pose proof (Z.div_mod (g / 10) 10 ltac:(lia)).
  assert (g / 10 / 10 = g / 100) by (rewrite Z.div_div by lia; reflexivity).
  lia.
Qed.

Lemma join_app (xs ys : list string) : join (xs ++ ys) = join xs +:+ join ys.
Proof.
  induction xs as [|x xs IH]; [reflexivity |].
  simpl. rewrite IH, app_assoc_str. reflexivity.
Qed.

(** The loop of [TilePathFromIndex] puts one [xDDD/] segment in front of the
    path for each group of three digits of a non-negative remainder, and
    with fuel for every binary digit it ends because the remainder is
    zero. *)
Lemma TilePathFromIndex_loop_spec (fuel : nat) (remainder : Z) :
  0 <= remainder < 2 ^ Z.of_nat fuel ->
  forall path, exists gs,
    base1000 remainder gs
    /\ TilePathFromIndex_loop fuel path remainder
       = join (x_segment <$> gs) +:+ path.
Proof.
  revert remainder. induction fuel as [|fuel IH]; intros r Hr path.
  { change (2 ^ Z.of_nat 0) with 1 in Hr. assert (r = 0) as -> by lia.
    exists []. split; [constructor | reflexivity]. }
  cbn [TilePathFromIndex_loop].
  destruct (decide (r = 0)) as [->|Hne].
  { exists []. split; [constructor | reflexivity]. }
  rewrite bool_decide_eq_true_2 by exact Hne.
  rewrite Z.quot_div_nonneg, Z.rem_mod_nonneg by lia.
  rewrite Nat2Z.inj_succ, Z.pow_succ_r in Hr by lia.
  assert (0 <= r / 1000 < 2 ^ Z.of_nat fuel) as Hd.
  { split; [apply Z.div_pos; lia | apply Z.div_lt_upper_bound; lia]. }
  destruct (IH (r / 1000) Hd
              ("x" +:+ fmt.Sprintf_03d (r mod 1000) +:+ "/" +:+ path))
    as (gs & Hgs & Heq).
  exists (gs ++ [r mod 1000]). split; [constructor; assumption |].
  rewrite Heq, fmap_app, join_app, app_assoc_str. f_equal.
  rewrite Sprintf_03d_three_digits by (apply Z.mod_pos_bound; lia).
  cbn [fmap list_fmap join fold_right]. unfold x_segment.
  rewrite app_empty_r, !app_assoc_str. reflexivity.
Qed.

Lemma base1000_value (r : Z) (gs : list Z) :
  base1000 r gs ->
  0 <= r ->
  fold_left (fun acc g => acc * 1000 + g) gs 0 = r
  /\ Forall (fun g => 0 <= g < 1000) gs.
Proof.
  induction 1 as [|r gs Hne Hb IH]; intros Hr; [split; [reflexivity | constructor] |].
  destruct IH as [Hv Hf]; [apply Z.div_pos; lia |].
  split.
  - rewrite fold_left_app, Hv. simpl.
    pose proof (Z.div_mod r 1000 ltac:(lia)). lia.
  - apply Forall_app. split; [exact Hf |].
    constructor; [apply Z.mod_pos_bound; lia | constructor].
Qed.

Lemma IndexFromTilePath_go_segments (gs : list Z) (acc : Z) (rest : string) :
  Forall (fun g => 0 <= g < 1000) gs ->
  IndexFromTilePath_go acc (join (x_segment <$> gs) +:+ rest)
  = IndexFromTilePath_go (fold_left (fun acc g => acc * 1000 + g) gs acc) rest.
Proof.
  intros Hf. revert acc.
  induction Hf as [|g gs Hg Hf IH]; intros acc; [reflexivity |].
  cbn [fmap list_fmap join fold_right fold_left].
  destruct (digits3_three_digits g Hg) as (a & b & c & Hd & Hv).
  rewrite <- IH. fold (join (x_segment <$> gs)).
  remember (join (x_segment <$> gs) +:+ rest) as tail eqn:Htail.
  change (x_segment g) with ("x" +:+ three_digits g +:+ "/").
  rewrite Hd, !app_assoc_str, !app_String, !app_empty_l, <- Htail.
  cbn [IndexFromTilePath_go].
  rewrite !bool_decide_eq_true_2 by reflexivity. cbn [andb].
  rewrite Hv. reflexivity.
Qed.

(** C5. For every non-negative tile index [I], [TilePathFromIndex I] is the
    three least significant decimal digits of [I], zero-padded, after one
    [xDDD/] segment for each higher group of three decimal digits (most
    significant first, none once the remainder is zero); decoding the path
    yields [I] again; and 0, 1000 and 1000000 give [000], [x001/000] and
    [x001/x000/000]. *)
Theorem TilePathFromIndex_roundtrip (I : Z) :
  0 <= I ->
  (exists gs,
      base1000 (I / 1000) gs
      /\ TilePathFromIndex I
         = join (x_segment <$> gs) +:+ three_digits (I mod 1000))
  /\ IndexFromTilePath (TilePathFromIndex I) = Some I
  /\ TilePathFromIndex 0 = "000"
  /\ TilePathFromIndex 1000 = "x001/000"
  /\ TilePathFromIndex 1000000 = "x001/x000/000".
Proof.
  intros HI.
  assert (exists gs,
      base1000 (I / 1000) gs
      /\ TilePathFromIndex I
         = join (x_segment <$> gs) +:+ three_digits (I mod 1000)) as Hshape.
  { unfold TilePathFromIndex.
    rewrite Z.quot_div_nonneg, Z.rem_mod_nonneg by lia.
    assert (0 <= I / 1000) as Hq by (apply Z.div_pos; lia).
    pose proof (bits_bound (I / 1000)) as Hb. rewrite Z.abs_eq in Hb by exact Hq.
    destruct (TilePathFromIndex_loop_spec (bits (I / 1000)) (I / 1000)
                (conj Hq Hb) (fmt.Sprintf_03d (I mod 1000)))
      as (gs & Hgs & Heq).
    exists gs. split; [exact Hgs |].
    rewrite Heq, Sprintf_03d_three_digits by (apply Z.mod_pos_bound; lia).
    reflexivity. }
  split; [exact Hshape |].
  split; [| repeat split; reflexivity].
  destruct Hshape as (gs & Hgs & ->).
  destruct (base1000_value _ _ Hgs ltac:(apply Z.div_pos; lia)) as [Hv Hf].
  unfold IndexFromTilePath.
  rewrite IndexFromTilePath_go_segments by exact Hf. rewrite Hv.
  destruct (digits3_three_digits (I mod 1000)
              ltac:(apply Z.mod_pos_bound; lia)) as (a & b & c & -> & Hd).
  cbn [IndexFromTilePath_go]. rewrite Hd. f_equal.
  pose proof (Z.div_mod I 1000 ltac:(lia)). lia.
Qed.

Lemma TilePathFromIndex_roundtrip_witness :
  0 <= 1234567
  /\ TilePathFromIndex 1234567 = "x001/x234/567"
  /\ IndexFromTilePath (TilePathFromIndex 1234567) = Some 1234567.
Proof.
  assert (0 <= 1234567) as Hpos by lia.
  split; [exact Hpos |]. split; [reflexivity |].
  exact (proj1 (proj2 (TilePathFromIndex_roundtrip 1234567 Hpos))).
Defined.

(* ================================================================== *)
(** * Properties of checkpoints *)
(* ================================================================== *)

Lemma digit_val_range (c : ascii) (d : Z) :
  digit_val c = Some d -> 0 <= d < 10.
Proof. intros Hd. apply (digit_char_val c d Hd). Qed.

Lemma digits_value_app (acc : Z) (s t : string) :
  digits_value acc (s +:+ t)
  = match digits_value acc s with
    | Some v => digits_value v t
    | None => None
    end.
Proof.
  revert acc. induction s as [|c s IH]; intros acc; [reflexivity |].
  rewrite app_String. simpl. destruct (digit_val c); [apply IH | reflexivity].
Qed.

Lemma digits_value_ge (s : string) (acc n : Z) :
  0 <= acc -> digits_value acc s = Some n -> acc <= n.
Proof.
  revert acc. induction s as [|c s IH]; simpl; intros acc Hacc Hv.
  - injection Hv as <-. lia.
  - destruct (digit_val c) as [d|] eqn:Hd; [| discriminate].
    apply digit_val_range in Hd. apply IH in Hv; lia.
Qed.

(** The digit loop of [ParseUint] computes the value of a digit string, or
    reports that it leaves [uint64]. *)
Lemma ParseUint_loop_digits (s : string) (acc n : Z) :
  0 <= acc <= maxUint64 ->
  digits_value acc s = Some n ->
  ParseUint_loop acc s
  = if n <=? maxUint64 then (n, None) else (maxUint64, Some ErrRange).
Proof.
  revert acc. induction s as [|c s IH]; simpl; intros acc Hacc Hv.
  - injection Hv as <-.
    destruct (Z.leb_spec acc maxUint64); [reflexivity | lia].
  - destruct (digit_val c) as [d|] eqn:Hd; [| discriminate].
    apply digit_val_range in Hd.
    destruct (Z.ltb_spec maxUint64 (acc * 10 + d)) as [Hover|Hin].
    + apply digits_value_ge in Hv; [| lia].
      destruct (Z.leb_spec n maxUint64); [lia | reflexivity].
    + apply IH; [lia | exact Hv].
Qed.

(** A string with a byte that is no digit is refused. *)
Lemma ParseUint_loop_not_digits (s : string) (acc : Z) :
  digits_value acc s = None -> snd (ParseUint_loop acc s) <> None.
Proof.
  revert acc. induction s as [|c s IH]; simpl; intros acc Hv; [discriminate |].
  destruct (digit_val c) as [d|]; [| simpl; discriminate].
  destruct (maxUint64 <? acc * 10 + d); [simpl; discriminate | apply IH, Hv].
Qed.

Lemma first_digit_no_sign (c : ascii) (d : Z) :
  digit_val c = Some d ->
  Stdlib.Strings.Ascii.eqb c "+" = false
  /\ Stdlib.Strings.Ascii.eqb c "-" = false.
Proof.
  intros Hd. split.
  - destruct (Stdlib.Strings.Ascii.eqb_spec c "+"%char) as [->|]; [discriminate | reflexivity].
  - destruct (Stdlib.Strings.Ascii.eqb_spec c "-"%char) as [->|]; [discriminate | reflexivity].
Qed.

(** [ParseInt] on a string of digits: its value, or a range error beyond
    [int64]. *)
Lemma ParseInt_digits (s : string) (n : Z) :
  s <> "" ->
  digits_value 0 s = Some n ->
  ParseInt s
  = if n <=? maxInt64 then (n, None) else (maxInt64, Some ErrRange).
Proof.
  intros Hne Hv. destruct s as [|c s]; [congruence |].
  unfold ParseInt.
  assert (exists d, digit_val c = Some d) as [d Hd].
  { simpl in Hv. destruct (digit_val c); [eauto | discriminate]. }
  destruct (first_digit_no_sign c d Hd) as [-> ->].
  unfold ParseUint. rewrite (ParseUint_loop_digits _ 0 n) by (unfold maxUint64; lia || exact Hv).
  unfold maxUint64, maxInt64.
  destruct (Z.leb_spec n (2 ^ 64 - 1)); cbn [negb andb].
  - destruct (Z.leb_spec (2 ^ 63) n); destruct (Z.leb_spec n (2 ^ 63 - 1));
      try lia; reflexivity.
  - destruct (Z.leb_spec n (2 ^ 63 - 1)); [lia | reflexivity].
Qed.

Lemma digit_char_zero (d : Z) : 0 <= d < 10 -> digit_char d = "0"%char -> d = 0.
Proof.
  intros Hd Hc.
  pose proof (digit_val_char d Hd) as Hv. rewrite Hc in Hv.
  injection Hv as <-. reflexivity.
Qed.

(** The first byte of the decimal of a positive number is not a zero. *)
Lemma FormatUint_no_leading_zero (n : Z) :
  1 <= n -> forall s', FormatUint n <> String "0" s'.
Proof.
  intros Hn. generalize Hn. pattern n.
  apply Z_lt_induction; [| lia]. clear n Hn. intros n IH Hn s'.
  destruct (Z_lt_dec n 10) as [Hlt|Hge].
  - rewrite FormatUint_small by exact Hlt. intros Heq.
    injection Heq as Hc _. apply digit_char_zero in Hc; lia.
  - rewrite FormatUint_step by lia.
    assert (1 <= n / 10 < n) as Hd.
    { split; [apply Z.div_le_lower_bound; lia | apply Z.div_lt; lia]. }
    destruct (FormatUint (n / 10)) as [|c r] eqn:Hf.
    + exfalso. revert Hf.
      destruct (Z_lt_dec (n / 10) 10).
      * rewrite FormatUint_small by assumption. discriminate.
      * rewrite FormatUint_step by lia.
        destruct (FormatUint (n / 10 / 10)); discriminate.
    + rewrite app_String. intros Heq. injection Heq as -> _.
      apply (IH (n / 10) ltac:(lia) ltac:(lia) r). exact Hf.
Qed.

Lemma digits_value_FormatUint (n : Z) :
  0 <= n -> digits_value 0 (FormatUint n) = Some n.
Proof.
  intros Hn. generalize Hn. pattern n.
  apply Z_lt_induction; [| lia]. clear n Hn. intros n IH Hn.
  destruct (Z_lt_dec n 10) as [Hlt|Hge].
  - rewrite FormatUint_small by exact Hlt. cbn [digits_value].
    rewrite digit_val_char by lia. reflexivity.
  - rewrite FormatUint_step by lia.
    assert (0 <= n / 10 < n) as Hd.
    { split; [apply Z.div_pos; lia | apply Z.div_lt; lia]. }
    rewrite digits_value_app, (IH (n / 10)) by lia. cbn [digits_value].
    rewrite digit_val_char by (apply Z.mod_pos_bound; lia). f_equal.
    pose proof (Z.div_mod n 10 ltac:(lia)). lia.
Qed.

Lemma FormatUint_nonempty (n : Z) : FormatUint n <> "".
Proof.
  destruct (Z_lt_dec n 10).
  - rewrite FormatUint_small by assumption. discriminate.
  - rewrite FormatUint_step by lia. destruct (FormatUint (n / 10)); discriminate.
Qed.

(** What [FormatInt] prints for a non-negative number is its canonical
    decimal. *)
Lemma FormatUint_canonical (n : Z) :
  0 <= n -> canonical_decimal (FormatUint n) n.
Proof.
  intros Hn. split; [apply FormatUint_nonempty |].
  split; [apply digits_value_FormatUint, Hn |].
  destruct (Z.eq_dec n 0) as [->|Hne]; [left; reflexivity |].
  right. apply FormatUint_no_leading_zero. lia.
Qed.

(** Induction on a string from its last byte. *)
Lemma string_snoc_ind (P : string -> Prop) :
  P "" ->
  (forall s c, P s -> P (s +:+ String c "")) ->
  forall s, P s.
Proof.
  intros Hnil Hsnoc s.
  assert (forall k s, String.length s = k -> P s) as Hlen;
    [| exact (Hlen _ s eq_refl)].
  clear s. induction k as [|k IH]; intros s Hs.
  - destruct s; [exact Hnil | discriminate].
  - assert (exists s' c, s = s' +:+ String c "") as (s' & c & ->).
    { clear IH. revert k Hs. induction s as [|a s IHs]; intros k Hs; [discriminate |].
      destruct s as [|b s].
      - exists "", a. reflexivity.
      - destruct k as [|k]; [discriminate |].
        destruct (IHs k ltac:(simpl in *; lia)) as (s' & c & Heq).
        exists (String a s'), c. rewrite app_String, <- Heq. reflexivity. }
    apply Hsnoc, IH.
    rewrite length_app_str in Hs. simpl in Hs. lia.
Qed.

(** A canonical decimal is what [FormatUint] prints for its value. *)
Lemma canonical_FormatUint (s : string) (n : Z) :
  canonical_decimal s n -> FormatUint n = s.
Proof.
  revert n. induction s as [|s c IH] using string_snoc_ind; intros n (Hne & Hv & Hlead).
  { congruence. }
  rewrite digits_value_app in Hv.
  destruct (digits_value 0 s) as [v|] eqn:Hvs; [| discriminate].
  cbn [digits_value] in Hv.
  destruct (digit_val c) as [d|] eqn:Hd; [| discriminate].
  injection Hv as <-.
  destruct (digit_char_val c d Hd) as [Hrange Hchar].
  destruct s as [|a s].
  - cbn [digits_value] in Hvs. injection Hvs as <-. rewrite app_empty_l.
    rewrite FormatUint_small by lia. rewrite Z.mul_0_l, Z.add_0_l, Hchar. reflexivity.
  - assert (canonical_decimal (String a s) v) as Hcan.
    { split; [discriminate |]. split; [exact Hvs |]. right.
      intros s' Heq. destruct Hlead as [H0|Hlead].
      - rewrite app_String in H0. injection H0 as _ H0.
        destruct s; discriminate.
      - apply (Hlead (s' +:+ String c "")). rewrite Heq. reflexivity. }
    pose proof (IH v Hcan) as Hfmt.
    assert (0 <= v) as Hv0 by (apply (digits_value_ge _ 0 v) in Hvs; lia).
    assert (v <> 0) as Hv1.
    { intros ->. destruct Hcan as (_ & _ & [H0|Hl]).
      - rewrite H0, app_String in Hlead. destruct Hlead as [Hl|Hl]; [discriminate |].
        apply (Hl ("" +:+ String c "")). reflexivity.
      - apply (Hl ""). rewrite <- Hfmt. reflexivity. }
    rewrite FormatUint_step by lia.
    replace ((v * 10 + d) / 10) with v by (apply Z.div_unique with d; lia).
    replace ((v * 10 + d) mod 10) with d by (apply Z.mod_unique with v; lia).
    rewrite Hfmt, Hchar. reflexivity.
Qed.

(** Line 2 passes the three tests of [TreeSizeFromCheckpoint] with value [n]
    exactly when it is the canonical decimal of [n] and [n] fits [int64]. *)
Lemma tree_size_tests (s : string) (n : Z) :
  (ParseInt s = (n, None) /\ 0 <= n /\ s = FormatInt n)
  <-> (canonical_decimal s n /\ n <= maxInt64).
Proof.
  split.
  - intros (Hp & Hn & ->). unfold FormatInt in *.
    destruct (Z.ltb_spec n 0); [lia |].
    pose proof (FormatUint_canonical n Hn) as Hcan.
    split; [exact Hcan |].
    destruct Hcan as (Hne & Hv & _).
    rewrite (ParseInt_digits _ n Hne Hv) in Hp.
    destruct (Z.leb_spec n maxInt64); [lia | discriminate].
  - intros [Hcan Hmax]. pose proof Hcan as (Hne & Hv & _).
    assert (0 <= n) as Hn by (apply (digits_value_ge _ 0 n) in Hv; lia).
    rewrite (ParseInt_digits _ n Hne Hv).
    destruct (Z.leb_spec n maxInt64); [| lia].
    split; [reflexivity |]. split; [exact Hn |].
    unfold FormatInt. destruct (Z.ltb_spec n 0); [lia |].
    symmetry. apply canonical_FormatUint, Hcan.
Qed.

Lemma Count_nonneg (text : string) (c : ascii) : 0 <= strings.Count text c.
Proof.
  induction text as [|a text IH]; simpl; [lia |].
  destruct (decide (a = c)); lia.
Qed.

Lemma cut_lines (text : string) :
  1 <= strings.Count text newline ->
  strings.cut text newline = Some (first_line text, drop_line text)
  /\ strings.Count (drop_line text) newline = strings.Count text newline - 1.
Proof.
  induction text as [|a text IH]; simpl; [lia |].
  destruct (decide (a = newline)) as [->|Hne]; intros Hc.
  - split; [reflexivity | lia].
  - destruct (IH ltac:(lia)) as [-> ->]. split; [reflexivity | lia].
Qed.

(** The pieces of [strings.SplitN(text, "\n", 4)] are the first three lines
    and the rest. *)
Lemma SplitN_lines (text : string) :
  3 <= strings.Count text newline ->
  strings.SplitN text newline 4
  = [line 1 text; line 2 text; line 3 text;
     drop_line (drop_line (drop_line text))].
Proof.
  intros Hc. unfold line. cbn [Nat.iter Nat.sub nat_rect].
  destruct (cut_lines text ltac:(lia)) as [Hcut1 Hc1].
  destruct (cut_lines (drop_line text) ltac:(lia)) as [Hcut2 Hc2].
  destruct (cut_lines (drop_line (drop_line text)) ltac:(lia)) as [Hcut3 _].
  cbn [strings.SplitN]. rewrite Hcut1, Hcut2, Hcut3. reflexivity.
Qed.

Lemma TreeSizeFromCheckpoint_eq (text : string) (n : Z) :
  TreeSizeFromCheckpoint text = (n, None) <-> accepted_checkpoint text n.
Proof.
  unfold TreeSizeFromCheckpoint, accepted_checkpoint.
  destruct (Z.ltb_spec (strings.Count text newline) 3) as [Hc|Hc];
    [cbn [orb]; split; [discriminate | lia] |].
  destruct (Z.ltb_spec 1000000 (len text)) as [Hl|Hl];
    [cbn [orb]; split; [discriminate | lia] |].
  cbn [orb]. rewrite (SplitN_lines text Hc).
  change ([line 1 text; line 2 text; line 3 text;
           drop_line (drop_line (drop_line text))] !!! 1%nat)
    with (line 2 text).
  change ([line 1 text; line 2 text; line 3 text;
           drop_line (drop_line (drop_line text))] !!! 2%nat)
    with (line 3 text).
  pose proof (tree_size_tests (line 2 text)) as Hts.
  destruct (ParseInt (line 2 text)) as [treeSize err] eqn:Hp.
  destruct (bool_decide (err <> None) || (treeSize <? 0)
            || bool_decide (line 2 text <> FormatInt treeSize)) eqn:Htests.
  - split; [discriminate |]. intros (_ & _ & Hcan & Hmax & _).
    destruct (proj2 (Hts n) (conj Hcan Hmax)) as (Heq & Hn & Hfmt).
    injection Heq as -> ->.
    rewrite bool_decide_eq_false_2 in Htests by (intros Hf; apply Hf; reflexivity).
    rewrite bool_decide_eq_false_2 in Htests by (intros Hf; apply Hf; exact Hfmt).
    destruct (Z.ltb_spec n 0); [lia | discriminate].
  - apply orb_false_iff in Htests as [Htests Hfmt].
    apply orb_false_iff in Htests as [Herr Hneg].
    apply bool_decide_eq_false in Herr, Hfmt.
    assert (err = None) as -> by (destruct err; [exfalso; apply Herr; discriminate | reflexivity]).
    assert (line 2 text = FormatInt treeSize) as Hfmt'
      by (destruct (decide (line 2 text = FormatInt treeSize)); [assumption | contradiction]).
    apply Z.ltb_ge in Hneg.
    destruct (proj1 (Hts treeSize) (conj eq_refl (conj Hneg Hfmt'))) as [Hcan Hmax].
    destruct (base64.DecodeString (line 3 text)) as [hash|] eqn:Hdec.
    + destruct (bool_decide (length hash <> 32%nat)) eqn:Hlen.
      * apply bool_decide_eq_true in Hlen.
        split; [discriminate |]. intros (_ & _ & _ & _ & h & Hh & Hh32).
        injection Hh as <-. contradiction.
      * apply bool_decide_eq_false in Hlen.
        assert (length hash = 32%nat) as Hlen'
          by (destruct (decide (length hash = 32%nat)); [assumption | contradiction]).
        split.
        -- intros Heq. injection Heq as <-.
           repeat (split; [assumption || lia |]). exists hash. split; [reflexivity | exact Hlen'].
        -- intros (_ & _ & Hcan' & _ & _). f_equal.
           destruct Hcan as (_ & Hv & _). destruct Hcan' as (_ & Hv' & _).
           congruence.
    + split; [discriminate |]. intros (_ & _ & _ & _ & h & Hh & _). discriminate.
Qed.

(** Whatever fails, the returned size is -1 and the error is one of the
    three malformed-checkpoint errors. *)
Lemma TreeSizeFromCheckpoint_cases (text : string) :
  (exists n, TreeSizeFromCheckpoint text = (n, None))
  \/ (exists msg, TreeSizeFromCheckpoint text = (-1, Some (errors_New msg))).
Proof.
  unfold TreeSizeFromCheckpoint.
  destruct (_ || _); [right; eauto |].
  destruct (ParseInt _) as [treeSize err].
  destruct (_ || _); [right; eauto |].
  destruct (base64.DecodeString _) as [hash|]; [| right; eauto].
  destruct (bool_decide _); [right; eauto | left; eauto].
Qed.

(** C4 (amended). [TreeSizeFromCheckpoint] returns the tree size [n] of line
    2 exactly for the texts with at least three newlines, at most 1,000,000
    bytes, a line 2 that is the canonical decimal of [n] with [n] within
    [int64], and a line 3 that base64-decodes to exactly 32 bytes; every
    other text is rejected with size -1 and a malformed-checkpoint error. *)
Theorem TreeSizeFromCheckpoint_accepts_exactly (text : string) :
  (forall n,
      TreeSizeFromCheckpoint text = (n, None) <-> accepted_checkpoint text n)
  /\ ((exists n, accepted_checkpoint text n
                 /\ TreeSizeFromCheckpoint text = (n, None))
      \/ ((forall n, ~ accepted_checkpoint text n)
          /\ exists msg,
               TreeSizeFromCheckpoint text = (-1, Some (errors_New msg)))).
Proof.
  split; [intros n; apply TreeSizeFromCheckpoint_eq |].
  destruct (TreeSizeFromCheckpoint_cases text) as [[n Hn]|[msg Hmsg]].
  - left. exists n. split; [apply TreeSizeFromCheckpoint_eq, Hn | exact Hn].
  - right. split; [| eauto].
    intros n Hacc. apply TreeSizeFromCheckpoint_eq in Hacc. congruence.
Qed.

Lemma filler_succ (k : N) (c : ascii) (s : string) :
  filler (N.succ k) c s = String c (filler k c s).
Proof. unfold filler. apply N.iter_succ. Qed.

Lemma len_filler (k : N) (c : ascii) (s : string) :
  len (filler k c s) = Z.of_N k + len s.
Proof.
  induction k as [|k IH] using N.peano_ind; [reflexivity |].
  rewrite filler_succ. cbn [len]. rewrite IH. lia.
Qed.

Lemma Count_filler (k : N) (c : ascii) (s : string) :
  c <> newline ->
  strings.Count (filler k c s) newline = strings.Count s newline.
Proof.
  intros Hc. induction k as [|k IH] using N.peano_ind; [reflexivity |].
  rewrite filler_succ. cbn [strings.Count].
  destruct (decide (c = newline)); [contradiction | exact IH].
Qed.

Lemma drop_line_filler (k : N) (c : ascii) (s : string) :
  c <> newline -> drop_line (filler k c s) = drop_line s.
Proof.
  intros Hc. induction k as [|k IH] using N.peano_ind; [reflexivity |].
  rewrite filler_succ. cbn [drop_line].
  destruct (decide (c = newline)); [contradiction | exact IH].
Qed.

(** A padded checkpoint is well formed in every respect but, possibly, its
    size. *)
Lemma padded_checkpoint_shape (k : N) :
  strings.Count (padded_checkpoint k) newline = 3
  /\ len (padded_checkpoint k) = Z.of_N k + 48
  /\ canonical_decimal (line 2 (padded_checkpoint k)) 0
  /\ exists hash,
       base64.DecodeString (line 3 (padded_checkpoint k)) = Some hash
       /\ length hash = 32%nat.
Proof.
  assert ("a"%char <> newline) as Ha by discriminate.
  unfold padded_checkpoint, line. cbn [Nat.iter Nat.sub nat_rect].
  rewrite Count_filler, len_filler, !drop_line_filler by exact Ha.
  split; [reflexivity |]. split; [reflexivity |].
  split.
  - split; [discriminate |]. split; [reflexivity | left; reflexivity].
  - eexists. split; [vm_compute; reflexivity | reflexivity].
Qed.

(** C4, as stated, fails twice. A checkpoint of 1,000,001 bytes is no larger
    than 1 MiB and otherwise well formed, with tree size 0 on line 2; the
    code rejects it for its size. And a well-formed checkpoint whose line 2
    is the canonical decimal of [2^63] is rejected for its tree size, which
    [int64] cannot hold. *)
Lemma TreeSizeFromCheckpoint_counterexample :
  (claimed_checkpoint oversized_checkpoint 0
   /\ TreeSizeFromCheckpoint oversized_checkpoint
      = (-1, Some (errors_New "malformed checkpoint: incorrect size")))
  /\ (claimed_checkpoint beyond_int64_checkpoint (2 ^ 63)
      /\ TreeSizeFromCheckpoint beyond_int64_checkpoint
         = (-1, Some (errors_New "malformed checkpoint: invalid tree size"))).
Proof.
  split.
  - unfold oversized_checkpoint.
    destruct (padded_checkpoint_shape 999953) as (Hc & Hl & Hcan & Hhash).
    split.
    + split; [rewrite Hc; lia |]. split; [rewrite Hl; unfold MiB; lia |].
      split; assumption.
    + unfold TreeSizeFromCheckpoint. rewrite Hc, Hl. reflexivity.
  - split; [| vm_compute; reflexivity].
    split; [vm_compute; discriminate |].
    split; [vm_compute; discriminate |].
    split.
    + split; [discriminate |]. split; [vm_compute; reflexivity |].
      right. intros s' Heq. vm_compute in Heq. discriminate.
    + eexists. split; [vm_compute; reflexivity | reflexivity].
Qed.

(** With fuel for every binary digit of the remainder, negative or not, the
    loop of [TilePathFromIndex] does not depend on its fuel: it ends because
    the remainder has become zero. *)
Lemma TilePathFromIndex_loop_fuel (f1 f2 : nat) (path : string) (r : Z) :
  Z.abs r < 2 ^ Z.of_nat f1 -> Z.abs r < 2 ^ Z.of_nat f2 ->
  TilePathFromIndex_loop f1 path r = TilePathFromIndex_loop f2 path r.
Proof.
  revert f2 path r. induction f1 as [|f1 IH]; intros f2 path r H1 H2.
  - change (2 ^ Z.of_nat 0) with 1 in H1. assert (r = 0) as -> by lia.
    destruct f2; reflexivity.
  - destruct f2 as [|f2].
    + change (2 ^ Z.of_nat 0) with 1 in H2. assert (r = 0) as -> by lia.
      reflexivity.
    + cbn [TilePathFromIndex_loop].
      destruct (decide (r = 0)) as [->|Hne]; [reflexivity |].
      rewrite bool_decide_eq_true_2 by exact Hne.
      rewrite !Nat2Z.inj_succ, !Z.pow_succ_r in * by lia.
      assert (Z.abs (r ÷ 1000) <= Z.abs r ÷ 2) as Hq.
      { rewrite <- Z.quot_abs by lia. change (Z.abs 1000) with 1000.
        rewrite !Z.quot_div_nonneg by lia.
        apply Z.div_le_lower_bound; [lia |].
        pose proof (Z.div_mod (Z.abs r) 1000 ltac:(lia)).
        pose proof (Z.mod_pos_bound (Z.abs r) 1000 ltac:(lia)).
        pose proof (Z.div_pos (Z.abs r) 1000 ltac:(lia) ltac:(lia)). lia. }
      rewrite (Z.quot_div_nonneg (Z.abs r) 2) in Hq by lia.
      apply IH.
      * assert (Z.abs r / 2 < 2 ^ Z.of_nat f1) by (apply Z.div_lt_upper_bound; lia). lia.
      * assert (Z.abs r / 2 < 2 ^ Z.of_nat f2) by (apply Z.div_lt_upper_bound; lia). lia.
Qed.

(* ================================================================== *)
(** * Properties of tile fetching *)
(* ================================================================== *)

Section TileFacts.

Context {net : Net}.

Lemma read_records_length (k : nat) (data : bytes) es rest :
  read_records k data = Some (es, rest) -> length es = k.
Proof.
  revert data es rest. induction k as [|k IH]; simpl; intros data es rest Hr.
  - injection Hr as <- _. reflexivity.
  - destruct (ReadTileLeaf data) as [[e r]|]; [| discriminate].
    destruct (read_records k r) as [[es' r']|] eqn:Hk; [| discriminate].
    injection Hr as <- _. simpl. f_equal. eapply IH, Hk.
Qed.

(** The loop of [GetTileEntries] fills the slots from [entryIndex] on with
    the records it reads, in order. *)
Lemma readLeaves_records (n i : nat) (data : bytes) (entries : Entries)
    es rest :
  read_records n data = Some (es, rest) ->
  length entries = (i + n)%nat ->
  readLeaves n i data entries = (take i entries ++ (Some <$> es), None).
Proof.
  revert i data entries es rest.
  induction n as [|n IH]; simpl; intros i data entries es rest Hr Hlen.
  - injection Hr as <- _. simpl. rewrite app_nil_r, take_ge by lia. reflexivity.
  - destruct (ReadTileLeaf data) as [[e r]|]; [| discriminate].
    destruct (read_records n r) as [[es' r']|] eqn:Hk; [| discriminate].
    injection Hr as <- <-.
    rewrite (IH (S i) r (<[i := Some e]> entries) es' r' Hk)
      by (rewrite length_insert; lia).
    f_equal. rewrite (take_S_r _ _ (Some e))
      by (apply list_lookup_insert_eq; lia).
    rewrite take_insert_ge by lia. rewrite <- app_assoc. reflexivity.
Qed.

Lemma readLeaves_failure (n i : nat) (data : bytes) (entries : Entries) :
  read_records n data = None ->
  exists e, readLeaves n i data entries
            = ([], Some (Errorf_w "reading entry from tile: " e)).
Proof.
  revert i data entries.
  induction n as [|n IH]; simpl; intros i data entries Hr; [discriminate |].
  destruct (ReadTileLeaf data) as [[e r]|e]; [| eauto].
  destruct (read_records n r) as [[es' r']|] eqn:Hk; [discriminate |].
  apply IH, Hk.
Qed.

(** What [GetTileEntries] returns without an error is 256 entries, none of
    them nil. *)
Lemma GetTileEntries_shape (l : Log) (ctx : Ctx) (tileIndex : Z) (w w' : World)
    (entries : Entries) :
  GetTileEntries l ctx tileIndex w = ((entries, None), w') ->
  exists es, entries = Some <$> es /\ length es = 256%nat.
Proof.
  unfold GetTileEntries.
  destruct (NewRequestWithContext _ _ _) as [request [e|]]; [discriminate |].
  destruct (http_Do _ _) as [[response [e|]] w1]; [discriminate |].
  destruct (bool_decide _); [discriminate |].
  destruct (tileBody response) as [tileData [e|]]; [discriminate |].
  destruct (read_records 256 tileData) as [[es rest]|] eqn:Hr.
  - rewrite (readLeaves_records 256 0 tileData _ es rest Hr)
      by (rewrite length_replicate; reflexivity).
    intros Heq. injection Heq as <- _. exists es.
    split; [reflexivity | eapply read_records_length, Hr].
  - destruct (readLeaves_failure 256 0 tileData (replicate 256 None) Hr)
      as [e ->].
    discriminate.
Qed.

End TileFacts.

(** C10. [GetTileEntries] parses exactly the first 256 leaf records of the
    (possibly decompressed) tile body: when these are well formed it returns
    them, whatever bytes [rest] follow the 256th record. *)
Theorem GetTileEntries_first_256 {net : Net} (l : Log) (ctx : Ctx)
    (tileIndex : Z) (w w' : World) (request : Request Ctx)
    (response : Response) (tileData : bytes) (es : list LogEntry)
    (rest : bytes) :
  NewRequestWithContext ctx "GET"
    (url_JoinPath (MetricsEndpoint l)
       ("/tile/data/" +:+ TilePathFromIndex tileIndex)) = (request, None) ->
  http_Do (Header_Add_AcceptEncoding request "gzip, identity") w
    = ((response, None), w') ->
  StatusCode response = 200 ->
  tileBody response = (tileData, None) ->
  read_records 256 tileData = Some (es, rest) ->
  GetTileEntries l ctx tileIndex w = ((Some <$> es, None), w')
  /\ length es = 256%nat.
Proof.
  intros Hreq Hdo Hstatus Hbody Hrec.
  split; [| eapply read_records_length, Hrec].
  unfold GetTileEntries. rewrite Hreq, Hdo.
  rewrite bool_decide_eq_false_2 by (intros Hne; apply Hne, Hstatus).
  rewrite Hbody.
  rewrite (readLeaves_records 256 0 tileData _ es rest Hrec)
    by (rewrite length_replicate; reflexivity).
  reflexivity.
Qed.

Lemma GetTileEntries_first_256_witness :
  read_records (net := Demo.demo_net) 256 (Demo.demo_tile 2)
  = Some (Demo.demo_entries 2, [Byte.xff; Byte.xfe; Byte.xfd])
  /\ GetTileEntries (net := Demo.demo_net) Demo.demo_log None 2 []
     = ((Some <$> Demo.demo_entries 2, None),
        ["https://log.example/tile/data/002"])
  /\ length (Demo.demo_entries 2) = 256%nat.
Proof.
  assert (read_records (net := Demo.demo_net) 256 (Demo.demo_tile 2)
          = Some (Demo.demo_entries 2, [Byte.xff; Byte.xfe; Byte.xfd]))
    as Hrec by (vm_compute; reflexivity).
  split; [exact Hrec |].
  apply (GetTileEntries_first_256 (net := Demo.demo_net) Demo.demo_log None 2
           [] ["https://log.example/tile/data/002"]
           (mkRequest None "GET" "https://log.example/tile/data/002" [])
           (Demo.demo_serve "https://log.example/tile/data/002")
           (Demo.demo_tile 2) (Demo.demo_entries 2)
           [Byte.xff; Byte.xfe; Byte.xfd]);
    [reflexivity | reflexivity | reflexivity | reflexivity | exact Hrec].
Defined.

(* ================================================================== *)
(** * Properties of the search for the tile of a time *)
(* ================================================================== *)

Lemma wrap64_in_range (z : Z) : minInt64 <= z <= maxInt64 -> wrap64 z = z.
Proof.
  unfold minInt64, maxInt64, wrap64. intros Hz.
  rewrite Z.mod_small by lia. lia.
Qed.

Section SearchFacts.

Context {net : Net}.

(** Without an overflow of the sum, the pivot of the code is the midpoint. *)
Lemma pivot_midpoint (s e : Z) :
  0 <= s -> s <= e -> e < 2 ^ 62 ->
  wrap64 (s + e) ÷ 2 = (s + e) / 2
  /\ s <= (s + e) / 2 <= e
  /\ wrap64 ((s + e) / 2 - 1) = (s + e) / 2 - 1
  /\ wrap64 ((s + e) / 2 + 1) = (s + e) / 2 + 1.
Proof.
  intros Hs Hse He.
  assert (s <= (s + e) / 2 <= e) as Hp.
  { split; [apply Z.div_le_lower_bound; lia | apply Z.div_le_upper_bound; lia]. }
  rewrite !wrap64_in_range by (unfold minInt64, maxInt64; lia).
  rewrite Z.quot_div_nonneg by lia. repeat split; lia.
Qed.

(** The first and the last of 256 entries. *)
Lemma entries_first_last (es : list LogEntry) :
  length es = 256%nat ->
  exists first last,
    (Some <$> es) !! 0%nat = Some (Some first)
    /\ (Some <$> es) !! 255%nat = Some (Some last).
Proof.
  intros Hlen.
  destruct (lookup_lt_is_Some_2 es 0) as [first Hf]; [lia |].
  destruct (lookup_lt_is_Some_2 es 255) as [last Hl]; [lia |].
  exists first, last. rewrite !list_lookup_fmap, Hf, Hl. split; reflexivity.
Qed.

(** While the end tile is below [2^62], the code is the binary search of the
    specification. *)
Lemma GetTileIndexFromTime_loop_refines (fuel : nat) (l : Log) (ctx : Ctx)
    (t : Time) (s e : Z) (w : World) :
  0 <= s -> e < 2 ^ 62 ->
  GetTileIndexFromTime_loop fuel l ctx t s e w
  = midpoint_search fuel l ctx t s e w.
Proof.
  revert s e w. induction fuel as [|fuel IH]; intros s e w Hs He.
  { reflexivity. }
  cbn [GetTileIndexFromTime_loop midpoint_search].
  destruct (Z.leb_spec s e) as [Hse|]; [| reflexivity].
  destruct (pivot_midpoint s e Hs Hse He) as (-> & Hp & -> & ->).
  destruct (GetTileEntries l ctx ((s + e) / 2) w) as [[entries [err|]] w']
    eqn:Hget; [reflexivity |].
  destruct (GetTileEntries_shape _ _ _ _ _ _ Hget) as (es & -> & Hlen).
  destruct (entries_first_last es Hlen) as (first & last & -> & ->).
  unfold Before, After.
  destruct (t <? UnixMilli (Timestamp first)); [apply IH; lia |].
  destruct (UnixMilli (Timestamp last) <? t); [apply IH; lia | reflexivity].
Qed.

Lemma GetTileIndexFromTime_refines (fuel : nat) (l : Log) (ctx : Ctx)
    (t : Time) (startTile endTile : Z) (w : World) :
  endTile < 2 ^ 62 ->
  GetTileIndexFromTime fuel l ctx t startTile endTile w
  = TileIndexFromTime_spec fuel l ctx t startTile endTile w.
Proof.
  intros He. unfold GetTileIndexFromTime, TileIndexFromTime_spec.
  destruct (Z.ltb_spec startTile 0); [reflexivity |].
  apply GetTileIndexFromTime_loop_refines; lia.
Qed.

(** How the loop ends on an interval below [2^62]: with an index of the
    interval, with an error and index -1, or out of fuel on an interval of
    at least [2^fuel] tiles; it does not panic. *)
Lemma GetTileIndexFromTime_loop_result (fuel : nat) (l : Log) (ctx : Ctx)
    (t : Time) (s e : Z) (w : World) :
  0 <= s -> e < 2 ^ 62 ->
  match GetTileIndexFromTime_loop fuel l ctx t s e w with
  | Done ((index, None), _) => s <= index <= e
  | Done ((index, Some _), _) => index = -1
  | Panic => False
  | OutOfFuel => 2 ^ Z.of_nat fuel <= e - s + 1
  end.
Proof.
  revert s e w. induction fuel as [|fuel IH]; intros s e w Hs He.
  { cbn [GetTileIndexFromTime_loop].
    destruct (Z.leb_spec s e); [change (2 ^ Z.of_nat 0) with 1; lia | reflexivity]. }
  cbn [GetTileIndexFromTime_loop].
  destruct (Z.leb_spec s e) as [Hse|]; [| reflexivity].
  destruct (pivot_midpoint s e Hs Hse He) as (-> & Hp & -> & ->).
  destruct (GetTileEntries l ctx ((s + e) / 2) w) as [[entries [err|]] w']
    eqn:Hget; [reflexivity |].
  destruct (GetTileEntries_shape _ _ _ _ _ _ Hget) as (es & -> & Hlen).
  destruct (entries_first_last es Hlen) as (first & last & -> & ->).
  rewrite Nat2Z.inj_succ, Z.pow_succ_r by lia.
  pose proof (Z.div_mod (s + e) 2 ltac:(lia)) as Hdm.
  pose proof (Z.mod_pos_bound (s + e) 2 ltac:(lia)) as Hmb.
  destruct (Before t (UnixMilli (Timestamp first))).
  { specialize (IH s ((s + e) / 2 - 1) w' Hs ltac:(lia)).
    destruct (GetTileIndexFromTime_loop fuel l ctx t s ((s + e) / 2 - 1) w')
      as [[[index [err|]] w'']| |]; lia. }
  destruct (After t (UnixMilli (Timestamp last))); [| lia].
  specialize (IH ((s + e) / 2 + 1) e w' ltac:(lia) He).
  destruct (GetTileIndexFromTime_loop fuel l ctx t ((s + e) / 2 + 1) e w')
    as [[[index [err|]] w'']| |]; lia.
Qed.

End SearchFacts.

(** C7. [GetTileIndexFromTime] computes its pivot as [(startIndex +
    endIndex) / 2] in [int64]. For [startTile = 2^62] and [endTile = 2^63 - 1]
    the sum wraps around: the pivot is [-2^61], outside the interval, and the
    code asks the log for that tile, where the binary search of the
    specification asks for the midpoint 6917529027641081855. *)
Theorem GetTileIndexFromTime_overflow :
  wrap64 (2 ^ 62 + (2 ^ 63 - 1)) ÷ 2 = - 2 ^ 61
  /\ GetTileIndexFromTime (net := Demo.demo_net) 64 Demo.demo_log None
       (UnixMilli 300) (2 ^ 62) (2 ^ 63 - 1) []
     = Done ((-1, Some (Errorf_w "getting entries for tile: "
                          (errors_New
                             "unexpected response status: 404 Not Found"))),
             ["https://log.example/tile/data/x-02/x-305/x-843/x-09/x-213/x-693/-952"])
  /\ TileIndexFromTime_spec (net := Demo.demo_net) 64 Demo.demo_log None
       (UnixMilli 300) (2 ^ 62) (2 ^ 63 - 1) []
     = Done ((-1, Some (Errorf_w "getting entries for tile: "
                          (errors_New
                             "unexpected response status: 404 Not Found"))),
             ["https://log.example/tile/data/x006/x917/x529/x027/x641/x081/855"]).
Proof. repeat split; vm_compute; reflexivity. Qed.

(* ================================================================== *)
(** * Properties of the bounding tiles *)
(* ================================================================== *)

Section BoundingFacts.

Context {net : Net}.

(** The index of the last full tile is a tree size within [int64] divided
    by 256. *)
Lemma GetLastFullTileIndex_range (l : Log) (ctx : Ctx) (w w' : World)
    (lastTile : Z) :
  GetLastFullTileIndex l ctx w = ((lastTile, None), w') ->
  0 <= lastTile < 2 ^ 55.
Proof.
  unfold GetLastFullTileIndex.
  destruct (NewRequestWithContext _ _ _) as [request [e|]]; [discriminate |].
  destruct (http_Do _ _) as [[response [e|]] w1]; [discriminate |].
  destruct (bool_decide _); [discriminate |].
  destruct (ReadAll _) as [checkpointData [e|]]; [discriminate |].
  destruct (TreeSizeFromCheckpoint _) as [treeSize [e|]] eqn:Htree;
    [discriminate |].
  intros Heq. injection Heq as <- _.
  apply TreeSizeFromCheckpoint_eq in Htree.
  destruct Htree as (_ & _ & (_ & Hv & _) & Hmax & _).
  apply digits_value_ge in Hv; [| lia].
  unfold maxInt64 in Hmax. rewrite Z.quot_div_nonneg by lia.
  split; [apply Z.div_pos; lia | apply Z.div_lt_upper_bound; lia].
Qed.

Lemma GetTileIndexFromTime_result (fuel : nat) (l : Log) (ctx : Ctx)
    (t : Time) (startTile endTile : Z) (w : World) :
  endTile < 2 ^ 62 ->
  match GetTileIndexFromTime fuel l ctx t startTile endTile w with
  | Done ((index, None), _) => 0 <= startTile <= index /\ index <= endTile
  | Done ((index, Some _), _) => index = -1
  | Panic => False
  | OutOfFuel => 2 ^ Z.of_nat fuel <= endTile - startTile + 1
  end.
Proof.
  intros He. unfold GetTileIndexFromTime.
  destruct (Z.ltb_spec startTile 0) as [|Hs]; [reflexivity |].
  pose proof (GetTileIndexFromTime_loop_result fuel l ctx t startTile endTile
                w Hs He) as Hr.
  destruct (GetTileIndexFromTime_loop fuel l ctx t startTile endTile w)
    as [[[index [err|]] w']| |]; lia.
Qed.

End BoundingFacts.

(** C6. Whenever [GetBoundingTilesFromTimes] returns without an error, the
    start time is strictly before the end time and the returned tiles
    satisfy [0 <= startTile <= endTile]: the end tile is searched from the
    start tile on. With fuel for 64 halvings the embedding always returns. *)
Theorem GetBoundingTilesFromTimes_monotone {net : Net} (fuel : nat) (l : Log)
    (ctx : Ctx) (startTime endTime : Time) (w : World) :
  (forall startTile endTile w',
      GetBoundingTilesFromTimes fuel l ctx startTime endTime w
      = Done ((startTile, endTile, None), w') ->
      startTime < endTime /\ 0 <= startTile <= endTile)
  /\ ((64 <= fuel)%nat ->
      exists r, GetBoundingTilesFromTimes fuel l ctx startTime endTime w
                = Done r).
Proof.
  unfold GetBoundingTilesFromTimes, Before.
  destruct (Z.ltb_spec startTime endTime) as [Hlt|Hge]; cbn [negb];
    [| split; [discriminate | eauto]].
  destruct (GetLastFullTileIndex l ctx w) as [[lastTile [e|]] w1] eqn:Hlast;
    [split; [discriminate | eauto] |].
  apply GetLastFullTileIndex_range in Hlast.
  assert (2 ^ 55 < 2 ^ 62) as Hpow by (apply Z.pow_lt_mono_r; lia).
  pose proof (GetTileIndexFromTime_result fuel l ctx startTime 0 lastTile w1
                ltac:(lia)) as H1.
  assert ((64 <= fuel)%nat -> 2 ^ 62 < 2 ^ Z.of_nat fuel) as Hfuel
    by (intros Hf; apply Z.pow_lt_mono_r; lia).
  destruct (GetTileIndexFromTime fuel l ctx startTime 0 lastTile w1)
    as [[[startIndex [e|]] w2]| |];
    [split; [discriminate | eauto] | | contradiction |
     split; [discriminate | intros Hf; specialize (Hfuel Hf); lia]].
  pose proof (GetTileIndexFromTime_result fuel l ctx endTime startIndex
                lastTile w2 ltac:(lia)) as H2.
  destruct (GetTileIndexFromTime fuel l ctx endTime startIndex lastTile w2)
    as [[[endIndex [e|]] w3]| |];
    [split; [discriminate | eauto] | | contradiction |
     split; [discriminate | intros Hf; specialize (Hfuel Hf); lia]].
  split; [| eauto].
  intros startTile endTile w' Heq. injection Heq as <- <- _. lia.
Qed.

Lemma GetBoundingTilesFromTimes_monotone_witness :
  GetBoundingTilesFromTimes (net := Demo.demo_net) 64 Demo.demo_log None
    (UnixMilli 300) (UnixMilli 700) []
  = Done ((1, 2, None),
          ["https://log.example/checkpoint";
           "https://log.example/tile/data/001";
           "https://log.example/tile/data/002"])
  /\ UnixMilli 300 < UnixMilli 700 /\ 0 <= 1 <= 2.
Proof.
  assert (GetBoundingTilesFromTimes (net := Demo.demo_net) 64 Demo.demo_log
            None (UnixMilli 300) (UnixMilli 700) []
          = Done ((1, 2, None),
                  ["https://log.example/checkpoint";
                   "https://log.example/tile/data/001";
                   "https://log.example/tile/data/002"])) as Hrun
    by (vm_compute; reflexivity).
  split; [exact Hrun |].
  exact (proj1 (GetBoundingTilesFromTimes_monotone (net := Demo.demo_net) 64
                  Demo.demo_log None (UnixMilli 300) (UnixMilli 700) [])
           1 2 _ Hrun).
Defined.

(* ================================================================== *)
(** * Properties of the data source of a tiled log *)
(* ================================================================== *)

Section SourceFacts.

Context {net : Net}.

Lemma workers_stderr (b : DataSource) (l : Log) (ctx : Ctx) (work : list Z)
    (w : World) (certs : list bytes) (stderr : list string) :
  match workers b l ctx work w certs stderr with
  | Done ((_, stderr'), _) => exists more, stderr' = stderr ++ more
  | Panic => True
  | OutOfFuel => False
  end.
Proof.
  revert w certs stderr.
  induction work as [|tileIndex work IH]; intros w certs stderr;
    cbn [workers].
  { exists []. rewrite app_nil_r. reflexivity. }
  destruct (GetTileEntriesWithBackoff l ctx tileIndex w)
    as [[entries [e|]] w'].
  - specialize (IH w' certs
      (stderr ++ ["getting entries for tile: " +:+ Error e
                    +:+ String newline ""])).
    destruct (workers _ _ _ _ _ _ _) as [[[c s'] w'']| |]; [| exact I | exact IH].
    destruct IH as [more ->]. rewrite <- app_assoc. eauto.
  - assert (emitEntries b entries certs <> OutOfFuel) as Hemit.
    { clear. revert certs. induction entries as [|[entry|] entries IHe];
        intros certs; cbn [emitEntries]; [discriminate | | discriminate].
      destruct (IsPrecert entry);
        [destruct (IncludePrecertificates b) | destruct (IncludeCertificates b)];
        apply IHe. }
    destruct (emitEntries b entries certs) as [certs'| |];
      [apply IH | exact I | contradiction].
Qed.

(** Once the bounds of the search are determined, [Source] has no way to
    return an error: whatever the tile fetches do, the context's
    cancellation included, it returns [nil]. *)
Lemma Source_nil_after_bounds (fuel : nat) (b : DataSource) (l : Log)
    (ctx : Ctx) (w w1 : World) (startIndex endIndex : Z) :
  ds_Log b = Some l ->
  IncludeCertificates b || IncludePrecertificates b = true ->
  GetBoundingTilesFromTimes fuel l ctx (StartTimeInclusive b)
    (EndTimeInclusive b) w = Done ((startIndex, endIndex, None), w1) ->
  match Source fuel b ctx w with
  | Done ((_, _, err), _) => err = None
  | Panic => True
  | OutOfFuel => False
  end.
Proof.
  intros Hlog Hflags Hbounds. unfold Source. rewrite Hlog, Hflags, Hbounds.
  cbn [negb].
  pose proof (workers_stderr b l ctx
                (seqZ startIndex (endIndex - startIndex + 1)) w1 []
                ["determined search bounds, start tile: "
                   +:+ strconv.FormatInt startIndex +:+ " end tile: "
                   +:+ strconv.FormatInt endIndex +:+ String newline ""])
    as Hw.
  destruct (workers _ _ _ _ _ _ _) as [[[c s'] w'']| |];
    [reflexivity | exact I | exact Hw].
Qed.

End SourceFacts.

(** C2. With a context that is cancelled after the bounds of the search are
    determined and before any tile is downloaded, every download fails with
    the context's error, is logged and skipped, and [Source] returns [nil]
    having sent nothing; the context's cause is not returned. *)
Theorem Source_cancelled_returns_nil :
  Source (net := Demo.demo_net) 64 Demo.demo_source (Some 3%nat) []
  = Done (([],
           ["determined search bounds, start tile: 1 end tile: 2" +:+ String newline "";
            "getting entries for tile: context canceled" +:+ String newline "";
            "getting entries for tile: context canceled" +:+ String newline ""],
           None),
          ["https://log.example/checkpoint";
           "https://log.example/tile/data/001";
           "https://log.example/tile/data/002";
           "https://log.example/tile/data/001";
           "https://log.example/tile/data/002"]).
Proof. vm_compute. reflexivity. Qed.

(** The same source under a context that is never cancelled sends the 512
    entries of its two tiles. *)
Example Source_not_cancelled :
  match Source (net := Demo.demo_net) 64 Demo.demo_source None [] with
  | Done ((certs, _, err), _) => length certs = 512%nat /\ err = None
  | _ => False
  end.
Proof. vm_compute. split; reflexivity. Qed.

(* ================================================================== *)
(** * Properties of the consumer loop *)
(* ================================================================== *)

Import x509search.
Import SearchSpec.

Section ConsumerFacts.

Context {libs : Libs}.

Lemma consumer_loop_recv (s : Search) (inputs : list bytes)
    (events : list select_event) (c : Consumer) :
  consumer_loop s ((certs_recv <$> inputs) ++ events) c
  = consumer_loop s events (foldl (fun c der => receive s der c) c inputs).
Proof.
  revert c. induction inputs as [|der inputs IH]; intros c; [reflexivity |].
  cbn [fmap list_fmap app consumer_loop foldl]. apply IH.
Qed.

(** One received value, for a consumer with a [Sha256MapCacher] whose map
    holds [true] exactly for the digests of [seen]. *)
Lemma receive_Sha256MapCacher (s : Search) (der : bytes)
    (certs : gmap Digest bool) (seen : list Digest)
    (called : list Certificate) (lines : list string) :
  (forall d, default false (certs !! d) = bool_decide (d ∈ seen)) ->
  exists certs' seen' lines',
    receive s der (mkConsumer (Sha256MapCacher certs) called lines)
    = mkConsumer (Sha256MapCacher certs')
        (called ++ first_occurrences seen (option_list (accepted s der)))
        lines'
    /\ (forall d, default false (certs' !! d) = bool_decide (d ∈ seen'))
    /\ (forall certs0,
          first_occurrences seen (option_list (accepted s der) ++ certs0)
          = first_occurrences seen (option_list (accepted s der))
            ++ first_occurrences seen' certs0).
Proof.
  intros Hinv. unfold receive, accepted.
  destruct (derFilter_of s der); cbn [negb];
    [| exists certs, seen, lines; rewrite app_nil_r; auto].
  destruct (ParseCertificate der) as [cert|err];
    [| eexists certs, seen, _; rewrite app_nil_r; auto].
  destruct (filter_of s cert); cbn [negb];
    [| exists certs, seen, lines; rewrite app_nil_r; auto].
  cbn [Cache option_list first_occurrences app matches calls stderr].
  fold (fingerprint cert).
  rewrite (Hinv (fingerprint cert)).
  assert (forall d,
            default false (<[fingerprint cert := true]> certs !! d)
            = bool_decide (d ∈ fingerprint cert :: seen)) as Hinv'.
  { intros d. destruct (decide (d = fingerprint cert)) as [->|Hne].
    - rewrite lookup_insert_eq. cbn [default].
      symmetry. apply bool_decide_eq_true_2. left.
    - rewrite lookup_insert_ne by congruence. rewrite Hinv.
      apply bool_decide_ext. rewrite elem_of_cons. tauto. }
  change (option_list (Some cert)) with [cert].
  cbn [app first_occurrences].
  destruct (decide (fingerprint cert ∈ seen)) as [Hin|Hnin].
  - rewrite bool_decide_eq_true_2 by exact Hin.
    exists (<[fingerprint cert := true]> certs), seen, lines.
    rewrite app_nil_r. split; [reflexivity |]. split; [| reflexivity].
    intros d. rewrite Hinv'. apply bool_decide_ext. rewrite elem_of_cons.
    split; [intros [->|]; assumption | auto].
  - rewrite bool_decide_eq_false_2 by exact Hnin.
    exists (<[fingerprint cert := true]> certs), (fingerprint cert :: seen),
      lines.
    split; [reflexivity |]. split; [exact Hinv' | reflexivity].
Qed.

(** The calls of a consumer with a [Sha256MapCacher] are the first
    occurrences, by fingerprint, of the accepted inputs. *)
Lemma foldl_receive_Sha256MapCacher (s : Search) (inputs : list bytes)
    (certs : gmap Digest bool) (seen : list Digest)
    (called : list Certificate) (lines : list string) :
  (forall d, default false (certs !! d) = bool_decide (d ∈ seen)) ->
  calls (foldl (fun c der => receive s der c)
           (mkConsumer (Sha256MapCacher certs) called lines) inputs)
  = called ++ first_occurrences seen (omap (accepted s) inputs).
Proof.
  revert certs seen called lines.
  induction inputs as [|der inputs IH]; intros certs seen called lines Hinv.
  { cbn. rewrite app_nil_r. reflexivity. }
  cbn [foldl].
  destruct (receive_Sha256MapCacher s der certs seen called lines Hinv)
    as (certs' & seen' & lines' & -> & Hinv' & Hsplit).
  rewrite (IH certs' seen' _ lines' Hinv'). rewrite <- app_assoc. f_equal.
  specialize (Hsplit (omap (accepted s) inputs)).
  cbn [omap list_omap]. destruct (accepted s der) as [cert|]; symmetry; exact Hsplit.
Qed.

(** The recorded fingerprints are the keys that read as [true]. *)
Lemma elem_of_recorded (certs : gmap Digest bool) (d : Digest) :
  d ∈ recorded certs <-> certs !! d = Some true.
Proof.
  unfold recorded. rewrite list_elem_of_omap. split.
  - intros ([k b] & Hin & Heq). apply elem_of_map_to_list in Hin.
    cbn [fst snd] in Heq. destruct b; [| discriminate].
    injection Heq as <-. exact Hin.
  - intros Hd. exists (d, true). split; [| reflexivity].
    apply elem_of_map_to_list, Hd.
Qed.

Lemma recorded_default (certs : gmap Digest bool) (d : Digest) :
  default false (certs !! d) = bool_decide (d ∈ recorded certs).
Proof.
  destruct (certs !! d) as [[|]|] eqn:Hd; cbn [default]; symmetry.
  - apply bool_decide_eq_true_2, elem_of_recorded, Hd.
  - apply bool_decide_eq_false_2. rewrite elem_of_recorded, Hd. discriminate.
  - apply bool_decide_eq_false_2. rewrite elem_of_recorded, Hd. discriminate.
Qed.

Lemma recorded_empty : recorded ∅ = [].
Proof. unfold recorded. rewrite map_to_list_empty. reflexivity. Qed.
(** First occurrences: no fingerprint twice, none of those seen before, and
    every other fingerprint of the list. *)
Lemma first_occurrences_spec (seen : list Digest) (l : list Certificate) :
  NoDup (fingerprint <$> first_occurrences seen l)
  /\ forall d, d ∈ fingerprint <$> first_occurrences seen l
               <-> d ∈ fingerprint <$> l /\ d ∉ seen.
Proof.
  revert seen. induction l as [|cert l IH]; intros seen.
  { cbn. split; [constructor |]. intros d. rewrite elem_of_nil. tauto. }
  cbn [first_occurrences]. destruct (decide (fingerprint cert ∈ seen)) as [Hin|Hnin].
  - destruct (IH seen) as [Hnd Hmem]. split; [exact Hnd |].
    intros d. rewrite Hmem, fmap_cons, elem_of_cons.
    split; [tauto |]. intros [[->|Hd] Hns]; [contradiction | tauto].
  - destruct (IH (fingerprint cert :: seen)) as [Hnd Hmem]. split.
    + rewrite fmap_cons. constructor; [| exact Hnd].
      rewrite Hmem, elem_of_cons. tauto.
    + intros d. rewrite !fmap_cons, !elem_of_cons, Hmem, elem_of_cons.
      destruct (decide (d = fingerprint cert)) as [->|Hne]; tauto.
Qed.

End ConsumerFacts.

(** C1 (amended). For every finite sequence of byte strings delivered to the
    consumer loop of [Execute] with a [Sha256MapCacher], whatever its map
    holds, the loop returns [nil] when
    the channel is closed, and [MatchCallback] has been called exactly on
    the first occurrence of each SHA-256 fingerprint that the cacher had not
    recorded before, among the inputs that pass [DERFilter], parse, and pass
    [Filter]: on no fingerprint twice, on no fingerprint recorded before,
    and on every other fingerprint of an accepted input. For the empty map
    that [NewSha256MapCacher] makes these are the first occurrences of all
    the fingerprints of the accepted inputs. *)
Theorem consumer_calls_once {libs : Libs} (s : Search) (inputs : list bytes)
    (certs : gmap Digest bool) :
  MatchCacher s = Some (Sha256MapCacher certs) ->
  snd (consumer_run s inputs) = Some None
  /\ calls (fst (consumer_run s inputs))
     = first_occurrences (recorded certs) (omap (accepted s) inputs)
  /\ NoDup (fingerprint <$> calls (fst (consumer_run s inputs)))
  /\ (forall d,
        d ∈ fingerprint <$> calls (fst (consumer_run s inputs))
        <-> (exists der cert,
               der ∈ inputs /\ accepted s der = Some cert /\ Sum256 der = d)
            /\ certs !! d <> Some true)
  /\ (certs = ∅ ->
      calls (fst (consumer_run s inputs))
      = first_occurrences [] (omap (accepted s) inputs)
      /\ forall d,
           d ∈ fingerprint <$> calls (fst (consumer_run s inputs))
           <-> exists der cert,
                 der ∈ inputs /\ accepted s der = Some cert /\ Sum256 der = d).
Proof.
  intros Hcacher. unfold consumer_run. rewrite consumer_loop_recv.
  cbn [consumer_loop fst snd]. split; [reflexivity |].
  assert (calls (foldl (fun c der => receive s der c)
                   (mkConsumer (matches_of s) [] []) inputs)
          = first_occurrences (recorded certs) (omap (accepted s) inputs))
    as Hcalls.
  { replace (matches_of s) with (Sha256MapCacher certs)
      by (unfold matches_of; rewrite Hcacher; reflexivity).
    apply (foldl_receive_Sha256MapCacher s inputs certs (recorded certs) [] []).
    apply recorded_default. }
  split; [exact Hcalls |]. rewrite Hcalls.
  destruct (first_occurrences_spec (recorded certs) (omap (accepted s) inputs))
    as [Hnd Hmem].
  split; [exact Hnd |].
  assert (forall d,
            d ∈ fingerprint <$> omap (accepted s) inputs
            <-> exists der cert,
                  der ∈ inputs /\ accepted s der = Some cert /\ Sum256 der = d)
    as Hacc.
  { intros d. rewrite list_elem_of_fmap. split.
    - intros (cert & -> & Hin). apply list_elem_of_omap in Hin.
      destruct Hin as (der & Hder & Hacc). exists der, cert.
      split; [exact Hder |]. split; [exact Hacc |].
      unfold fingerprint. f_equal. symmetry.
      unfold accepted in Hacc. destruct (derFilter_of s der); [| discriminate].
      destruct (ParseCertificate der) as [cert'|] eqn:Hparse; [| discriminate].
      destruct (filter_of s cert'); [| discriminate].
      injection Hacc as ->. apply ParseCertificate_Raw, Hparse.
    - intros (der & cert & Hder & Hacc & <-). exists cert. split.
      + unfold fingerprint. f_equal.
        unfold accepted in Hacc. destruct (derFilter_of s der); [| discriminate].
        destruct (ParseCertificate der) as [cert'|] eqn:Hparse; [| discriminate].
        destruct (filter_of s cert'); [| discriminate].
        injection Hacc as ->. symmetry. apply ParseCertificate_Raw, Hparse.
      + apply list_elem_of_omap. exists der. split; assumption. }
  split.
  - intros d. rewrite Hmem, Hacc, elem_of_recorded. reflexivity.
  - intros ->. rewrite recorded_empty. split; [reflexivity |].
    intros d. rewrite <- Hacc.
    destruct (first_occurrences_spec [] (omap (accepted s) inputs))
      as [_ Hmem0].
    rewrite Hmem0. split; [tauto |]. intros Hd. split; [exact Hd |].
    apply not_elem_of_nil.
Qed.

Lemma consumer_calls_once_witness :
  MatchCacher demo_search = Some NewSha256MapCacher
  /\ calls (fst (consumer_run demo_search
                   [cert_A; cert_B; cert_A; []; cert_C; cert_B]))
     = [cert_A; cert_B; cert_C].
Proof.
  split; [reflexivity |].
  rewrite (proj1 (proj2 (proj2 (proj2 (proj2
             (consumer_calls_once (libs := demo_libs) demo_search
                [cert_A; cert_B; cert_A; []; cert_C; cert_B] ∅ eq_refl))))
             eq_refl)).
  vm_compute. reflexivity.
Defined.

(** C1, as stated, fails for a [Sha256MapCacher] that an earlier [Execute]
    has used: [A] is delivered, passes the filters and parses, and
    [MatchCallback] is called on [B] only, not once for the fingerprint of
    [A]. *)
Lemma consumer_calls_once_used_cacher :
  (exists certs, MatchCacher used_search = Some (Sha256MapCacher certs))
  /\ cert_A ∈ [cert_A; cert_B; cert_A]
  /\ accepted used_search cert_A = Some cert_A
  /\ calls (fst (consumer_run used_search [cert_A; cert_B; cert_A]))
     = [cert_B].
Proof.
  split; [eexists; vm_compute; reflexivity |].
  split; [left |]. split; vm_compute; reflexivity.
Qed.

(* ================================================================== *)
(** * Properties of the goroutines of Execute *)
(* ================================================================== *)

Section ExecuteFacts.

Context {libs : Libs}.

Lemma from_source_app (i : nat) (l1 l2 : list (nat * bytes)) :
  from_source i (l1 ++ l2) = from_source i l1 ++ from_source i l2.
Proof. unfold from_source. rewrite filter_app, fmap_app. reflexivity. Qed.

Lemma from_source_singleton (i j : nat) (certBytes : bytes) :
  from_source i [(j, certBytes)] = if decide (j = i) then [certBytes] else [].
Proof.
  unfold from_source. rewrite filter_cons, filter_nil. cbn [fst].
  destruct (decide (j = i)); reflexivity.
Qed.

Lemma from_source_cons (i j : nat) (certBytes : bytes) l :
  from_source i ((j, certBytes) :: l)
  = (if decide (j = i) then [certBytes] else []) ++ from_source i l.
Proof.
  change ((j, certBytes) :: l) with ([(j, certBytes)] ++ l).
  rewrite from_source_app, from_source_singleton. reflexivity.
Qed.

Lemma consumer_after_snoc (s : Search) l (x : nat * bytes) :
  consumer_after s (l ++ [x]) = receive s (snd x) (consumer_after s l).
Proof. unfold consumer_after. rewrite foldl_app. reflexivity. Qed.




Lemma invariant_initial (s : Search) : invariant s (initial s).
Proof.
  unfold invariant, initial. cbn.
  split; [reflexivity |]. split; [reflexivity |].
  split; [apply length_fmap |]. split; [discriminate |].
  split; [discriminate |].
  intros i p Hp. rewrite list_lookup_fmap, Hp. reflexivity.
Qed.

Lemma remaining_insert (srcs : list (option Sourcer)) (i j : nat)
    (g : option Sourcer) :
  (i < length srcs)%nat ->
  remaining (<[i := g]> srcs !! j)
  = if decide (i = j) then remaining (Some g) else remaining (srcs !! j).
Proof.
  intros Hi. destruct (decide (i = j)) as [->|Hne].
  - rewrite list_lookup_insert_eq by exact Hi. reflexivity.
  - rewrite list_lookup_insert_ne by exact Hne. reflexivity.
Qed.

Lemma Forall_None_insert (srcs : list (option Sourcer)) (i : nat)
    (p : Sourcer) :
  srcs !! i = Some (Some p) -> ~ Forall (fun g => g = None) srcs.
Proof.
  intros Hi Hall. rewrite Forall_lookup in Hall.
  specialize (Hall i _ Hi). discriminate.
Qed.

End ExecuteFacts.

Section ExecuteContinue.

Context {libs : Libs}.
Variable s : Search.
Hypothesis Hcontinue : DataSourceErrorBehavior s = ErrorBehaviorContinue.

(** Under [ErrorBehaviorContinue], every step of a goroutine keeps the
    invariant, as long as nothing cancels the parent context. *)
Lemma invariant_step (l : label) (st st' : State) :
  invariant s st -> step s l st st' -> l <> l_parent_cancelled ->
  invariant s st'.
Proof.
  intros (Hcause & Hcons & Hlen & Hclosed & Hret & Hflow) Hstep Hl.
  destruct Hstep as
    [st i certBytes next Hsrc Hcap
    |st i cancelled otherwise Hsrc
    |st i err Hsrc Hplain
    |st i e Hsrc Hcancel Hnew
    |st i e Hsrc Hcancel Hold
    |st Hall Hopen
    |st i certBytes rest Hrun Hcerts
    |st e Hrun He
    |st Hrun Hcerts Hcl
    |st].
  - (* a data source sends *)
    assert (closed st = true -> False) as Hnot
      by (intros Hc; exact (Forall_None_insert _ _ _ Hsrc (Hclosed Hc))).
    assert (i < length (sources st))%nat as Hi
      by (apply lookup_lt_is_Some; eauto).
    unfold invariant; cbn [cause certs closed sources consumer returned delivered].
    split; [exact Hcause |]. split; [exact Hcons |].
    split; [rewrite length_insert; exact Hlen |].
    split; [intros Hc; destruct (Hnot Hc) |].
    split; [intros r Hr; destruct (Hret r Hr) as (_ & Hc & _); destruct (Hnot Hc) |].
    intros j p Hp. specialize (Hflow j p Hp).
    rewrite from_source_app, from_source_singleton, remaining_insert by exact Hi.
    destruct (decide (i = j)) as [->|Hne].
    + rewrite Hsrc in Hflow. cbn [remaining sends] in Hflow |- *.
      rewrite <- Hflow, <- !app_assoc. reflexivity.
    + rewrite app_nil_r. exact Hflow.
  - (* a data source looks at the context *)
    assert (closed st = true -> False) as Hnot
      by (intros Hc; exact (Forall_None_insert _ _ _ Hsrc (Hclosed Hc))).
    assert (i < length (sources st))%nat as Hi
      by (apply lookup_lt_is_Some; eauto).
    unfold invariant; cbn [cause certs closed sources consumer returned delivered].
    rewrite Hcause.
    split; [reflexivity |]. split; [exact Hcons |].
    split; [rewrite length_insert; exact Hlen |].
    split; [intros Hc; destruct (Hnot Hc) |].
    split; [intros r Hr; destruct (Hret r Hr) as (_ & Hc & _); destruct (Hnot Hc) |].
    intros j p Hp. specialize (Hflow j p Hp).
    rewrite remaining_insert by exact Hi.
    destruct (decide (i = j)) as [->|Hne]; [| exact Hflow].
    rewrite Hsrc in Hflow. exact Hflow.
  - (* a data source returns *)
    assert (closed st = true -> False) as Hnot
      by (intros Hc; exact (Forall_None_insert _ _ _ Hsrc (Hclosed Hc))).
    assert (i < length (sources st))%nat as Hi
      by (apply lookup_lt_is_Some; eauto).
    unfold invariant; cbn [cause certs closed sources consumer returned delivered].
    split; [exact Hcause |]. split; [exact Hcons |].
    split; [rewrite length_insert; exact Hlen |].
    split; [intros Hc; destruct (Hnot Hc) |].
    split; [intros r Hr; destruct (Hret r Hr) as (_ & Hc & _); destruct (Hnot Hc) |].
    intros j p Hp. specialize (Hflow j p Hp).
    rewrite remaining_insert by exact Hi.
    destruct (decide (i = j)) as [->|Hne]; [| exact Hflow].
    rewrite Hsrc in Hflow. exact Hflow.
  - (* a data source's error is reported: not under this behaviour *)
    congruence.
  - (* a data source's error cancels the search: not under this behaviour *)
    congruence.
  - (* the channel is closed *)
    unfold invariant; cbn [cause certs closed sources consumer returned delivered].
    split; [exact Hcause |]. split; [exact Hcons |]. split; [exact Hlen |].
    split; [intros _; exact Hall |].
    split; [| exact Hflow].
    intros r Hr. destruct (Hret r Hr) as (_ & Hc & _). congruence.
  - (* the consumer receives a value *)
    unfold invariant; cbn [cause certs closed sources consumer returned delivered].
    split; [exact Hcause |].
    split; [rewrite consumer_after_snoc, Hcons; reflexivity |].
    split; [exact Hlen |]. split; [exact Hclosed |].
    split; [intros r Hr; congruence |].
    intros j p Hp. specialize (Hflow j p Hp).
    rewrite Hcerts, from_source_cons in Hflow.
    rewrite from_source_app, from_source_singleton.
    rewrite <- Hflow, <- !app_assoc. reflexivity.
  - (* the context is done *)
    congruence.
  - (* the consumer finds the channel closed and empty *)
    unfold invariant; cbn [cause certs closed sources consumer returned delivered].
    split; [exact Hcause |]. split; [exact Hcons |]. split; [exact Hlen |].
    split; [exact Hclosed |]. split; [| exact Hflow].
    intros r Hr. injection Hr as <-. auto.
  - (* the parent context is cancelled *)
    congruence.
Qed.

Lemma invariant_steps (ls : list label) (st st' : State) :
  invariant s st -> steps s ls st st' -> l_parent_cancelled ∉ ls ->
  invariant s st'.
Proof.
  intros Hinv Hsteps. revert Hinv.
  induction Hsteps as [st|l ls st1 st2 st3 Hstep Hsteps IH]; intros Hinv Hls;
    [exact Hinv |].
  apply IH.
  - apply (invariant_step l st1 st2 Hinv Hstep).
    intros ->. apply Hls. left.
  - intros Hin. apply Hls. right. exact Hin.
Qed.

End ExecuteContinue.

Lemma sum_list_insert_lookup {A : Type} (f : A -> nat) (l : list A) (i : nat)
    (x y : A) :
  l !! i = Some y ->
  (sum_list (f <$> <[i := x]> l) + f y = sum_list (f <$> l) + f x)%nat.
Proof.
  revert i. induction l as [|a l IH]; intros [|i] Hi; try discriminate.
  - injection Hi as ->. cbn. lia.
  - cbn in Hi |- *. specialize (IH i Hi).
    rewrite <- !Nat.add_assoc. f_equal. exact IH.
Qed.

Lemma all_returned_or_running {libs : Libs} (srcs : list (option Sourcer)) :
  Forall (fun g => g = None) srcs \/ exists i p, srcs !! i = Some (Some p).
Proof.
  induction srcs as [|[p|] srcs IH].
  - left. constructor.
  - right. exists 0%nat, p. reflexivity.
  - destruct IH as [Hall|(i & p & Hi)].
    + left. constructor; [reflexivity | exact Hall].
    + right. exists (S i), p. exact Hi.
Qed.

Section ExecuteProgress.

Context {libs : Libs}.
Variable s : Search.
Hypothesis Hcontinue : DataSourceErrorBehavior s = ErrorBehaviorContinue.

(** As long as the loop has not returned, some goroutine can take a step. *)
Lemma continue_progress (st : State) :
  length (sources st) = length (DataSources s) ->
  returned st = None ->
  exists l st', step s l st st' /\ l <> l_parent_cancelled.
Proof.
  clear Hcontinue. intros Hlen Hrun.
  destruct (certs st) as [|[i certBytes] rest] eqn:Hcerts.
  - destruct (all_returned_or_running (sources st)) as [Hall|(i & p & Hi)].
    + destruct (closed st) eqn:Hclosed.
      * eexists l_closed, _. split; [| discriminate].
        apply step_closed; assumption.
      * eexists l_close, _. split; [| discriminate].
        apply step_close; assumption.
    + assert (i < length (sources st))%nat as Hlt
        by (apply lookup_lt_is_Some; eauto).
      destruct p as [certBytes next|cancelled otherwise|err].
      * eexists (l_send i), _. split; [| discriminate].
        eapply step_send; [exact Hi |]. rewrite Hcerts. cbn. lia.
      * eexists (l_look i), _. split; [| discriminate].
        eapply step_look. exact Hi.
      * destruct err as [e|];
          [destruct (DataSourceErrorBehavior s) eqn:Hbehaviour;
           [destruct (decide (i ∈ reported st)) as [Hold|Hnew] |] |].
        -- eexists (l_cancel i), _. split; [| discriminate].
           eapply step_cancel; eassumption.
        -- eexists (l_report i), _. split; [| discriminate].
           eapply step_report; eassumption.
        -- eexists (l_return i), _. split; [| discriminate].
           eapply step_return; [exact Hi |]. right. congruence.
        -- eexists (l_return i), _. split; [| discriminate].
           eapply step_return; [exact Hi |]. left. reflexivity.
  - eexists l_recv, _. split; [| discriminate].
    eapply step_recv; [exact Hrun | exact Hcerts].
Qed.

(** Every step but the cancellation of the parent context uses up some of
    the steps that are left. *)
Lemma continue_weight (l : label) (st st' : State) :
  cause st = None -> step s l st st' -> l <> l_parent_cancelled ->
  (weight st' < weight st)%nat.
Proof.
  intros Hcause Hstep Hl.
  destruct Hstep as
    [st i certBytes next Hsrc Hcap
    |st i cancelled otherwise Hsrc
    |st i err Hsrc Hplain
    |st i e Hsrc Hcancel Hnew
    |st i e Hsrc Hcancel Hold
    |st Hall Hopen
    |st i certBytes rest Hrun Hcerts
    |st e Hrun He
    |st Hrun Hcerts Hcl
    |st].
  - unfold weight; cbn [cause certs closed sources consumer returned delivered].
    pose proof (sum_list_insert_lookup
                  (fun g => match g with Some p => size p | None => 0%nat end)
                  (sources st) i (Some next) _ Hsrc) as Hsum.
    cbn [size] in Hsum. rewrite length_app. cbn [length]. lia.
  - unfold weight; cbn [cause certs closed sources consumer returned delivered].
    rewrite Hcause.
    pose proof (sum_list_insert_lookup
                  (fun g => match g with Some p => size p | None => 0%nat end)
                  (sources st) i (Some otherwise) _ Hsrc) as Hsum.
    cbn [size] in Hsum. lia.
  - unfold weight; cbn [cause certs closed sources consumer returned delivered].
    pose proof (sum_list_insert_lookup
                  (fun g => match g with Some p => size p | None => 0%nat end)
                  (sources st) i None _ Hsrc) as Hsum.
    cbn [size] in Hsum. lia.
  - congruence.
  - congruence.
  - unfold weight; cbn [cause certs closed sources consumer returned delivered].
    rewrite Hopen. lia.
  - unfold weight; cbn [cause certs closed sources consumer returned delivered].
    rewrite Hcerts. cbn [length]. lia.
  - unfold weight; cbn [cause certs closed sources consumer returned delivered].
    rewrite Hrun. lia.
  - unfold weight; cbn [cause certs closed sources consumer returned delivered].
    rewrite Hrun. lia.
  - congruence.
Qed.

End ExecuteProgress.


Lemma steps_end {libs : Libs} (s : Search) (st st' : State) :
  st = st' -> steps s [] st st'.
Proof. intros ->. constructor. Qed.

(** Evaluates the state a run has reached, so that the next step starts
    from a value. *)
Ltac settle_state :=
  lazymatch goal with
  | |- steps _ _ ?st _ =>
      let st' := eval vm_compute in st in change st with st'
  end.

Ltac run_step rule := eapply steps_cons; [rule |]; settle_state.

(** The data source returned [nil], or the behaviour is not
    [ErrorBehaviorCancel]. *)
Ltac plain_return := first [left; reflexivity | right; discriminate].

(** The run [demo_labels] of [demo_search] ends in [demo_final]. *)
Lemma demo_run : steps demo_search demo_labels (initial demo_search) demo_final.
Proof.
  unfold demo_labels. settle_state.
  run_step ltac:(eapply (step_send _ _ 0%nat); [reflexivity | cbn; lia]).
  run_step ltac:(eapply (step_send _ _ 1%nat); [reflexivity | cbn; lia]).
  run_step ltac:(eapply step_recv; reflexivity).
  run_step ltac:(eapply step_recv; reflexivity).
  run_step ltac:(eapply (step_return _ _ 0%nat); [reflexivity | plain_return]).
  run_step ltac:(eapply (step_send _ _ 1%nat); [reflexivity | cbn; lia]).
  run_step ltac:(eapply step_recv; reflexivity).
  run_step ltac:(eapply (step_return _ _ 1%nat); [reflexivity | plain_return]).
  run_step ltac:(eapply step_close; [repeat constructor | reflexivity]).
  run_step ltac:(eapply step_closed; reflexivity).
  apply steps_end. vm_compute. reflexivity.
Qed.




(** Scenario 5 of the specification as one result of [Execute]: the search
    of [demo_search] returns [nil] with the callback called on [A], [B] and
    [C]. *)
Example Execute_demo_search :
  Execute demo_search None None (consumer demo_final).
Proof.
  eapply (Execute_run demo_search None demo_labels demo_final None);
    [reflexivity | reflexivity | exact demo_run | reflexivity].
Qed.

(* ================================================================== *)
(** * Further properties *)
(* ================================================================== *)

(** For an end tile below [2^62] the sums of [GetTileIndexFromTime] do not
    wrap around, and the code is the binary search of the specification: an
    error for a negative start tile, the midpoint as pivot, left when the
    time is strictly before the pivot's first entry, right when it is
    strictly after its last entry, the pivot otherwise, and an error on an
    empty interval. *)
Theorem GetTileIndexFromTime_is_midpoint_search {net : Net} (fuel : nat)
    (l : Log) (ctx : Ctx) (t : Time) (startTile endTile : Z) (w : World) :
  endTile < 2 ^ 62 ->
  GetTileIndexFromTime fuel l ctx t startTile endTile w
  = TileIndexFromTime_spec fuel l ctx t startTile endTile w.
Proof. apply GetTileIndexFromTime_refines. Qed.

Lemma GetTileIndexFromTime_is_midpoint_search_witness :
  3 < 2 ^ 62
  /\ GetTileIndexFromTime (net := Demo.demo_net) 64 Demo.demo_log None
       (UnixMilli 700) 0 3 []
     = TileIndexFromTime_spec (net := Demo.demo_net) 64 Demo.demo_log None
         (UnixMilli 700) 0 3 []
  /\ TileIndexFromTime_spec (net := Demo.demo_net) 64 Demo.demo_log None
       (UnixMilli 700) 0 3 []
     = Done ((2, None),
             ["https://log.example/tile/data/001";
              "https://log.example/tile/data/002"]).
Proof.
  assert (3 < 2 ^ 62) as Hlt by reflexivity.
  split; [exact Hlt |].
  split; [| vm_compute; reflexivity].
  exact (GetTileIndexFromTime_is_midpoint_search (net := Demo.demo_net) 64
           Demo.demo_log None (UnixMilli 700) 0 3 [] Hlt).
Defined.

(** The index [GetLastFullTileIndex] returns without an error is a tree size
    within [int64] divided by 256: it is not negative (it may be 0) and it
    is below [2^55]. *)
Theorem GetLastFullTileIndex_nonneg {net : Net} (l : Log) (ctx : Ctx)
    (w w' : World) (lastTile : Z) :
  GetLastFullTileIndex l ctx w = ((lastTile, None), w') ->
  0 <= lastTile < 2 ^ 55.
Proof. apply GetLastFullTileIndex_range. Qed.

Lemma GetLastFullTileIndex_nonneg_witness :
  GetLastFullTileIndex (net := Demo.demo_net) Demo.demo_log None []
  = ((3, None), ["https://log.example/checkpoint"])
  /\ 0 <= 3 < 2 ^ 55.
Proof.
  assert (GetLastFullTileIndex (net := Demo.demo_net) Demo.demo_log None []
          = ((3, None), ["https://log.example/checkpoint"])) as Hrun
    by (vm_compute; reflexivity).
  split; [exact Hrun |].
  exact (GetLastFullTileIndex_nonneg (net := Demo.demo_net) Demo.demo_log None
           [] _ 3 Hrun).
Defined.

(** Without a cacher ([MatchCacher] nil, so a [NopCacher]), the consumer
    loop calls [MatchCallback] on every input that passes [DERFilter],
    parses, and passes [Filter], duplicates included, in the order of
    arrival. *)
Theorem consumer_calls_all_without_cacher {libs : Libs} (s : Search)
    (inputs : list bytes) :
  MatchCacher s = None ->
  snd (consumer_run s inputs) = Some None
  /\ calls (fst (consumer_run s inputs)) = omap (accepted s) inputs.
Proof.
  intros Hnil. unfold consumer_run. rewrite consumer_loop_recv.
  cbn [consumer_loop fst snd]. split; [reflexivity |].
  replace (matches_of s) with NopCacher
    by (unfold matches_of; rewrite Hnil; reflexivity).
  assert (forall called lines,
            calls (foldl (fun c der => receive s der c)
                     (mkConsumer NopCacher called lines) inputs)
            = called ++ omap (accepted s) inputs) as Hgen;
    [| exact (Hgen [] [])].
  induction inputs as [|der inputs IH]; intros called lines.
  { cbn. rewrite app_nil_r. reflexivity. }
  cbn [foldl omap list_omap]. unfold receive at 2, accepted.
  destruct (derFilter_of s der); cbn [negb]; [| apply IH].
  destruct (ParseCertificate der) as [cert|err]; [| apply IH].
  destruct (filter_of s cert); cbn [negb Cache matches calls stderr];
    [| apply IH].
  rewrite IH, <- app_assoc. reflexivity.
Qed.

Lemma consumer_calls_all_without_cacher_witness :
  calls (fst (consumer_run
                (mkSearch (libs := demo_libs) None (Some (fun _ => true))
                   (Some (fun _ => tt)) [Return None] None
                   ErrorBehaviorCancel)
                [cert_A; cert_B; cert_B; cert_C]))
  = [cert_A; cert_B; cert_B; cert_C].
Proof.
  rewrite (proj2 (consumer_calls_all_without_cacher (libs := demo_libs)
                    (mkSearch (libs := demo_libs) None (Some (fun _ => true))
                       (Some (fun _ => tt)) [Return None] None
                       ErrorBehaviorCancel)
                    [cert_A; cert_B; cert_B; cert_C] eq_refl)).
  reflexivity.
Defined.

(* ================================================================== *)
(** * Further properties of tile paths and checkpoints *)
(* ================================================================== *)

Import Notions.
Import SearchNotions.

Lemma has_byte_app (c : ascii) (s t : string) :
  has_byte c (s +:+ t) = has_byte c s || has_byte c t.
Proof.
  induction s as [|a s IH]; [reflexivity |].
  rewrite app_String. cbn [has_byte]. rewrite IH, orb_assoc. reflexivity.
Qed.

Lemma digit_char_not_minus (d : Z) :
  0 <= d < 10 -> bool_decide (digit_char d = "-"%char) = false.
Proof.
  intros Hd. apply bool_decide_eq_false_2. intros Heq.
  pose proof (digit_val_char d Hd) as Hv. rewrite Heq in Hv. discriminate.
Qed.

Lemma three_digits_no_minus (g : Z) :
  0 <= g < 1000 -> has_byte "-" (three_digits g) = false.
Proof.
  intros Hg. unfold three_digits. cbn [has_byte].
  rewrite !digit_char_not_minus; [reflexivity | | |].
  - apply Z.mod_pos_bound; lia.
  - apply Z.mod_pos_bound; lia.
  - split; [apply Z.div_pos; lia | apply Z.div_lt_upper_bound; lia].
Qed.

Lemma x_segments_no_minus (gs : list Z) :
  Forall (fun g => 0 <= g < 1000) gs ->
  has_byte "-" (join (x_segment <$> gs)) = false.
Proof.
  induction 1 as [|g gs Hg Hf IH]; [reflexivity |].
  change (join (x_segment <$> g :: gs))
    with (x_segment g +:+ join (x_segment <$> gs)).
  unfold x_segment at 1.
  rewrite !has_byte_app, IH, three_digits_no_minus by exact Hg.
  reflexivity.
Qed.

(** The shape of the path of a non-negative index. *)
Lemma TilePathFromIndex_shape (I : Z) :
  0 <= I ->
  exists gs,
    base1000 (I / 1000) gs
    /\ TilePathFromIndex I
       = join (x_segment <$> gs) +:+ three_digits (I mod 1000).
Proof.
  intros HI. unfold TilePathFromIndex.
  rewrite Z.quot_div_nonneg, Z.rem_mod_nonneg by lia.
  assert (0 <= I / 1000) as Hq by (apply Z.div_pos; lia).
  pose proof (bits_bound (I / 1000)) as Hb. rewrite Z.abs_eq in Hb by exact Hq.
  destruct (TilePathFromIndex_loop_spec (bits (I / 1000)) (I / 1000)
              (conj Hq Hb) (fmt.Sprintf_03d (I mod 1000)))
    as (gs & Hgs & Heq).
  exists gs. split; [exact Hgs |].
  rewrite Heq, Sprintf_03d_three_digits by (apply Z.mod_pos_bound; lia).
  reflexivity.
Qed.

(** Decoding the path of a non-negative index gives the index. *)
Lemma IndexFromTilePath_TilePathFromIndex (I : Z) :
  0 <= I -> IndexFromTilePath (TilePathFromIndex I) = Some I.
Proof.
  intros HI. destruct (TilePathFromIndex_shape I HI) as (gs & Hgs & ->).
  destruct (base1000_value _ _ Hgs ltac:(apply Z.div_pos; lia)) as [Hv Hf].
  unfold IndexFromTilePath.
  rewrite IndexFromTilePath_go_segments by exact Hf. rewrite Hv.
  destruct (digits3_three_digits (I mod 1000)
              ltac:(apply Z.mod_pos_bound; lia)) as (a & b & c & -> & Hd).
  cbn [IndexFromTilePath_go]. rewrite Hd. f_equal.
  pose proof (Z.div_mod I 1000 ltac:(lia)). lia.
Qed.

Lemma TilePathFromIndex_no_minus (I : Z) :
  0 <= I -> has_byte "-" (TilePathFromIndex I) = false.
Proof.
  intros HI. destruct (TilePathFromIndex_shape I HI) as (gs & Hgs & ->).
  destruct (base1000_value _ _ Hgs ltac:(apply Z.div_pos; lia)) as [_ Hf].
  rewrite has_byte_app, x_segments_no_minus by exact Hf.
  apply three_digits_no_minus, Z.mod_pos_bound. lia.
Qed.

(** What [%03d] prints for a negative number starts with the sign. *)
Lemma Sprintf_03d_negative (v : Z) :
  v < 0 -> has_byte "-" (fmt.Sprintf_03d v) = true.
Proof.
  intros Hv. unfold fmt.Sprintf_03d.
  destruct (Z.ltb_spec v 0); [reflexivity | lia].
Qed.

(** The path the loop starts from is the end of the path it returns. *)
Lemma TilePathFromIndex_loop_suffix (fuel : nat) (path : string) (r : Z) :
  exists front, TilePathFromIndex_loop fuel path r = front +:+ path.
Proof.
  revert path r. induction fuel as [|fuel IH]; intros path r.
  { exists "". reflexivity. }
  cbn [TilePathFromIndex_loop]. destruct (bool_decide (r <> 0)).
  - destruct (IH ("x" +:+ fmt.Sprintf_03d (Z.rem r 1000) +:+ "/" +:+ path)
                (r ÷ 1000)) as [front ->].
    exists (front +:+ "x" +:+ fmt.Sprintf_03d (Z.rem r 1000) +:+ "/").
    rewrite !app_assoc_str. reflexivity.
  - exists "". reflexivity.
Qed.

Lemma TilePathFromIndex_loop_keeps_minus (fuel : nat) (path : string) (r : Z) :
  has_byte "-" path = true ->
  has_byte "-" (TilePathFromIndex_loop fuel path r) = true.
Proof.
  intros Hp. destruct (TilePathFromIndex_loop_suffix fuel path r) as [front ->].
  rewrite has_byte_app, Hp. apply orb_true_r.
Qed.

Lemma TilePathFromIndex_loop_negative (fuel : nat) (path : string) (r : Z) :
  r < 0 -> Z.abs r < 2 ^ Z.of_nat fuel ->
  has_byte "-" (TilePathFromIndex_loop fuel path r) = true.
Proof.
  revert path r. induction fuel as [|fuel IH]; intros path r Hr Hb.
  { change (2 ^ Z.of_nat 0) with 1 in Hb. lia. }
  cbn [TilePathFromIndex_loop].
  rewrite bool_decide_eq_true_2 by lia.
  destruct (Z.eq_dec (Z.rem r 1000) 0) as [Hz|Hnz].
  - pose proof (Z.quot_rem' r 1000) as Hqr.
    rewrite Nat2Z.inj_succ, Z.pow_succ_r in Hb by lia.
    apply IH; [lia |].
    assert (Z.abs r = 1000 * Z.abs (r ÷ 1000)) by lia. lia.
  - apply TilePathFromIndex_loop_keeps_minus.
    rewrite !has_byte_app, Sprintf_03d_negative; [reflexivity |].
    pose proof (Z.rem_bound_pos_neg r 1000 ltac:(lia) ltac:(lia)). lia.
Qed.

(** Distinct non-negative indices have distinct tile paths. *)
Theorem TilePathFromIndex_injective (I J : Z) :
  0 <= I -> 0 <= J -> TilePathFromIndex I = TilePathFromIndex J -> I = J.
Proof.
  intros HI HJ Heq.
  pose proof (IndexFromTilePath_TilePathFromIndex I HI) as H1.
  pose proof (IndexFromTilePath_TilePathFromIndex J HJ) as H2.
  rewrite Heq, H2 in H1. injection H1 as ->. reflexivity.
Qed.

Lemma TilePathFromIndex_injective_witness :
  TilePathFromIndex 1000 <> TilePathFromIndex 1.
Proof.
  intros Heq.
  pose proof (TilePathFromIndex_injective 1000 1 ltac:(lia) ltac:(lia) Heq).
  discriminate.
Defined.

(** A negative index is not refused: its path holds a minus sign, which the
    path of no non-negative index does. *)
Theorem TilePathFromIndex_negative (I : Z) :
  I < 0 ->
  has_byte "-" (TilePathFromIndex I) = true
  /\ forall J, 0 <= J -> TilePathFromIndex J <> TilePathFromIndex I.
Proof.
  intros HI.
  assert (has_byte "-" (TilePathFromIndex I) = true) as Hminus.
  { unfold TilePathFromIndex.
    destruct (Z.eq_dec (Z.rem I 1000) 0) as [Hz|Hnz].
    - pose proof (Z.quot_rem' I 1000) as Hqr.
      apply TilePathFromIndex_loop_negative; [lia |].
      pose proof (bits_bound (I ÷ 1000)). lia.
    - apply TilePathFromIndex_loop_keeps_minus, Sprintf_03d_negative.
      pose proof (Z.rem_bound_pos_neg I 1000 ltac:(lia) ltac:(lia)). lia. }
  split; [exact Hminus |].
  intros J HJ Heq. rewrite <- Heq, TilePathFromIndex_no_minus in Hminus by exact HJ.
  discriminate.
Qed.

Lemma TilePathFromIndex_negative_witness :
  TilePathFromIndex (-1) = "-01"
  /\ TilePathFromIndex (-1000) = "x-01/000"
  /\ has_byte "-" (TilePathFromIndex (-1000)) = true.
Proof.
  split; [reflexivity |]. split; [reflexivity |].
  exact (proj1 (TilePathFromIndex_negative (-1000) ltac:(lia))).
Defined.

Lemma Count_app (s t : string) (c : ascii) :
  strings.Count (s +:+ t) c = strings.Count s c + strings.Count t c.
Proof.
  induction s as [|a s IH]; [reflexivity |].
  rewrite app_String. cbn [strings.Count]. rewrite IH. lia.
Qed.

Lemma first_line_app (s t : string) :
  strings.Count s newline = 0 -> first_line (s +:+ String newline t) = s.
Proof.
  induction s as [|a s IH]; cbn [strings.Count]; intros Hc.
  - cbn. destruct (decide (newline = newline)); [reflexivity | contradiction].
  - rewrite app_String. cbn [first_line].
    pose proof (Count_nonneg s newline).
    destruct (decide (a = newline)); [lia |]. rewrite IH by lia. reflexivity.
Qed.

Lemma drop_line_app (s t : string) :
  strings.Count s newline = 0 -> drop_line (s +:+ String newline t) = t.
Proof.
  induction s as [|a s IH]; cbn [strings.Count]; intros Hc.
  - cbn. destruct (decide (newline = newline)); [reflexivity | contradiction].
  - rewrite app_String. cbn [drop_line].
    pose proof (Count_nonneg s newline).
    destruct (decide (a = newline)); [lia |]. apply IH. lia.
Qed.

(** The lines of a checkpoint text whose first three lines hold no
    newline. *)
Lemma checkpoint_text_lines (origin size hash rest : string) :
  strings.Count origin newline = 0 ->
  strings.Count size newline = 0 ->
  strings.Count hash newline = 0 ->
  3 <= strings.Count (checkpoint_text origin size hash rest) newline
  /\ line 2 (checkpoint_text origin size hash rest) = size
  /\ line 3 (checkpoint_text origin size hash rest) = hash.
Proof.
  intros Ho Hs Hh. unfold checkpoint_text, line.
  cbn [Nat.iter Nat.sub nat_rect].
  rewrite !drop_line_app, !first_line_app by assumption.
  split; [| split; reflexivity].
  rewrite Count_app. cbn [strings.Count].
  rewrite Count_app. cbn [strings.Count].
  rewrite Count_app. cbn [strings.Count].
  destruct (decide (newline = newline)); [| contradiction].
  pose proof (Count_nonneg rest newline). lia.
Qed.

Lemma digit_char_not_newline (d : Z) :
  0 <= d < 10 -> digit_char d <> newline.
Proof.
  intros Hd Heq.
  pose proof (digit_val_char d Hd) as Hv. rewrite Heq in Hv. discriminate.
Qed.

(** A printed number holds no newline. *)
Lemma Count_FormatUint (n : Z) :
  0 <= n -> strings.Count (FormatUint n) newline = 0.
Proof.
  intros Hn. generalize Hn. pattern n.
  apply Z_lt_induction; [| lia]. clear n Hn. intros n IH Hn.
  destruct (Z_lt_dec n 10) as [Hlt|Hge].
  - rewrite FormatUint_small by exact Hlt. cbn [strings.Count].
    destruct (decide (digit_char n = newline)) as [Heq|]; [| reflexivity].
    destruct (digit_char_not_newline n ltac:(lia) Heq).
  - rewrite FormatUint_step by lia.
    assert (0 <= n / 10 < n) as Hd.
    { split; [apply Z.div_pos; lia | apply Z.div_lt; lia]. }
    rewrite Count_app, (IH (n / 10)) by lia. cbn [strings.Count].
    destruct (decide (digit_char (n mod 10) = newline)) as [Heq|]; [| reflexivity].
    destruct (digit_char_not_newline (n mod 10)
                ltac:(apply Z.mod_pos_bound; lia) Heq).
Qed.

(** A tree size within [int64] is read back from the checkpoint that holds
    its decimal, whatever the origin line and the signature lines are. *)
Theorem TreeSizeFromCheckpoint_roundtrip (origin hash rest : string) (n : Z)
    (root : bytes) :
  0 <= n <= maxInt64 ->
  strings.Count origin newline = 0 ->
  strings.Count hash newline = 0 ->
  base64.DecodeString hash = Some root ->
  length root = 32%nat ->
  len (checkpoint_text origin (FormatInt n) hash rest) <= 1000000 ->
  TreeSizeFromCheckpoint (checkpoint_text origin (FormatInt n) hash rest)
  = (n, None).
Proof.
  intros Hn Ho Hh Hdec Hlen Hsize.
  assert (FormatInt n = FormatUint n) as Hfmt
    by (unfold FormatInt; destruct (Z.ltb_spec n 0); [lia | reflexivity]).
  rewrite Hfmt in *.
  destruct (checkpoint_text_lines origin (FormatUint n) hash rest Ho
              (Count_FormatUint n ltac:(lia)) Hh) as (Hc & Hl2 & Hl3).
  apply TreeSizeFromCheckpoint_eq. unfold accepted_checkpoint.
  rewrite Hl2, Hl3.
  split; [exact Hc |]. split; [exact Hsize |].
  split; [apply FormatUint_canonical; lia |]. split; [lia |].
  exists root. split; assumption.
Qed.

Lemma TreeSizeFromCheckpoint_roundtrip_witness :
  TreeSizeFromCheckpoint
    (checkpoint_text "log.example" (FormatInt 9223372036854775807)
       "AAAAAAAAAAAAAAAAAAAAAAAAAAAAAAAAAAAAAAAAAAA="
       "signature line")
  = (9223372036854775807, None).
Proof.
  apply (TreeSizeFromCheckpoint_roundtrip "log.example"
           "AAAAAAAAAAAAAAAAAAAAAAAAAAAAAAAAAAAAAAAAAAA=" "signature line"
           9223372036854775807 (replicate 32 Byte.x00));
    [unfold maxInt64; lia | reflexivity | reflexivity
    | vm_compute; reflexivity | reflexivity | vm_compute; discriminate].
Defined.

(** The origin line and what follows the third newline are not examined:
    two checkpoints within the size limit that agree on their second and
    third lines get the same result. *)
Theorem TreeSizeFromCheckpoint_reads_two_lines
    (origin origin' size hash rest rest' : string) :
  strings.Count origin newline = 0 ->
  strings.Count origin' newline = 0 ->
  strings.Count size newline = 0 ->
  strings.Count hash newline = 0 ->
  len (checkpoint_text origin size hash rest) <= 1000000 ->
  len (checkpoint_text origin' size hash rest') <= 1000000 ->
  TreeSizeFromCheckpoint (checkpoint_text origin size hash rest)
  = TreeSizeFromCheckpoint (checkpoint_text origin' size hash rest').
Proof.
  intros Ho Ho' Hs Hh Hlen Hlen'.
  destruct (checkpoint_text_lines origin size hash rest Ho Hs Hh)
    as (Hc & Hl2 & Hl3).
  destruct (checkpoint_text_lines origin' size hash rest' Ho' Hs Hh)
    as (Hc' & Hl2' & Hl3').
  unfold TreeSizeFromCheckpoint.
  rewrite (SplitN_lines _ Hc), (SplitN_lines _ Hc').
  destruct (Z.ltb_spec (strings.Count (checkpoint_text origin size hash rest)
                          newline) 3); [lia |].
  destruct (Z.ltb_spec (strings.Count (checkpoint_text origin' size hash rest')
                          newline) 3); [lia |].
  destruct (Z.ltb_spec 1000000 (len (checkpoint_text origin size hash rest)));
    [lia |].
  destruct (Z.ltb_spec 1000000 (len (checkpoint_text origin' size hash rest')));
    [lia |].
  cbn [orb].
  set (text := checkpoint_text origin size hash rest) in *.
  set (text' := checkpoint_text origin' size hash rest') in *.
  change ([line 1 text; line 2 text; line 3 text;
           drop_line (drop_line (drop_line text))] !!! 1%nat)
    with (line 2 text).
  change ([line 1 text; line 2 text; line 3 text;
           drop_line (drop_line (drop_line text))] !!! 2%nat)
    with (line 3 text).
  change ([line 1 text'; line 2 text'; line 3 text';
           drop_line (drop_line (drop_line text'))] !!! 1%nat)
    with (line 2 text').
  change ([line 1 text'; line 2 text'; line 3 text';
           drop_line (drop_line (drop_line text'))] !!! 2%nat)
    with (line 3 text').
  rewrite Hl2, Hl3, Hl2', Hl3'. reflexivity.
Qed.

Lemma TreeSizeFromCheckpoint_reads_two_lines_witness :
  TreeSizeFromCheckpoint
    (checkpoint_text "log.example" "1000"
       "AAAAAAAAAAAAAAAAAAAAAAAAAAAAAAAAAAAAAAAAAAA=" "")
  = TreeSizeFromCheckpoint
      (checkpoint_text "" "1000"
         "AAAAAAAAAAAAAAAAAAAAAAAAAAAAAAAAAAAAAAAAAAA=" "not a signature")
  /\ TreeSizeFromCheckpoint
       (checkpoint_text "" "1000"
          "AAAAAAAAAAAAAAAAAAAAAAAAAAAAAAAAAAAAAAAAAAA=" "not a signature")
     = (1000, None).
Proof.
  split; [| vm_compute; reflexivity].
  apply TreeSizeFromCheckpoint_reads_two_lines;
    [reflexivity | reflexivity | reflexivity | reflexivity
    | vm_compute; discriminate | vm_compute; discriminate].
Defined.

(* ================================================================== *)
(** * Further properties of the log client *)
(* ================================================================== *)

(** A log made by [NewLog] fetches its tiles under the default policy: up to
    4 retries, at most 1 second between them, 5 seconds overall; and [NewLog]
    fails only with the error of [url.Parse], handed on as it is. *)
Theorem NewLog_default_policy {net : Net}
    (url_Parse : string -> string * option error) (metricsEndpoint : string) :
  match NewLog url_Parse metricsEndpoint with
  | (Some l, None) =>
      MetricsEndpoint l = fst (url_Parse metricsEndpoint)
      /\ forall ctx tileIndex w,
           GetTileEntriesWithBackoff l ctx tileIndex w
           = RetryWithData (mkBackOff (5 * Second) (1 * Second) 4) ctx
               (GetTileEntries l ctx tileIndex) w
  | (None, Some e) => snd (url_Parse metricsEndpoint) = Some e
  | _ => False
  end.
Proof.
  unfold NewLog. destruct (url_Parse metricsEndpoint) as [endpointUrl [e|]];
    [reflexivity |].
  split; reflexivity.
Qed.

(** The cap on the retries that [GetTileEntriesWithBackoff] hands to the
    back-off library never wraps around: for an [int] number of attempts it
    lies between 0 and [2^63 - 2], it is the number of attempts less one
    when the log's policy is valid and 4 otherwise; and the maximal interval
    is positive and below the overall timeout. *)
Theorem GetTileEntriesWithBackoff_retries {net : Net} (l : Log) (ctx : Ctx)
    (tileIndex : Z) (w : World) :
  MaxAttempts (TileRetry l) <= maxInt64 ->
  exists bo,
    GetTileEntriesWithBackoff l ctx tileIndex w
    = RetryWithData bo ctx (GetTileEntries l ctx tileIndex) w
    /\ 0 <= WithMaxRetries bo <= maxInt64 - 1
    /\ WithMaxRetries bo
       = (if bool_decide (Validate (TileRetry l) = None)
          then MaxAttempts (TileRetry l) - 1 else 4)
    /\ 0 < WithMaxInterval bo < WithMaxElapsedTime bo.
Proof.
  intros Hint. unfold GetTileEntriesWithBackoff.
  destruct (bool_decide (Validate (TileRetry l) = None)) eqn:Hvalid.
  - apply bool_decide_eq_true in Hvalid. apply Validate_None_iff in Hvalid.
    unfold retry_rejected in Hvalid.
    eexists. split; [reflexivity |].
    unfold createBackoff, uint64, maxInt64 in *.
    cbn [WithMaxRetries WithMaxInterval WithMaxElapsedTime].
    rewrite (Z.mod_small (MaxAttempts (TileRetry l))) by lia.
    rewrite Z.mod_small by lia. lia.
  - eexists. split; [reflexivity |]. vm_compute. repeat split; congruence.
Qed.

Lemma GetTileEntriesWithBackoff_retries_witness :
  exists bo,
    GetTileEntriesWithBackoff (net := Demo.demo_net)
      (mkLog Demo.demo_endpoint (mkRetry 1 Second (2 * Second))) None 0 []
    = RetryWithData (Net := Demo.demo_net) bo None
        (GetTileEntries (net := Demo.demo_net)
           (mkLog Demo.demo_endpoint (mkRetry 1 Second (2 * Second))) None 0)
        []
    /\ WithMaxRetries bo = 0.
Proof.
  destruct (GetTileEntriesWithBackoff_retries (net := Demo.demo_net)
              (mkLog Demo.demo_endpoint (mkRetry 1 Second (2 * Second)))
              None 0 [] ltac:(vm_compute; discriminate))
    as (bo & Heq & _ & Hretries & _).
  exists bo. split; [exact Heq | exact Hretries].
Defined.

(** [GetTileEntries] returns all or nothing: with an error no entries (a nil
    slice), and without one exactly 256 entries, none of them nil. *)
Theorem GetTileEntries_all_or_nothing {net : Net} (l : Log) (ctx : Ctx)
    (tileIndex : Z) (w : World) :
  match GetTileEntries l ctx tileIndex w with
  | ((entries, Some _), _) => entries = []
  | ((entries, None), _) =>
      exists es, entries = Some <$> es /\ length es = 256%nat
  end.
Proof.
  destruct (GetTileEntries l ctx tileIndex w) as [[entries [e|]] w'] eqn:Hget;
    [| exact (GetTileEntries_shape _ _ _ _ _ _ Hget)].
  revert Hget. unfold GetTileEntries.
  destruct (NewRequestWithContext _ _ _) as [request [e1|]];
    [intros Heq; injection Heq as <- _ _; reflexivity |].
  destruct (http_Do _ _) as [[response [e2|]] w1];
    [intros Heq; injection Heq as <- _ _; reflexivity |].
  destruct (bool_decide _);
    [intros Heq; injection Heq as <- _ _; reflexivity |].
  destruct (tileBody response) as [tileData [e3|]];
    [intros Heq; injection Heq as <- _ _; reflexivity |].
  destruct (read_records 256 tileData) as [[es rest]|] eqn:Hr.
  - rewrite (readLeaves_records 256 0 tileData _ es rest Hr)
      by (rewrite length_replicate; reflexivity).
    discriminate.
  - destruct (readLeaves_failure 256 0 tileData (replicate 256 None) Hr)
      as [e4 ->].
    intros Heq; injection Heq as <- _ _; reflexivity.
Qed.

(** A tile body with fewer than 256 well-formed leaf records (a partial
    tile, a truncated body) is refused as a whole: the entries read before
    the bad record are dropped, and the error of [sunlight.ReadTileLeaf] is
    returned behind "reading entry from tile: ". *)
Theorem GetTileEntries_partial_tile {net : Net} (l : Log) (ctx : Ctx)
    (tileIndex : Z) (w w' : World) (request : Request Ctx)
    (response : Response) (tileData : bytes) :
  NewRequestWithContext ctx "GET"
    (url_JoinPath (MetricsEndpoint l)
       ("/tile/data/" +:+ TilePathFromIndex tileIndex)) = (request, None) ->
  http_Do (Header_Add_AcceptEncoding request "gzip, identity") w
    = ((response, None), w') ->
  StatusCode response = 200 ->
  tileBody response = (tileData, None) ->
  read_records 256 tileData = None ->
  exists e,
    GetTileEntries l ctx tileIndex w
    = (([], Some (Errorf_w "reading entry from tile: " e)), w').
Proof.
  intros Hreq Hdo Hstatus Hbody Hrec.
  unfold GetTileEntries. rewrite Hreq, Hdo.
  rewrite bool_decide_eq_false_2 by (intros Hne; apply Hne, Hstatus).
  rewrite Hbody.
  destruct (readLeaves_failure 256 0 tileData (replicate 256 None) Hrec)
    as [e ->].
  exists e. reflexivity.
Qed.

Lemma GetTileEntries_partial_tile_witness :
  read_records (net := partial_tile_net) 100
    (flat_map (Demo.demo_leaf 0) (seqZ 0 100))
  = Some (take 100 (Demo.demo_entries 0), [])
  /\ exists e,
       GetTileEntries (net := partial_tile_net) Demo.demo_log tt 0 []
       = (([], Some (Errorf_w "reading entry from tile: " e)),
          ["https://log.example/tile/data/000"]).
Proof.
  split; [vm_compute; reflexivity |].
  apply (GetTileEntries_partial_tile (net := partial_tile_net) Demo.demo_log
           tt 0 [] ["https://log.example/tile/data/000"]
           (mkRequest tt "GET" "https://log.example/tile/data/000" [])
           (Demo.demo_response 200 "200 OK"
              (flat_map (Demo.demo_leaf 0) (seqZ 0 100)))
           (flat_map (Demo.demo_leaf 0) (seqZ 0 100)));
    [reflexivity | reflexivity | reflexivity | reflexivity
    | vm_compute; reflexivity].
Defined.

(** [GetLastFullTileIndex] returns -1 with every error, whichever of its
    steps fails; and for a response with status 200 whose body is a
    checkpoint that is accepted with tree size [n], it returns [n / 256],
    the number of tiles of 256 entries that a tree of [n] entries fills. *)
Theorem GetLastFullTileIndex_checkpoint {net : Net} (l : Log) (ctx : Ctx)
    (w : World) :
  (forall index e w',
      GetLastFullTileIndex l ctx w = ((index, Some e), w') -> index = -1)
  /\ (forall request response w' n,
        NewRequestWithContext ctx "GET"
          (url_JoinPath (MetricsEndpoint l) "/checkpoint") = (request, None) ->
        http_Do request w = ((response, None), w') ->
        StatusCode response = 200 ->
        stream_err (Body response) = None ->
        accepted_checkpoint
          (String.string_of_list_byte (stream_data (Body response))) n ->
        GetLastFullTileIndex l ctx w = ((n / 256, None), w')
        /\ 256 * (n / 256) <= n < 256 * (n / 256 + 1)).
Proof.
  split.
  - intros index e w'. unfold GetLastFullTileIndex.
    destruct (NewRequestWithContext _ _ _) as [request [e0|]];
      [intros Heq; injection Heq as <- _ _; reflexivity |].
    destruct (http_Do request w) as [[response [e0|]] w0];
      [intros Heq; injection Heq as <- _ _; reflexivity |].
    destruct (bool_decide _); [intros Heq; injection Heq as <- _ _; reflexivity |].
    destruct (ReadAll _) as [checkpointData [e1|]];
      [intros Heq; injection Heq as <- _ _; reflexivity |].
    destruct (TreeSizeFromCheckpoint _) as [treeSize [e2|]];
      [intros Heq; injection Heq as <- _ _; reflexivity | discriminate].
  - intros request response w' n Hreq Hdo Hstatus Hbody Hacc.
    pose proof Hacc as Hacc'.
    apply TreeSizeFromCheckpoint_eq in Hacc.
    destruct Hacc' as (_ & _ & (_ & Hv & _) & _).
    apply digits_value_ge in Hv; [| lia].
    split.
    + unfold GetLastFullTileIndex. rewrite Hreq, Hdo.
      rewrite bool_decide_eq_false_2 by (intros Hne; apply Hne, Hstatus).
      unfold ReadAll. rewrite Hbody, Hacc.
      rewrite Z.quot_div_nonneg by lia. reflexivity.
    + pose proof (Z.div_mod n 256 ltac:(lia)).
      pose proof (Z.mod_pos_bound n 256 ltac:(lia)). lia.
Qed.

Lemma GetLastFullTileIndex_checkpoint_witness :
  GetLastFullTileIndex (net := Demo.demo_net) Demo.demo_log None []
  = ((1000 / 256, None), ["https://log.example/checkpoint"])
  /\ 256 * (1000 / 256) <= 1000 < 256 * (1000 / 256 + 1).
Proof.
  apply (proj2 (GetLastFullTileIndex_checkpoint (net := Demo.demo_net)
                  Demo.demo_log None [])
           (mkRequest None "GET" "https://log.example/checkpoint" [])
           (Demo.demo_serve "https://log.example/checkpoint")
           ["https://log.example/checkpoint"] 1000);
    [reflexivity | reflexivity | reflexivity | reflexivity |].
  apply TreeSizeFromCheckpoint_eq. vm_compute. reflexivity.
Defined.

(* ================================================================== *)
(** * Further properties of the search for the tile of a time *)
(* ================================================================== *)

Section SearchMore.

Context {net : Net}.

Lemma UnixMilli_le (a b : Z) : a <= b -> UnixMilli a <= UnixMilli b.
Proof. unfold UnixMilli. lia. Qed.

(** The loop does not panic: the entries it indexes are 256. *)
Lemma GetTileIndexFromTime_loop_no_panic (fuel : nat) (l : Log) (ctx : Ctx)
    (t : Time) (s e : Z) (w : World) :
  GetTileIndexFromTime_loop fuel l ctx t s e w <> Panic.
Proof.
  revert s e w. induction fuel as [|fuel IH]; intros s e w;
    cbn [GetTileIndexFromTime_loop].
  { destruct (s <=? e); discriminate. }
  destruct (s <=? e); [| discriminate].
  destruct (GetTileEntries l ctx (wrap64 (s + e) ÷ 2) w)
    as [[entries [err|]] w'] eqn:Hget; [discriminate |].
  destruct (GetTileEntries_shape _ _ _ _ _ _ Hget) as (es & -> & Hlen).
  destruct (entries_first_last es Hlen) as (first & last & -> & ->).
  destruct (Before _ _); [apply IH |].
  destruct (After _ _); [apply IH | discriminate].
Qed.

(** The tile the loop returns is the one it fetched last, and the time lies
    within the entries it got. *)
Lemma GetTileIndexFromTime_loop_fetched (fuel : nat) (l : Log) (ctx : Ctx)
    (t : Time) (s e : Z) (w w' : World) (p : Z) :
  GetTileIndexFromTime_loop fuel l ctx t s e w = Done ((p, None), w') ->
  exists w0 es first last,
    GetTileEntries l ctx p w0 = ((Some <$> es, None), w')
    /\ es !! 0%nat = Some first /\ es !! 255%nat = Some last
    /\ within (Timestamp first) (Timestamp last) t.
Proof.
  revert s e w. induction fuel as [|fuel IH]; intros s e w;
    cbn [GetTileIndexFromTime_loop].
  { destruct (s <=? e); discriminate. }
  destruct (s <=? e); [| discriminate].
  destruct (GetTileEntries l ctx (wrap64 (s + e) ÷ 2) w)
    as [[entries [err|]] w1] eqn:Hget; [discriminate |].
  destruct (GetTileEntries_shape _ _ _ _ _ _ Hget) as (es & -> & Hlen).
  destruct (lookup_lt_is_Some_2 es 0) as [first Hf]; [lia |].
  destruct (lookup_lt_is_Some_2 es 255) as [last Hl]; [lia |].
  rewrite !list_lookup_fmap, Hf, Hl. cbn [fmap option_fmap option_map].
  unfold Before, After.
  destruct (Z.ltb_spec t (UnixMilli (Timestamp first))); [apply IH |].
  destruct (Z.ltb_spec (UnixMilli (Timestamp last)) t); [apply IH |].
  intros Heq. injection Heq as <- <-.
  exists w, es, first, last. unfold within. auto.
Qed.

Section Static.

Variables (l : Log) (ctx : Ctx) (t : Time) (first last : Z -> Z).
Variables (low high : Z).
Hypothesis Hserved :
  forall i, low <= i <= high -> serves_tile l ctx i (first i) (last i).
Hypothesis Hlow : 0 <= low.
Hypothesis Hhigh : high < 2 ^ 62.

(** The loop on a log that serves its tiles: the tile it returns holds the
    time; it gives up only with "timestamp doesn't fall within the time
    bounds", and on tiles in sequential order only when no tile of the
    interval holds the time. *)
Lemma GetTileIndexFromTime_loop_static (fuel : nat) (s e : Z) (w : World) :
  low <= s -> e <= high ->
  match GetTileIndexFromTime_loop fuel l ctx t s e w with
  | Done ((p, None), _) => s <= p <= e /\ within (first p) (last p) t
  | Done ((p, Some err), _) =>
      p = -1 /\ err = not_in_log
      /\ (sequential first last low high ->
          forall i, s <= i <= e -> ~ within (first i) (last i) t)
  | Panic => False
  | OutOfFuel => 2 ^ Z.of_nat fuel <= e - s + 1
  end.
Proof.
  revert s e w. induction fuel as [|fuel IH]; intros s e w Hs He;
    cbn [GetTileIndexFromTime_loop].
  { destruct (Z.leb_spec s e); [change (2 ^ Z.of_nat 0) with 1; lia |].
    split; [reflexivity |]. split; [reflexivity |]. intros _ i Hi. lia. }
  destruct (Z.leb_spec s e) as [Hse|Hse];
    [| split; [reflexivity |]; split; [reflexivity |]; intros _ i Hi; lia].
  destruct (pivot_midpoint s e ltac:(lia) Hse ltac:(lia)) as (-> & Hp & -> & ->).
  set (p := (s + e) / 2) in *.
  destruct (Hserved p ltac:(lia) w)
    as (entries & w' & e0 & e255 & -> & -> & H0 & -> & H255).
  rewrite H0, H255. unfold Before, After.
  rewrite Nat2Z.inj_succ, Z.pow_succ_r by lia.
  pose proof (Z.div_mod (s + e) 2 ltac:(lia)) as Hdm.
  pose proof (Z.mod_pos_bound (s + e) 2 ltac:(lia)) as Hmb.
  fold p in Hdm.
  destruct (Z.ltb_spec t (UnixMilli (first p))) as [Hbefore|Hnb].
  { specialize (IH s (p - 1) w' Hs ltac:(lia)).
    destruct (GetTileIndexFromTime_loop fuel l ctx t s (p - 1) w')
      as [[[q [err|]] w'']| |]; [| | exact IH | lia].
    - destruct IH as (-> & -> & Hnone).
      split; [reflexivity |]. split; [reflexivity |].
      intros Hseq i Hi Hin.
      destruct (Z_le_gt_dec i (p - 1)) as [Hle|Hgt];
        [exact (Hnone Hseq i ltac:(lia) Hin) |].
      destruct Hseq as [Hin_tile Hacross]. unfold within in Hin.
      assert (first p <= first i) as Hfi.
      { destruct (Z.eq_dec i p) as [->|Hne]; [lia |].
        pose proof (Hin_tile p ltac:(lia)).
        pose proof (Hacross p i ltac:(lia) ltac:(lia) ltac:(lia)). lia. }
      apply UnixMilli_le in Hfi. lia.
    - destruct IH as [Hq Hin]. split; [lia | exact Hin]. }
  destruct (Z.ltb_spec (UnixMilli (last p)) t) as [Hafter|Hna].
  { specialize (IH (p + 1) e w' ltac:(lia) He).
    destruct (GetTileIndexFromTime_loop fuel l ctx t (p + 1) e w')
      as [[[q [err|]] w'']| |]; [| | exact IH | lia].
    - destruct IH as (-> & -> & Hnone).
      split; [reflexivity |]. split; [reflexivity |].
      intros Hseq i Hi Hin.
      destruct (Z_le_gt_dec (p + 1) i) as [Hle|Hgt];
        [exact (Hnone Hseq i ltac:(lia) Hin) |].
      destruct Hseq as [Hin_tile Hacross]. unfold within in Hin.
      assert (last i <= last p) as Hli.
      { destruct (Z.eq_dec i p) as [->|Hne]; [lia |].
        pose proof (Hin_tile p ltac:(lia)).
        pose proof (Hacross i p ltac:(lia) ltac:(lia) ltac:(lia)). lia. }
      apply UnixMilli_le in Hli. lia.
    - destruct IH as [Hq Hin]. split; [lia | exact Hin]. }
  split; [lia |]. unfold within. lia.
Qed.

End Static.

End SearchMore.

(** The demo log serves its four tiles under a context that is never
    cancelled; entry [j] of tile [i] was logged at millisecond
    [256 * i + j]. *)
Lemma demo_serves_tile (i : Z) :
  0 <= i <= 3 ->
  serves_tile (net := Demo.demo_net) Demo.demo_log None i
    (256 * i) (256 * i + 255).
Proof.
  intros Hi w.
  assert (i = 0 \/ i = 1 \/ i = 2 \/ i = 3) as Hc by lia.
  destruct Hc as [-> | [-> | [-> | ->]]].
  - exists (Some <$> Demo.demo_entries 0).
    eexists _, _, _. 
    split; [vm_compute; reflexivity |].
    split; [vm_compute; reflexivity |]. split; [reflexivity |].
    split; [vm_compute; reflexivity |]. reflexivity.
  - exists (Some <$> Demo.demo_entries 1).
    eexists _, _, _. 
    split; [vm_compute; reflexivity |].
    split; [vm_compute; reflexivity |]. split; [reflexivity |].
    split; [vm_compute; reflexivity |]. reflexivity.
  - exists (Some <$> Demo.demo_entries 2).
    eexists _, _, _. 
    split; [vm_compute; reflexivity |].
    split; [vm_compute; reflexivity |]. split; [reflexivity |].
    split; [vm_compute; reflexivity |]. reflexivity.
  - exists (Some <$> Demo.demo_entries 3).
    eexists _, _, _. 
    split; [vm_compute; reflexivity |].
    split; [vm_compute; reflexivity |]. split; [reflexivity |].
    split; [vm_compute; reflexivity |]. reflexivity.
Qed.

Lemma demo_sequential :
  sequential (fun i => 256 * i) (fun i => 256 * i + 255) 0 3.
Proof. split; intros; lia. Qed.

(** [GetTileIndexFromTime] never panics: it indexes entries 0 and 255 of a
    slice that holds 256 entries. And on an interval that ends below
    [2^62], it returns after at most 63 rounds of its loop, each of which
    fetches one tile. *)
Theorem GetTileIndexFromTime_returns {net : Net} (fuel : nat) (l : Log)
    (ctx : Ctx) (t : Time) (startTile endTile : Z) (w : World) :
  GetTileIndexFromTime fuel l ctx t startTile endTile w <> Panic
  /\ (endTile < 2 ^ 62 -> (63 <= fuel)%nat ->
      exists r, GetTileIndexFromTime fuel l ctx t startTile endTile w
                = Done r).
Proof.
  split.
  - unfold GetTileIndexFromTime. destruct (startTile <? 0); [discriminate |].
    apply GetTileIndexFromTime_loop_no_panic.
  - intros He Hfuel. unfold GetTileIndexFromTime.
    destruct (Z.ltb_spec startTile 0) as [|Hs]; [eauto |].
    pose proof (GetTileIndexFromTime_loop_result fuel l ctx t startTile
                  endTile w Hs He) as Hr.
    destruct (GetTileIndexFromTime_loop fuel l ctx t startTile endTile w)
      as [r| |]; [eauto | contradiction |].
    exfalso.
    assert (2 ^ 63 <= 2 ^ Z.of_nat fuel) by (apply Z.pow_le_mono_r; lia).
    lia.
Qed.

Lemma GetTileIndexFromTime_returns_witness :
  exists r,
    GetTileIndexFromTime (net := Demo.demo_net) 63 Demo.demo_log None
      (UnixMilli 700) 0 (2 ^ 62 - 1) [] = Done r.
Proof.
  apply (proj2 (GetTileIndexFromTime_returns (net := Demo.demo_net) 63
                  Demo.demo_log None (UnixMilli 700) 0 (2 ^ 62 - 1) []));
    [reflexivity | lia].
Defined.

(** Whatever the network does: the tile [GetTileIndexFromTime] returns
    without an error is the one it fetched last, the time is not before
    the first and not after the last of the entries it got for it, and on
    an interval that ends below [2^62] the tile lies in the interval. *)
Theorem GetTileIndexFromTime_sound {net : Net} (fuel : nat) (l : Log)
    (ctx : Ctx) (t : Time) (startTile endTile : Z) (w w' : World) (p : Z) :
  GetTileIndexFromTime fuel l ctx t startTile endTile w
  = Done ((p, None), w') ->
  (exists w0 es first last,
      GetTileEntries l ctx p w0 = ((Some <$> es, None), w')
      /\ es !! 0%nat = Some first /\ es !! 255%nat = Some last
      /\ within (Timestamp first) (Timestamp last) t)
  /\ (endTile < 2 ^ 62 -> 0 <= startTile <= p /\ p <= endTile).
Proof.
  intros Hrun. split.
  - revert Hrun. unfold GetTileIndexFromTime.
    destruct (startTile <? 0); [discriminate |].
    apply GetTileIndexFromTime_loop_fetched.
  - intros He.
    pose proof (GetTileIndexFromTime_result fuel l ctx t startTile endTile w
                  He) as Hr.
    rewrite Hrun in Hr. exact Hr.
Qed.

Lemma GetTileIndexFromTime_sound_witness :
  GetTileIndexFromTime (net := Demo.demo_net) 64 Demo.demo_log None
    (UnixMilli 700) 0 3 []
  = Done ((2, None),
          ["https://log.example/tile/data/001";
           "https://log.example/tile/data/002"])
  /\ exists w0 es first last,
       GetTileEntries (net := Demo.demo_net) Demo.demo_log None 2 w0
       = ((Some <$> es, None),
          ["https://log.example/tile/data/001";
           "https://log.example/tile/data/002"])
       /\ es !! 0%nat = Some first /\ es !! 255%nat = Some last
       /\ within (Timestamp first) (Timestamp last) (UnixMilli 700).
Proof.
  assert (GetTileIndexFromTime (net := Demo.demo_net) 64 Demo.demo_log None
            (UnixMilli 700) 0 3 []
          = Done ((2, None),
                  ["https://log.example/tile/data/001";
                   "https://log.example/tile/data/002"])) as Hrun
    by (vm_compute; reflexivity).
  split; [exact Hrun |].
  exact (proj1 (GetTileIndexFromTime_sound (net := Demo.demo_net) 64
                  Demo.demo_log None (UnixMilli 700) 0 3 [] _ 2 Hrun)).
Defined.

Lemma GetTileIndexFromTime_finds_tile_aux {net : Net} (fuel : nat) (l : Log)
    (ctx : Ctx) (t : Time) (first last : Z -> Z) (startTile endTile : Z)
    (k : Z) (w : World) :
  0 <= startTile -> endTile < 2 ^ 62 ->
  (forall i, startTile <= i <= endTile ->
             serves_tile l ctx i (first i) (last i)) ->
  sequential first last startTile endTile ->
  startTile <= k <= endTile ->
  within (first k) (last k) t ->
  (63 <= fuel)%nat ->
  exists p w',
    GetTileIndexFromTime fuel l ctx t startTile endTile w
    = Done ((p, None), w')
    /\ startTile <= p <= endTile
    /\ within (first p) (last p) t.
Proof.
  intros Hs He Hserved Hseq Hk Hin Hfuel. unfold GetTileIndexFromTime.
  destruct (Z.ltb_spec startTile 0); [lia |].
  pose proof (GetTileIndexFromTime_loop_static l ctx t first last startTile
                endTile Hserved Hs He fuel startTile endTile w
                ltac:(lia) ltac:(lia)) as Hr.
  assert (2 ^ 63 <= 2 ^ Z.of_nat fuel) by (apply Z.pow_le_mono_r; lia).
  destruct (GetTileIndexFromTime_loop fuel l ctx t startTile endTile w)
    as [[[p [err|]] w']| |]; [| eauto | contradiction | lia].
  destruct Hr as (_ & _ & Hnone). destruct (Hnone Hseq k Hk Hin).
Qed.

(** On a log that serves the tiles of the interval in sequential order, the
    search finds a tile for every time that some tile of the interval
    holds: it returns, after at most 63 rounds, a tile of the interval
    whose entries hold the time. *)
Theorem GetTileIndexFromTime_finds_tile {net : Net} (fuel : nat) (l : Log)
    (ctx : Ctx) (t : Time) (first last : Z -> Z) (startTile endTile : Z)
    (k : Z) (w : World) :
  0 <= startTile -> endTile < 2 ^ 62 ->
  (forall i, startTile <= i <= endTile ->
             serves_tile l ctx i (first i) (last i)) ->
  sequential first last startTile endTile ->
  startTile <= k <= endTile ->
  within (first k) (last k) t ->
  (63 <= fuel)%nat ->
  exists p w',
    GetTileIndexFromTime fuel l ctx t startTile endTile w
    = Done ((p, None), w')
    /\ startTile <= p <= endTile
    /\ within (first p) (last p) t.
Proof. apply GetTileIndexFromTime_finds_tile_aux. Qed.

Lemma GetTileIndexFromTime_finds_tile_witness :
  exists p w',
    GetTileIndexFromTime (net := Demo.demo_net) 63 Demo.demo_log None
      (UnixMilli 700) 0 3 [] = Done ((p, None), w')
    /\ 0 <= p <= 3
    /\ within (256 * p) (256 * p + 255) (UnixMilli 700).
Proof.
  apply (GetTileIndexFromTime_finds_tile (net := Demo.demo_net) 63
           Demo.demo_log None (UnixMilli 700)
           (fun i => 256 * i) (fun i => 256 * i + 255) 0 3 2 []);
    [lia | reflexivity | exact demo_serves_tile | exact demo_sequential
    | lia | unfold within, UnixMilli; lia | lia].
Defined.

(** For bounds with [0 <= startTile] and [endTile < 2^62] (so that no sum
    of two indexes leaves [int64]), on a log that serves the tiles of the
    interval, a time that no tile of the interval holds (a time before the
    first entry, after the last one, or between the last entry of a tile and
    the first entry of the next) is refused with "timestamp doesn't fall
    within the time bounds of the log entries". *)
Theorem GetTileIndexFromTime_outside_log {net : Net} (fuel : nat) (l : Log)
    (ctx : Ctx) (t : Time) (first last : Z -> Z) (startTile endTile : Z)
    (w : World) :
  0 <= startTile -> endTile < 2 ^ 62 ->
  (forall i, startTile <= i <= endTile ->
             serves_tile l ctx i (first i) (last i)) ->
  (forall i, startTile <= i <= endTile -> ~ within (first i) (last i) t) ->
  (63 <= fuel)%nat ->
  exists w',
    GetTileIndexFromTime fuel l ctx t startTile endTile w
    = Done ((-1, Some not_in_log), w').
Proof.
  intros Hs He Hserved Hout Hfuel. unfold GetTileIndexFromTime.
  destruct (Z.ltb_spec startTile 0); [lia |].
  pose proof (GetTileIndexFromTime_loop_static l ctx t first last startTile
                endTile Hserved Hs He fuel startTile endTile w
                ltac:(lia) ltac:(lia)) as Hr.
  assert (2 ^ 63 <= 2 ^ Z.of_nat fuel) by (apply Z.pow_le_mono_r; lia).
  destruct (GetTileIndexFromTime_loop fuel l ctx t startTile endTile w)
    as [[[p [err|]] w']| |]; [| | contradiction | lia].
  - destruct Hr as (-> & -> & _). eauto.
  - destruct Hr as [Hp Hin]. destruct (Hout p Hp Hin).
Qed.

Lemma GetTileIndexFromTime_outside_log_witness :
  exists w',
    GetTileIndexFromTime (net := Demo.demo_net) 63 Demo.demo_log None
      (UnixMilli 255 + 1) 0 3 [] = Done ((-1, Some not_in_log), w').
Proof.
  apply (GetTileIndexFromTime_outside_log (net := Demo.demo_net) 63
           Demo.demo_log None (UnixMilli 255 + 1)
           (fun i => 256 * i) (fun i => 256 * i + 255) 0 3 []);
    [lia | reflexivity | exact demo_serves_tile
    | intros i Hi; unfold within, UnixMilli; lia | lia].
Defined.

(** On a log whose checkpoint gives [lastTile] and that serves the tiles
    from 0 to [lastTile] in sequential order, the bounds of a time span
    whose ends are held by tiles are found: a start tile that holds the
    start time and, not before it, an end tile that holds the end time. *)
Theorem GetBoundingTilesFromTimes_finds {net : Net} (fuel : nat) (l : Log)
    (ctx : Ctx) (startTime endTime : Time) (first last : Z -> Z)
    (lastTile k1 k2 : Z) (w : World) :
  startTime < endTime ->
  (forall w, exists w', GetLastFullTileIndex l ctx w = ((lastTile, None), w')) ->
  (forall i, 0 <= i <= lastTile -> serves_tile l ctx i (first i) (last i)) ->
  sequential first last 0 lastTile ->
  0 <= k1 <= lastTile -> within (first k1) (last k1) startTime ->
  0 <= k2 <= lastTile -> within (first k2) (last k2) endTime ->
  (63 <= fuel)%nat ->
  exists startTile endTile w',
    GetBoundingTilesFromTimes fuel l ctx startTime endTime w
    = Done ((startTile, endTile, None), w')
    /\ 0 <= startTile <= endTile /\ endTile <= lastTile
    /\ within (first startTile) (last startTile) startTime
    /\ within (first endTile) (last endTile) endTime.
Proof.
  intros Hlt Hlast Hserved Hseq Hk1 Hin1 Hk2 Hin2 Hfuel.
  unfold GetBoundingTilesFromTimes, Before.
  destruct (Z.ltb_spec startTime endTime); [| lia]. cbn [negb].
  destruct (Hlast w) as [w1 Hw1]. rewrite Hw1.
  pose proof (GetLastFullTileIndex_range _ _ _ _ _ Hw1) as Hrange.
  assert (2 ^ 55 < 2 ^ 62) as Hpow by (apply Z.pow_lt_mono_r; lia).
  destruct (GetTileIndexFromTime_finds_tile_aux fuel l ctx startTime first last
              0 lastTile k1 w1 ltac:(lia) ltac:(lia) Hserved Hseq Hk1 Hin1
              Hfuel) as (p1 & w2 & -> & Hp1 & Hin_p1).
  assert (p1 <= k2) as Hle.
  { destruct (Z_le_gt_dec p1 k2) as [|Hgt]; [assumption |]. exfalso.
    destruct Hseq as [_ Hacross].
    pose proof (Hacross k2 p1 ltac:(lia) ltac:(lia) ltac:(lia)) as Hord.
    apply UnixMilli_le in Hord. unfold within in *. lia. }
  assert (sequential first last p1 lastTile) as Hseq'.
  { destruct Hseq as [Hin_tile Hacross]. split.
    - intros i Hi. apply Hin_tile. lia.
    - intros i j Hi Hij Hj. apply Hacross; lia. }
  destruct (GetTileIndexFromTime_finds_tile_aux fuel l ctx endTime first last
              p1 lastTile k2 w2 ltac:(lia) ltac:(lia)
              ltac:(intros i Hi; apply Hserved; lia) Hseq' ltac:(lia) Hin2
              Hfuel) as (p2 & w3 & -> & Hp2 & Hin_p2).
  exists p1, p2, w3. split; [reflexivity |].
  split; [lia |]. split; [lia |]. split; assumption.
Qed.

Lemma demo_last_tile (w : list string) :
  exists w',
    GetLastFullTileIndex (net := Demo.demo_net) Demo.demo_log None w
    = ((3, None), w').
Proof. eexists. vm_compute. reflexivity. Qed.

Lemma GetBoundingTilesFromTimes_finds_witness :
  exists startTile endTile w',
    GetBoundingTilesFromTimes (net := Demo.demo_net) 63 Demo.demo_log None
      (UnixMilli 300) (UnixMilli 700) []
    = Done ((startTile, endTile, None), w')
    /\ 0 <= startTile <= endTile /\ endTile <= 3
    /\ within (256 * startTile) (256 * startTile + 255) (UnixMilli 300)
    /\ within (256 * endTile) (256 * endTile + 255) (UnixMilli 700).
Proof.
  apply (GetBoundingTilesFromTimes_finds (net := Demo.demo_net) 63
           Demo.demo_log None (UnixMilli 300) (UnixMilli 700)
           (fun i => 256 * i) (fun i => 256 * i + 255) 3 1 2 []);
    [reflexivity | exact demo_last_tile | exact demo_serves_tile
    | exact demo_sequential | lia | unfold within, UnixMilli; lia
    | lia | unfold within, UnixMilli; lia | lia].
Defined.

(** A time span that ends where no tile holds the end time (after the last
    entry of the last tile, or between two tiles) is refused, though its
    start is found: the error is "getting index of end tile: timestamp
    doesn't fall within the time bounds of the log entries". *)
Theorem GetBoundingTilesFromTimes_end_outside {net : Net} (fuel : nat)
    (l : Log) (ctx : Ctx) (startTime endTime : Time) (first last : Z -> Z)
    (lastTile k1 : Z) (w : World) :
  startTime < endTime ->
  (forall w, exists w', GetLastFullTileIndex l ctx w = ((lastTile, None), w')) ->
  (forall i, 0 <= i <= lastTile -> serves_tile l ctx i (first i) (last i)) ->
  sequential first last 0 lastTile ->
  0 <= k1 <= lastTile -> within (first k1) (last k1) startTime ->
  (forall i, 0 <= i <= lastTile -> ~ within (first i) (last i) endTime) ->
  (63 <= fuel)%nat ->
  exists w',
    GetBoundingTilesFromTimes fuel l ctx startTime endTime w
    = Done ((-1, -1,
             Some (Errorf_w "getting index of end tile: " not_in_log)), w').
Proof.
  intros Hlt Hlast Hserved Hseq Hk1 Hin1 Hout Hfuel.
  unfold GetBoundingTilesFromTimes, Before.
  destruct (Z.ltb_spec startTime endTime); [| lia]. cbn [negb].
  destruct (Hlast w) as [w1 Hw1]. rewrite Hw1.
  pose proof (GetLastFullTileIndex_range _ _ _ _ _ Hw1) as Hrange.
  assert (2 ^ 55 < 2 ^ 62) as Hpow by (apply Z.pow_lt_mono_r; lia).
  destruct (GetTileIndexFromTime_finds_tile_aux fuel l ctx startTime first last
              0 lastTile k1 w1 ltac:(lia) ltac:(lia) Hserved Hseq Hk1 Hin1
              Hfuel) as (p1 & w2 & -> & Hp1 & Hin_p1).
  unfold GetTileIndexFromTime. destruct (Z.ltb_spec p1 0); [lia |].
  pose proof (GetTileIndexFromTime_loop_static l ctx endTime first last 0
                lastTile Hserved ltac:(lia) ltac:(lia) fuel p1 lastTile w2
                ltac:(lia) ltac:(lia)) as Hr.
  assert (2 ^ 63 <= 2 ^ Z.of_nat fuel) by (apply Z.pow_le_mono_r; lia).
  destruct (GetTileIndexFromTime_loop fuel l ctx endTime p1 lastTile w2)
    as [[[p [err|]] w3]| |]; [| | contradiction | lia].
  - destruct Hr as (_ & -> & _). eauto.
  - destruct Hr as [Hp Hin]. destruct (Hout p ltac:(lia) Hin).
Qed.

Lemma GetBoundingTilesFromTimes_end_outside_witness :
  exists w',
    GetBoundingTilesFromTimes (net := Demo.demo_net) 63 Demo.demo_log None
      (UnixMilli 300) (UnixMilli 1024) []
    = Done ((-1, -1,
             Some (Errorf_w "getting index of end tile: " not_in_log)), w').
Proof.
  apply (GetBoundingTilesFromTimes_end_outside (net := Demo.demo_net) 63
           Demo.demo_log None (UnixMilli 300) (UnixMilli 1024)
           (fun i => 256 * i) (fun i => 256 * i + 255) 3 1 []);
    [reflexivity | exact demo_last_tile | exact demo_serves_tile
    | exact demo_sequential | lia | unfold within, UnixMilli; lia
    | intros i Hi; unfold within, UnixMilli; lia | lia].
Defined.


(* ================================================================== *)
(** * Further properties of the data source of a tiled log *)
(* ================================================================== *)

Section SourceMore.

Context {net : Net}.

Lemma emitEntries_step (b : DataSource) (entry : LogEntry)
    (rest : Entries) (certs : list bytes) :
  emitEntries b (Some entry :: rest) certs
  = emitEntries b rest
      (match selected b entry with
       | Some der => certs ++ [der]
       | None => certs
       end).
Proof.
  unfold selected. cbn [emitEntries].
  destruct (IsPrecert entry);
    [destruct (IncludePrecertificates b) | destruct (IncludeCertificates b)];
    reflexivity.
Qed.

(** The entries of a tile, sent in order after what was sent before. *)
Lemma emitEntries_selected (b : DataSource) (es : list LogEntry)
    (certs : list bytes) :
  emitEntries b (Some <$> es) certs = Done (certs ++ omap (selected b) es).
Proof.
  revert certs. induction es as [|entry es IH]; intros certs.
  { cbn. rewrite app_nil_r. reflexivity. }
  rewrite fmap_cons, emitEntries_step, IH. cbn [omap list_omap].
  destruct (selected b entry) as [der|]; [| reflexivity].
  rewrite <- app_assoc. reflexivity.
Qed.

Lemma workers_static (b : DataSource) (l : Log) (ctx : Ctx)
    (tile : Z -> list LogEntry + error) (work : list Z) (w : World)
    (certs : list bytes) (stderr : list string) :
  (forall i, i ∈ work -> fetches l ctx i (tile i)) ->
  exists w',
    workers b l ctx work w certs stderr
    = Done ((certs ++ flat_map (fun i => sent_for b (tile i)) work,
             stderr ++ omap (fun i => logged_for (tile i)) work), w').
Proof.
  revert w certs stderr.
  induction work as [|i work IH]; intros w certs stderr Hwork.
  { exists w. cbn. rewrite !app_nil_r. reflexivity. }
  cbn [workers flat_map omap list_omap].
  destruct (Hwork i ltac:(left) w) as (entries & w1 & -> & Hentries).
  assert (forall j, j ∈ work -> fetches l ctx j (tile j)) as Hrest
    by (intros j Hj; apply Hwork; right; exact Hj).
  destruct (tile i) as [es|e]; cbn [sent_for logged_for].
  - subst entries. rewrite emitEntries_selected.
    destruct (IH w1 (certs ++ omap (selected b) es) stderr Hrest) as [w' ->].
    exists w'. rewrite <- app_assoc. reflexivity.
  - destruct (IH w1 certs
                (stderr ++ ["getting entries for tile: " +:+ Error e
                              +:+ String newline ""]) Hrest) as [w' ->].
    exists w'. rewrite app_nil_l, <- app_assoc. reflexivity.
Qed.

End SourceMore.

(** Once the bounds are determined, [Source] sends, tile after tile from the
    start tile to the end tile, every selected entry of every tile it can
    download, whenever the entry was logged: the times bound the tiles,
    not the entries. A tile it cannot download is reported on [os.Stderr]
    and left out, and [Source] returns [nil]. *)
Theorem Source_sends_whole_tiles {net : Net} (fuel : nat) (b : DataSource)
    (l : Log) (ctx : Ctx) (w w1 : World) (startIndex endIndex : Z)
    (tile : Z -> list LogEntry + error) :
  ds_Log b = Some l ->
  IncludeCertificates b || IncludePrecertificates b = true ->
  GetBoundingTilesFromTimes fuel l ctx (StartTimeInclusive b)
    (EndTimeInclusive b) w = Done ((startIndex, endIndex, None), w1) ->
  (forall i, startIndex <= i <= endIndex -> fetches l ctx i (tile i)) ->
  exists w',
    Source fuel b ctx w
    = Done ((flat_map (fun i => sent_for b (tile i))
               (seqZ startIndex (endIndex - startIndex + 1)),
             bounds_line startIndex endIndex
               :: omap (fun i => logged_for (tile i))
                    (seqZ startIndex (endIndex - startIndex + 1)),
             None), w').
Proof.
  intros Hlog Hflags Hbounds Htiles.
  unfold Source. rewrite Hlog, Hflags, Hbounds. cbn [negb].
  destruct (workers_static b l ctx tile
              (seqZ startIndex (endIndex - startIndex + 1)) w1 []
              [bounds_line startIndex endIndex]) as [w' Hw].
  { intros i Hi. apply elem_of_seqZ in Hi. apply Htiles. lia. }
  fold (bounds_line startIndex endIndex). rewrite Hw.
  exists w'. reflexivity.
Qed.

Lemma demo_fetches (i : Z) :
  1 <= i <= 2 ->
  fetches (net := Demo.demo_net) Demo.demo_log None i
    (inl (Demo.demo_entries i)).
Proof.
  intros Hi w.
  assert (i = 1 \/ i = 2) as Hc by lia.
  destruct Hc as [-> | ->].
  - exists (Some <$> Demo.demo_entries 1). eexists.
    split; [vm_compute; reflexivity | reflexivity].
  - exists (Some <$> Demo.demo_entries 2). eexists.
    split; [vm_compute; reflexivity | reflexivity].
Qed.

Lemma Source_sends_whole_tiles_witness :
  exists w',
    Source (net := Demo.demo_net) 64 Demo.demo_source None []
    = Done ((flat_map
               (fun i => sent_for Demo.demo_source (inl (Demo.demo_entries i)))
               (seqZ 1 (2 - 1 + 1)),
             bounds_line 1 2
               :: omap (fun i => logged_for (inl (Demo.demo_entries i)))
                    (seqZ 1 (2 - 1 + 1)),
             None), w').
Proof.
  apply (Source_sends_whole_tiles (net := Demo.demo_net) 64 Demo.demo_source
           Demo.demo_log None []
           ["https://log.example/checkpoint";
            "https://log.example/tile/data/001";
            "https://log.example/tile/data/002"]
           1 2 (fun i => inl (Demo.demo_entries i)));
    [reflexivity | reflexivity | vm_compute; reflexivity | exact demo_fetches].
Defined.

(** [Source] asks for a start time strictly before the end time: when the
    end time is the start time or lies before it, it returns "determining
    search bounds: start time is not before end time", having made no
    request and sent nothing. *)
Theorem Source_refuses_empty_span {net : Net} (fuel : nat) (b : DataSource)
    (l : Log) (ctx : Ctx) (w : World) :
  ds_Log b = Some l ->
  IncludeCertificates b || IncludePrecertificates b = true ->
  EndTimeInclusive b <= StartTimeInclusive b ->
  Source fuel b ctx w
  = Done (([], [],
           Some (Errorf_w "determining search bounds: "
                   (errors_New "start time is not before end time"))), w).
Proof.
  intros Hlog Hflags Hspan. unfold Source. rewrite Hlog, Hflags. cbn [negb].
  unfold GetBoundingTilesFromTimes, Before.
  destruct (Z.ltb_spec (StartTimeInclusive b) (EndTimeInclusive b)); [lia |].
  reflexivity.
Qed.

Lemma Source_refuses_empty_span_witness :
  Source (net := Demo.demo_net) 64
    (mkDataSource (Some Demo.demo_log) true true (UnixMilli 300)
       (UnixMilli 300) 1) None []
  = Done (([], [],
           Some (Errorf_w "determining search bounds: "
                   (errors_New "start time is not before end time"))), []).
Proof.
  apply (Source_refuses_empty_span (net := Demo.demo_net) 64
           (mkDataSource (Some Demo.demo_log) true true (UnixMilli 300)
              (UnixMilli 300) 1) Demo.demo_log None []);
    [reflexivity | reflexivity | cbn; lia].
Defined.

(** When [Source] returns an error it has sent nothing and written nothing:
    it fails only before it downloads tiles, for a nil log, for an empty
    selection, or because the bounds of the search could not be
    determined. *)
Theorem Source_error_sends_nothing {net : Net} (fuel : nat) (b : DataSource)
    (ctx : Ctx) (w w' : World) (certs : list bytes) (stderr : list string)
    (e : error) :
  Source fuel b ctx w = Done ((certs, stderr, Some e), w') ->
  certs = [] /\ stderr = []
  /\ (e = errors_New "nil log"
      \/ e = errors_New "neither precertficates nor certificates are selected"
      \/ exists cause, e = Errorf_w "determining search bounds: " cause).
Proof.
  unfold Source.
  destruct (ds_Log b) as [l|];
    [| intros Heq; injection Heq as <- <- <- _; auto].
  destruct (negb _);
    [intros Heq; injection Heq as <- <- <- _; auto |].
  destruct (GetBoundingTilesFromTimes _ _ _ _ _ _)
    as [[[[startIndex endIndex] [e0|]] w1]| |]; try discriminate.
  - intros Heq; injection Heq as <- <- <- _. eauto 6.
  - destruct (workers _ _ _ _ _ _ _) as [[[c s'] w'']| |]; discriminate.
Qed.

Lemma Source_error_sends_nothing_witness :
  exists certs stderr e w',
    Source (net := Demo.demo_net) 64
      (mkDataSource None true true (UnixMilli 300) (UnixMilli 700) 1) None []
    = Done ((certs, stderr, Some e), w')
    /\ certs = [] /\ stderr = [].
Proof.
  eexists _, _, _, _.
  assert (Source (net := Demo.demo_net) 64
            (mkDataSource None true true (UnixMilli 300) (UnixMilli 700) 1)
            None []
          = Done (([], [], Some (errors_New "nil log")), [])) as Hrun
    by reflexivity.
  split; [exact Hrun |].
  destruct (Source_error_sends_nothing (net := Demo.demo_net) 64 _ None
              [] [] [] [] _ Hrun) as (Hcerts & Hstderr & _).
  split; [exact Hcerts | exact Hstderr].
Defined.

(* ================================================================== *)
(** * Further properties of the cachers and of Execute *)
(* ================================================================== *)

Lemma CacheAll_Sha256MapCacher {libs : Libs} (certs : list Certificate) :
  forall (m : gmap Digest bool) (seen : list Digest) (i : nat)
         (cert : Certificate),
    (forall d, default false (m !! d) = bool_decide (d ∈ seen)) ->
    certs !! i = Some cert ->
    fst (CacheAll (Sha256MapCacher m) certs) !! i
    = Some (bool_decide
              (fingerprint cert ∈ seen ++ (fingerprint <$> take i certs))).
Proof.
  induction certs as [|c0 certs IH]; intros m seen i cert Hinv Hi;
    [discriminate |].
  cbn [CacheAll Cache]. fold (fingerprint c0).
  destruct (CacheAll (Sha256MapCacher (<[fingerprint c0 := true]> m)) certs)
    as [results c'] eqn:Hrest.
  cbn [fst]. rewrite lookup_cons. destruct i as [|i].
  - injection Hi as ->. cbn [take fmap list_fmap]. rewrite app_nil_r.
    f_equal. apply Hinv.
  - cbn in Hi.
    pose proof (IH (<[fingerprint c0 := true]> m) (seen ++ [fingerprint c0])
                  i cert) as Hi'.
    rewrite Hrest in Hi'. cbn [fst] in Hi'. rewrite Hi'; [| | exact Hi].
    + cbn [take fmap list_fmap]. rewrite <- app_assoc. reflexivity.
    + intros d. destruct (decide (d = fingerprint c0)) as [->|Hne].
      * rewrite lookup_insert_eq. cbn [default]. symmetry.
        apply bool_decide_eq_true_2. rewrite elem_of_app, list_elem_of_singleton.
        auto.
      * rewrite lookup_insert_ne by congruence. rewrite Hinv.
        apply bool_decide_ext. rewrite elem_of_app, list_elem_of_singleton.
        tauto.
Qed.

(** A [Sha256MapCacher] reports a certificate as present exactly when a
    certificate with the same SHA-256 fingerprint was cached before it, and
    a [NopCacher] never does. *)
Theorem Cache_present_iff_cached_before {libs : Libs}
    (certs : list Certificate) (i : nat) (cert : Certificate) :
  certs !! i = Some cert ->
  fst (CacheAll NewSha256MapCacher certs) !! i
  = Some (bool_decide (fingerprint cert ∈ fingerprint <$> take i certs))
  /\ fst (CacheAll NopCacher certs) !! i = Some false.
Proof.
  intros Hi. split.
  - unfold NewSha256MapCacher.
    rewrite (CacheAll_Sha256MapCacher certs ∅ [] i cert); [reflexivity | | exact Hi].
    intros d. rewrite lookup_empty. cbn [default]. symmetry.
    apply bool_decide_eq_false_2, not_elem_of_nil.
  - revert i Hi. induction certs as [|c0 certs IH]; intros i Hi; [discriminate |].
    cbn [CacheAll Cache]. destruct (CacheAll NopCacher certs) as [results c'].
    cbn [fst] in *. rewrite lookup_cons.
    destruct i as [|i]; [reflexivity |]. apply (IH i Hi).
Qed.

Lemma Cache_present_iff_cached_before_witness :
  fst (CacheAll (libs := demo_libs) (NewSha256MapCacher (libs := demo_libs))
         [cert_A; cert_B; cert_A]) !! 2%nat
  = Some true.
Proof.
  exact (proj1 (Cache_present_iff_cached_before (libs := demo_libs)
                  [cert_A; cert_B; cert_A] 2 cert_A eq_refl)).
Defined.

Section BloomFacts.

Context {libs : Libs}.
Variable s : Search.
Variable holds : BloomFilter -> bytes -> Prop.
Hypothesis Hbloom : no_false_negatives holds.

(** One received value, for a consumer with a [BloomCacher] that holds the
    raw bytes of the certificates called on so far. *)
Lemma receive_BloomCacher (der : bytes) (f : BloomFilter)
    (called : list Certificate) (lines : list string) :
  NoDup (Raw <$> called) ->
  (forall cert, cert ∈ called -> holds f (Raw cert)) ->
  exists f' called' lines',
    receive s der (mkConsumer (BloomCacher f) called lines)
    = mkConsumer (BloomCacher f') called' lines'
    /\ NoDup (Raw <$> called')
    /\ (forall cert, cert ∈ called' -> holds f' (Raw cert)).
Proof.
  intros Hnd Hheld. unfold receive.
  destruct (derFilter_of s der); cbn [negb]; [| eauto 6].
  destruct (ParseCertificate der) as [cert|err]; [| cbn [matches calls]; eauto 6].
  destruct (filter_of s cert); cbn [negb]; [| eauto 6].
  cbn [Cache matches calls stderr].
  destruct (Hbloom f (Raw cert)) as (Hpresent & Hadded & Hkept).
  destruct (TestOrAdd f (Raw cert)) as [present f'] eqn:Htest.
  cbn [fst snd] in *.
  destruct present.
  - exists f', called, lines. split; [reflexivity |]. split; [exact Hnd |].
    intros c Hc. apply Hkept, Hheld, Hc.
  - exists f', (called ++ [cert]), lines. split; [reflexivity |]. split.
    + rewrite fmap_app. apply NoDup_app. split; [exact Hnd |].
      split; [| apply NoDup_singleton].
      intros raw Hin Hraw. apply list_elem_of_singleton in Hraw. subst raw.
      apply list_elem_of_fmap in Hin as (c & Heq & Hc).
      specialize (Hheld c Hc). rewrite <- Heq in Hheld.
      specialize (Hpresent Hheld). discriminate.
    + intros c Hc. apply elem_of_app in Hc as [Hc|Hc].
      * apply Hkept, Hheld, Hc.
      * apply list_elem_of_singleton in Hc. subst c. exact Hadded.
Qed.

Lemma foldl_receive_BloomCacher (inputs : list bytes) (f : BloomFilter)
    (called : list Certificate) (lines : list string) :
  NoDup (Raw <$> called) ->
  (forall cert, cert ∈ called -> holds f (Raw cert)) ->
  NoDup (Raw <$> calls (foldl (fun c der => receive s der c)
                          (mkConsumer (BloomCacher f) called lines) inputs)).
Proof.
  revert f called lines.
  induction inputs as [|der inputs IH]; intros f called lines Hnd Hheld;
    [exact Hnd |].
  cbn [foldl].
  destruct (receive_BloomCacher der f called lines Hnd Hheld)
    as (f' & called' & lines' & -> & Hnd' & Hheld').
  apply IH; assumption.
Qed.

End BloomFacts.

(** With a [BloomCacher] whose filter has no false negatives,
    [MatchCallback] is called on no certificate twice: the raw bytes of the
    certificates it is called on differ from each other. (A false positive
    of the filter leaves a certificate out.) *)
Theorem consumer_calls_once_with_bloom {libs : Libs} (s : Search)
    (inputs : list bytes) (filter : BloomFilter)
    (holds : BloomFilter -> bytes -> Prop) :
  MatchCacher s = Some (BloomCacher filter) ->
  no_false_negatives holds ->
  snd (consumer_run s inputs) = Some None
  /\ NoDup (Raw <$> calls (fst (consumer_run s inputs))).
Proof.
  intros Hcacher Hbloom. unfold consumer_run. rewrite consumer_loop_recv.
  cbn [consumer_loop fst snd]. split; [reflexivity |].
  replace (matches_of s) with (BloomCacher filter)
    by (unfold matches_of; rewrite Hcacher; reflexivity).
  apply (foldl_receive_BloomCacher s holds Hbloom inputs filter [] []).
  - constructor.
  - intros cert Hin. apply elem_of_nil in Hin. destruct Hin.
Qed.

Lemma bloom_libs_no_false_negatives :
  no_false_negatives (libs := bloom_libs)
    (fun f data => (Byte.to_N <$> data) ∈ f).
Proof.
  intros f data. cbn [TestOrAdd bloom_libs fst snd].
  split; [intros Hin; apply bool_decide_eq_true_2, Hin |].
  split; [left | intros d Hd; right; exact Hd].
Qed.

Lemma consumer_calls_once_with_bloom_witness :
  calls (fst (consumer_run bloom_search [cert_A; cert_B; cert_A]))
  = [cert_A; cert_B]
  /\ NoDup (Raw (Libs := bloom_libs)
              <$> calls (fst (consumer_run bloom_search
                                [cert_A; cert_B; cert_A]))).
Proof.
  split; [vm_compute; reflexivity |].
  exact (proj2 (consumer_calls_once_with_bloom (libs := bloom_libs)
                  bloom_search [cert_A; cert_B; cert_A] []
                  (fun f data => (Byte.to_N <$> data) ∈ f) eq_refl
                  bloom_libs_no_false_negatives)).
Defined.

(** [ValidateParameters] accepts a search exactly when it has a filter
    ([DERFilter], [Filter] or both), a match callback and at least one data
    source. *)
Theorem ValidateParameters_nil_iff {libs : Libs} (s : Search) :
  ValidateParameters s = None
  <-> (DERFilter s <> None \/ Filter s <> None)
      /\ MatchCallback s <> None
      /\ DataSources s <> [].
Proof.
  unfold ValidateParameters.
  destruct (DERFilter s) as [f|], (Filter s) as [g|], (MatchCallback s) as [m|],
    (DataSources s) as [|p ps]; cbn;
    (split;
     [intros H; try discriminate H;
      (split; [first [left; discriminate | right; discriminate]
              | split; discriminate])
     | intros (H1 & H2 & H3); try reflexivity; exfalso;
       first [apply H2; reflexivity | apply H3; reflexivity
             | destruct H1 as [H1|H1]; apply H1; reflexivity]]).
Qed.

(** Before it starts a goroutine, [Execute] checks its parameters and then
    the context: a search that fails validation returns the validation
    error, also under a context that is already done, and a valid search
    under a context that is done returns [ctx.Err()]; in both cases nothing
    was written and the callback was not called. *)
Theorem Execute_returns_before_start {libs : Libs} (s : Search)
    (ctxErr r : option error) (c : Consumer) :
  Execute s ctxErr r c ->
  (forall e, ValidateParameters s = Some e ->
             r = Some e /\ calls c = [] /\ stderr c = [])
  /\ (forall e, ValidateParameters s = None -> ctxErr = Some e ->
                r = Some e /\ calls c = [] /\ stderr c = []).
Proof.
  intros Hex. split.
  - intros e He. destruct Hex as [e' He'|e' Hv _|ls st r' Hv _ _ _];
      [| congruence | congruence].
    rewrite He in He'. injection He' as ->. auto.
  - intros e Hv Hctx. destruct Hex as [e' He'|e' _ Hc|ls st r' _ Hc _ _];
      [congruence | | congruence].
    rewrite Hctx in Hc. injection Hc as ->. auto.
Qed.

Lemma Execute_returns_before_start_witness :
  Execute (libs := demo_libs)
    (mkSearch (libs := demo_libs) None None (Some (fun _ => tt))
       [Return None] None ErrorBehaviorCancel)
    (Some Canceled) (Some (errors_New "nil filter functions"))
    (mkConsumer (libs := demo_libs) (NopCacher (libs := demo_libs)) [] [])
  /\ calls (mkConsumer (libs := demo_libs) (NopCacher (libs := demo_libs))
              [] []) = [].
Proof.
  assert (Execute (libs := demo_libs)
            (mkSearch (libs := demo_libs) None None (Some (fun _ => tt))
               [Return None] None ErrorBehaviorCancel)
            (Some Canceled) (Some (errors_New "nil filter functions"))
            (mkConsumer (libs := demo_libs) (NopCacher (libs := demo_libs))
               [] [])) as Hex
    by (apply (Execute_invalid (libs := demo_libs)); reflexivity).
  split; [exact Hex |].
  exact (proj1 (proj2 (proj1 (Execute_returns_before_start (libs := demo_libs)
                                _ _ _ _ Hex)
                         (errors_New "nil filter functions") eq_refl))).
Defined.

Section ExecuteMore.

Context {libs : Libs}.
Variable s : Search.

(** What one received value adds: at most a call, on the certificate the
    value is accepted as, and at most a report of a certificate that does
    not parse. *)
Lemma receive_adds (certBytes : bytes) (c : Consumer) :
  exists called lines,
    calls (receive s certBytes c) = calls c ++ called
    /\ called `sublist_of` option_list (accepted s certBytes)
    /\ stderr (receive s certBytes c) = stderr c ++ lines
    /\ Forall parse_error_line lines.
Proof.
  unfold receive, accepted.
  destruct (derFilter_of s certBytes); cbn [negb];
    [| exists [], []; rewrite !app_nil_r; repeat split; constructor].
  destruct (ParseCertificate certBytes) as [cert|err].
  - destruct (filter_of s cert); cbn [negb];
      [| exists [], []; rewrite !app_nil_r; repeat split; constructor].
    destruct (Cache (matches c) cert) as [[|] m]; cbn [calls stderr].
    + exists [], []. rewrite !app_nil_r. repeat split; [| constructor].
      apply sublist_nil_l.
    + exists [cert], []. rewrite !app_nil_r. repeat split; [| constructor].
      reflexivity.
  - cbn [calls stderr]. eexists [], [_]. rewrite app_nil_r.
    repeat split; [constructor |].
    constructor; [exists err; reflexivity | constructor].
Qed.

Lemma steps_app (l1 l2 : list label) (st1 st2 st3 : State) :
  steps s l1 st1 st2 -> steps s l2 st2 st3 -> steps s (l1 ++ l2) st1 st3.
Proof.
  induction 1 as [st|l ls a b c Hstep Hsteps IH]; intros H2; [exact H2 |].
  cbn [app]. eapply steps_cons; [exact Hstep | apply IH, H2].
Qed.

(** A property that the initial state has and every step keeps holds after
    every run. *)
Lemma steps_invariant (P : State -> Prop) (avoid : label -> Prop) :
  (forall l st st', P st -> step s l st st' -> ~ avoid l -> P st') ->
  forall ls st st',
    P st -> steps s ls st st' -> Forall (fun l => ~ avoid l) ls -> P st'.
Proof.
  intros Hkeep ls st st' HP Hsteps. revert HP.
  induction Hsteps as [st|l ls st1 st2 st3 Hstep Hsteps IH]; intros HP Hls;
    [exact HP |].
  apply Forall_cons in Hls as [Hl Hls].
  apply IH; [| exact Hls]. exact (Hkeep l st1 st2 HP Hstep Hl).
Qed.

Lemma calls_accepted_step (l : label) (st st' : State) :
  calls_accepted s st -> step s l st st' -> calls_accepted s st'.
Proof.
  unfold calls_accepted. intros Hinv Hstep.
  destruct Hstep as
    [st i certBytes next Hsrc Hcap
    |st i cancelled otherwise Hsrc
    |st i err Hsrc Hplain
    |st i e Hsrc Hcancel Hnew
    |st i e Hsrc Hcancel Hold
    |st Hall Hopen
    |st i certBytes rest Hrun Hcerts
    |st e Hrun He
    |st Hrun Hcerts Hcl
    |st]; cbn [consumer delivered]; try exact Hinv.
  destruct (receive_adds certBytes (consumer st))
      as (called & lines & -> & Hsub & _).
    rewrite fmap_app, omap_app. cbn [fmap list_fmap omap list_omap snd].
    apply sublist_app; [exact Hinv |].
    destruct (accepted s certBytes); exact Hsub.
Qed.

End ExecuteMore.

(** Whatever the cacher, the behaviour on errors and the cancellations:
    along every run of the goroutines of [Execute], [MatchCallback] has
    been called only on certificates that values received from the channel
    passed [DERFilter], parsed as, and passed [Filter] with, in the order in
    which those values were received, and at most once for each of them. *)
Theorem Execute_calls_only_accepted {libs : Libs} (s : Search)
    (ls : list label) (st : State) :
  steps s ls (initial s) st ->
  calls (consumer st)
    `sublist_of` omap (accepted s) (snd <$> delivered st).
Proof.
  intros Hsteps.
  apply (steps_invariant s (calls_accepted s) (fun _ => False)
           ltac:(intros l a b Ha Hstep _; exact (calls_accepted_step s l a b Ha Hstep))
           ls (initial s) st); [| exact Hsteps |].
  - unfold calls_accepted, initial. cbn. reflexivity.
  - apply Forall_forall. intros l _ H. exact H.
Qed.

Lemma Execute_calls_only_accepted_witness :
  calls (consumer demo_final)
    `sublist_of` omap (accepted demo_search) (snd <$> delivered demo_final).
Proof.
  exact (Execute_calls_only_accepted (libs := demo_libs) demo_search
           demo_labels demo_final demo_run).
Defined.

Section ExecuteFailure.

Context {libs : Libs}.
Variable s : Search.

Lemma failure_invariant_initial : failure_invariant s (initial s).
Proof.
  split; [| split; [| split; [constructor | split; [exact I | discriminate]]]].
  - intros i q e Hq Hret. exists i, q. split; [| exact Hret].
    unfold initial in Hq. cbn [sources] in Hq.
    rewrite list_lookup_fmap in Hq.
    destruct (DataSources s !! i); [| discriminate].
    injection Hq as ->. reflexivity.
  - intros i Hi. cbn [initial reported] in Hi. destruct (not_elem_of_nil _ Hi).
Qed.

Lemma report_line_parse (lines : list string) :
  Forall parse_error_line lines -> Forall (report_line s) lines.
Proof.
  intros Hlines. eapply Forall_impl; [exact Hlines |].
  intros line Hline. left. exact Hline.
Qed.

Lemma reported_slot_app (lines more : list string)
    (g : option (option Sourcer)) :
  reported_slot lines g -> reported_slot (lines ++ more) g.
Proof.
  intros [Hg|[Hg|(e & Hg & Hin)]]; [left; exact Hg | right; left; exact Hg |].
  right. right. exists e. split; [exact Hg |].
  rewrite elem_of_app. left. exact Hin.
Qed.

(** The slot of a goroutine that has reported its error holds no send and
    no look at the context. *)
Lemma reported_other (lines : list string) (srcs : list (option Sourcer))
    (i j : nat) (p : Sourcer) :
  reported_slot lines (srcs !! j) ->
  srcs !! i = Some (Some p) ->
  (forall err, p <> Return err) ->
  i <> j.
Proof.
  intros [Hg|[Hg|(e & Hg & _)]] Hi Hp ->; rewrite Hi in Hg;
    [discriminate | |]; injection Hg as Hg; exact (Hp _ Hg).
Qed.

Lemma failure_invariant_step (l : label) (st st' : State) :
  failure_invariant s st -> step s l st st' -> l <> l_parent_cancelled ->
  failure_invariant s st'.
Proof.
  intros (Hsrc & Hrep & Hlines & Hcause & Hret) Hstep Hl.
  assert (forall i g, i < length (sources st) ->
            (forall e, ~ may_return g e) ->
            forall j q e,
              <[i := Some g]> (sources st) !! j = Some (Some q) ->
              may_return q e -> source_error s e)%nat as Hsrc_done.
  { intros i g Hlt Hg j q e Hq Hmay. destruct (decide (i = j)) as [->|Hne].
    - rewrite list_lookup_insert_eq in Hq by exact Hlt.
      injection Hq as <-. destruct (Hg e Hmay).
    - rewrite list_lookup_insert_ne in Hq by exact Hne. eauto. }
  assert (forall i g, i < length (sources st) ->
            reported_slot (stderr (consumer st)) (Some g) ->
            forall j, j ∈ reported st ->
              reported_slot (stderr (consumer st))
                (<[i := g]> (sources st) !! j))%nat
    as Hrep_done.
  { intros i g Hlt Hg j Hj. destruct (decide (i = j)) as [->|Hne].
    - rewrite list_lookup_insert_eq by exact Hlt. exact Hg.
    - rewrite list_lookup_insert_ne by exact Hne. exact (Hrep j Hj). }
  destruct Hstep as
    [st i certBytes next Hi Hcap
    |st i cancelled otherwise Hi
    |st i err Hi Hplain
    |st i e Hi Hcancel Hnew
    |st i e Hi Hcancel Hold
    |st Hall Hopen
    |st i certBytes rest Hrun Hcerts
    |st e Hrun He
    |st Hrun Hcerts Hcl
    |st].
  - (* a data source sends *)
    split; [| split; [| split; [exact Hlines | split; assumption]]];
      cbn [sources reported consumer].
    + intros j q e Hq Hmay. destruct (decide (i = j)) as [->|Hne].
      * rewrite list_lookup_insert_eq in Hq by (apply lookup_lt_is_Some; eauto).
        injection Hq as <-. apply (Hsrc j _ e Hi). constructor. exact Hmay.
      * rewrite list_lookup_insert_ne in Hq by exact Hne. eauto.
    + intros j Hj.
      rewrite list_lookup_insert_ne
        by (apply (reported_other _ _ i j _ (Hrep j Hj) Hi); discriminate).
      exact (Hrep j Hj).
  - (* a data source looks at the context *)
    split; [| split; [| split; [exact Hlines | split; assumption]]];
      cbn [sources reported consumer].
    + intros j q e Hq Hmay. destruct (decide (i = j)) as [->|Hne].
      * rewrite list_lookup_insert_eq in Hq by (apply lookup_lt_is_Some; eauto).
        injection Hq as <-. apply (Hsrc j _ e Hi).
        destruct (cause st) as [x|];
          [eapply may_return_cancelled | apply may_return_otherwise];
          exact Hmay.
      * rewrite list_lookup_insert_ne in Hq by exact Hne. eauto.
    + intros j Hj.
      rewrite list_lookup_insert_ne
        by (apply (reported_other _ _ i j _ (Hrep j Hj) Hi); discriminate).
      exact (Hrep j Hj).
  - (* a goroutine calls [wg.Done()] *)
    assert (i < length (sources st))%nat as Hlt
      by (apply lookup_lt_is_Some; eauto).
    split; [| split; [| split; [exact Hlines | split; assumption]]];
      cbn [sources reported consumer].
    + intros j q e Hq Hmay. destruct (decide (i = j)) as [->|Hne].
      * rewrite list_lookup_insert_eq in Hq by exact Hlt. discriminate.
      * rewrite list_lookup_insert_ne in Hq by exact Hne. eauto.
    + apply (Hrep_done i None Hlt). left. reflexivity.
  - (* the error of a data source is reported *)
    assert (source_error s e) as Herr by (apply (Hsrc i _ e Hi); constructor).
    split; [exact Hsrc |]. cbn [sources reported consumer stderr cause returned].
    split; [| split; [| split; [| exact Hret]]].
    + intros j Hj. apply elem_of_cons in Hj as [->|Hj].
      * right. right. exists e. split; [exact Hi |].
        rewrite elem_of_app, list_elem_of_singleton. right. reflexivity.
      * apply reported_slot_app, Hrep, Hj.
    + apply Forall_app. split; [exact Hlines |].
      constructor; [| constructor]. right. exists e. split; [exact Herr |].
      reflexivity.
    + destruct (cause st) as [e0|]; [| exact I].
      destruct Hcause as (Hb & He0 & Hin).
      split; [exact Hb |]. split; [exact He0 |].
      rewrite elem_of_app. left. exact Hin.
  - (* the error of a data source cancels the context *)
    assert (i < length (sources st))%nat as Hlt
      by (apply lookup_lt_is_Some; eauto).
    split; [| split; [| split; [exact Hlines |]]];
      cbn [sources reported consumer cause returned].
    + apply (Hsrc_done i (Return None) Hlt). intros e0 Hmay. inversion Hmay.
    + apply (Hrep_done i (Some (Return None)) Hlt). right. left. reflexivity.
    + destruct (cause st) as [e0|] eqn:Hc; cbn [cancel];
        [split; assumption |].
      split; [| intros e1 He1; specialize (Hret e1 He1); discriminate].
      split; [exact Hcancel |].
      split; [apply (Hsrc i _ e Hi); constructor |].
      destruct (Hrep i Hold) as [Hg|[Hg|(e' & He' & Hin)]];
        [congruence | congruence |].
      rewrite Hi in He'. injection He' as <-. exact Hin.
  - (* the channel is closed *)
    split; [exact Hsrc |]. split; [exact Hrep |].
    split; [exact Hlines | split; assumption].
  - (* the consumer receives a value *)
    destruct (receive_adds s certBytes (consumer st))
      as (called & lines & _ & _ & Hadd & Hparse).
    split; [exact Hsrc |]. cbn [sources reported consumer cause returned].
    rewrite Hadd.
    split; [| split; [| split; [| exact Hret]]].
    + intros j Hj. apply reported_slot_app, Hrep, Hj.
    + apply Forall_app. split; [exact Hlines |].
      apply report_line_parse, Hparse.
    + destruct (cause st) as [e|]; [| exact I].
      destruct Hcause as (Hb & Herr & Hin).
      split; [exact Hb |]. split; [exact Herr |].
      rewrite elem_of_app. left. exact Hin.
  - (* the context is done *)
    split; [exact Hsrc |]. split; [exact Hrep |]. split; [exact Hlines |].
    split; [exact Hcause |].
    cbn [returned cause]. intros e0 He0. injection He0 as <-. exact He.
  - (* the consumer finds the channel closed and empty *)
    split; [exact Hsrc |]. split; [exact Hrep |]. split; [exact Hlines |].
    split; [exact Hcause |].
    cbn [returned]. discriminate.
  - congruence.
Qed.

Lemma failure_invariant_steps (ls : list label) (st : State) :
  steps s ls (initial s) st -> l_parent_cancelled ∉ ls ->
  failure_invariant s st.
Proof.
  intros Hsteps Hls.
  apply (steps_invariant s (failure_invariant s)
           (fun l => l = l_parent_cancelled)
           ltac:(intros l a b Ha Hstep Hl;
                 exact (failure_invariant_step l a b Ha Hstep Hl))
           ls (initial s) st failure_invariant_initial Hsteps).
  apply Forall_forall. intros l Hin ->. exact (Hls Hin).
Qed.

End ExecuteFailure.


Lemma failure_run :
  steps cancel_search failure_labels (initial cancel_search) failure_state.
Proof.
  unfold failure_labels. settle_state.
  run_step ltac:(eapply (step_send _ _ 0%nat); [reflexivity | cbn; lia]).
  run_step ltac:(eapply (step_report _ _ 0%nat);
                   [reflexivity | reflexivity | apply not_elem_of_nil]).
  run_step ltac:(eapply (step_cancel _ _ 0%nat);
                   [reflexivity | reflexivity | left]).
  apply steps_end. vm_compute. reflexivity.
Qed.


(** The error that the loop returns need not be the one that was reported
    first: between the [Fprintf] of a goroutine and its [cancel(err)],
    another goroutine can do both. *)
Example Execute_returns_later_report :
  exists st,
    steps race_search race_labels (initial race_search) st
    /\ (l_parent_cancelled ∉ race_labels)
    /\ returned st = Some (Some bang)
    /\ first_reported boom (stderr (consumer st))
    /\ boom <> bang.
Proof.
  eexists. split; [| split; [| split; [| split]]].
  - unfold race_labels. settle_state.
    run_step ltac:(eapply (step_report _ _ 0%nat);
                     [reflexivity | reflexivity | apply not_elem_of_nil]).
    run_step ltac:(eapply (step_report _ _ 1%nat);
                     [reflexivity | reflexivity
                     | apply not_elem_of_cons; split;
                       [discriminate | apply not_elem_of_nil]]).
    run_step ltac:(eapply (step_cancel _ _ 1%nat);
                     [reflexivity | reflexivity | left]).
    run_step ltac:(eapply (step_cancel _ _ 0%nat);
                     [reflexivity | reflexivity | right; left]).
    run_step ltac:(eapply step_done; reflexivity).
    apply steps_end. reflexivity.
  - unfold race_labels. rewrite !elem_of_cons, elem_of_nil.
    intros H. repeat (destruct H as [H|H]; [discriminate |]). exact H.
  - reflexivity.
  - exists [], [source_error_line bang]. split; [reflexivity | constructor].
  - discriminate.
Qed.

Section ExecuteRace.

Context {libs : Libs}.
Variable s : Search.

Lemma continues_nil (st : State) : returned st = None -> continues s [] st st.
Proof.
  intros Hrun. split; [constructor |].
  split; [apply not_elem_of_nil |]. auto.
Qed.

Lemma continues_app (l1 l2 : list label) (st1 st2 st3 : State) :
  continues s l1 st1 st2 -> continues s l2 st2 st3 ->
  continues s (l1 ++ l2) st1 st3.
Proof.
  intros (H1 & Hn1 & _ & Hc1 & Hl1 & He1) (H2 & Hn2 & Hr2 & Hc2 & Hl2 & He2).
  split; [exact (steps_app s _ _ _ _ _ H1 H2) |].
  split; [rewrite elem_of_app; tauto |].
  split; [exact Hr2 |]. split; [congruence |]. split; [congruence |].
  intros e He. apply He2, He1, He.
Qed.

Lemma continues_step (l : label) (st st' : State) :
  step s l st st' -> l <> l_parent_cancelled ->
  returned st' = None -> closed st' = closed st ->
  length (sources st') = length (sources st) ->
  (forall e, cause st = Some e -> cause st' = Some e) ->
  continues s [l] st st'.
Proof.
  intros Hstep Hl Hr Hc Hlen He.
  split; [eapply steps_cons; [exact Hstep | constructor] |].
  split; [rewrite list_elem_of_singleton; congruence |]. auto.
Qed.

(** The consumer can receive everything that is in the channel. *)
Lemma can_drain (st : State) :
  returned st = None ->
  exists ls st',
    continues s ls st st' /\ certs st' = [] /\ sources st' = sources st.
Proof.
  remember (certs st) as buffer eqn:Hbuf. revert st Hbuf.
  induction buffer as [|[i certBytes] rest IH]; intros st Hbuf Hrun.
  { exists [], st. split; [apply continues_nil, Hrun | auto]. }
  pose proof (step_recv s st i certBytes rest Hrun (eq_sym Hbuf)) as Hstep.
  destruct (IH (mkState (cause st) rest (closed st) (sources st)
                  (receive s certBytes (consumer st)) (returned st)
                  (delivered st ++ [(i, certBytes)]) (reported st))
              eq_refl Hrun)
    as (ls & st' & Hcont & Hempty & Hsrc).
  exists (l_recv :: ls), st'. split; [| split; [exact Hempty | exact Hsrc]].
  refine (continues_app [l_recv] ls _ _ _ _ Hcont).
  apply continues_step; [exact Hstep | discriminate | exact Hrun | ..];
    [reflexivity | reflexivity | auto].
Qed.

(** A data source can run until it has returned, the consumer receiving
    each value as it is sent. *)
Lemma can_finish_source (p : Sourcer) :
  forall (st : State) (i : nat),
    sources st !! i = Some (Some p) ->
    certs st = [] -> returned st = None ->
    (0 < length (DataSources s))%nat ->
    exists ls st',
      continues s ls st st' /\ certs st' = []
      /\ sources st' = <[i := None]> (sources st).
Proof.
  induction p as [certBytes next IH|cancelled IHc otherwise IHo|err];
    intros st i Hi Hempty Hrun Hsome;
    assert (i < length (sources st))%nat as Hlt
      by (apply lookup_lt_is_Some; eauto).
  - (* the value is sent, and received *)
    pose proof (step_send s st i certBytes next Hi
                  ltac:(rewrite Hempty; exact Hsome)) as Hsend.
    rewrite Hempty in Hsend. cbn [app] in Hsend.
    set (st1 := mkState (cause st) [(i, certBytes)] (closed st)
                  (<[i := Some next]> (sources st)) (consumer st)
                  (returned st) (delivered st) (reported st)) in *.
    pose proof (step_recv s st1 i certBytes [] Hrun eq_refl) as Hrecv.
    cbn [cause closed sources consumer returned delivered reported st1]
      in Hrecv.
    set (st2 := mkState (cause st) [] (closed st)
                  (<[i := Some next]> (sources st))
                  (receive s certBytes (consumer st)) (returned st)
                  (delivered st ++ [(i, certBytes)]) (reported st)) in *.
    destruct (IH st2 i) as (ls & st' & Hcont & Hcerts & Hsrc);
      [apply list_lookup_insert_eq; exact Hlt | reflexivity | exact Hrun
      | exact Hsome |].
    exists ([l_send i; l_recv] ++ ls), st'.
    split; [| split; [exact Hcerts |]].
    + apply (continues_app _ _ st st2 st'); [| exact Hcont].
      apply (continues_app [l_send i] [l_recv] st st1 st2).
      * apply continues_step; [exact Hsend | discriminate | exact Hrun | ..];
          [reflexivity | apply length_insert | auto].
      * apply continues_step; [exact Hrecv | discriminate | exact Hrun | ..];
          [reflexivity | reflexivity | auto].
    + rewrite Hsrc. cbn [sources st2]. apply list_insert_insert_eq.
  - (* the data source looks at the context *)
    pose proof (step_look s st i cancelled otherwise Hi) as Hlook.
    remember (match cause st with
              | Some e => cancelled e
              | None => otherwise
              end) as q eqn:Hq.
    assert (exists ls st',
              continues s ls
                (mkState (cause st) (certs st) (closed st)
                   (<[i := Some q]> (sources st)) (consumer st) (returned st)
                   (delivered st) (reported st)) st'
              /\ certs st' = []
              /\ sources st' = <[i := None]> (<[i := Some q]> (sources st)))
      as (ls & st' & Hcont & Hcerts & Hsrc).
    { destruct (cause st) as [e|]; subst q.
      - apply (IHc e (mkState (Some e) (certs st) (closed st)
                        (<[i := Some (cancelled e)]> (sources st))
                        (consumer st) (returned st) (delivered st)
                        (reported st)) i);
          [apply list_lookup_insert_eq; exact Hlt | exact Hempty
          | exact Hrun | exact Hsome].
      - apply (IHo (mkState None (certs st) (closed st)
                      (<[i := Some otherwise]> (sources st))
                      (consumer st) (returned st) (delivered st)
                      (reported st)) i);
          [apply list_lookup_insert_eq; exact Hlt | exact Hempty
          | exact Hrun | exact Hsome]. }
    exists ([l_look i] ++ ls), st'.
    split; [| split; [exact Hcerts |]].
    + refine (continues_app _ _ st _ st' _ Hcont).
      apply continues_step; [exact Hlook | discriminate | exact Hrun | ..];
        [reflexivity | apply length_insert | auto].
    + rewrite Hsrc. apply list_insert_insert_eq.
  - (* the data source returns *)
    assert (err = None \/ DataSourceErrorBehavior s <> ErrorBehaviorCancel
            \/ exists e, err = Some e
                         /\ DataSourceErrorBehavior s = ErrorBehaviorCancel)
      as [Hplain|[Hplain|(e & -> & Hcancel)]].
    { destruct err as [e|]; [| left; reflexivity].
      destruct (DataSourceErrorBehavior s);
        [right; right; exists e; auto | right; left; discriminate]. }
    1, 2: (eexists [l_return i], _;
           split; [apply continues_step;
                   [eapply step_return; [exact Hi | tauto] | discriminate | ..]
                  |];
           cbn [cause certs closed sources returned];
           try exact Hrun; try reflexivity; try (apply length_insert); auto).
    (* its error is reported, unless it has been; it cancels the context;
       the goroutine is done *)
    assert (forall st0 : State,
              sources st0 !! i = Some (Some (Return (Some e))) ->
              i ∈ reported st0 -> returned st0 = None ->
              continues s ([l_cancel i] ++ [l_return i]) st0
                (mkState (cancel e (cause st0)) (certs st0) (closed st0)
                   (<[i := None]> (sources st0)) (consumer st0) (returned st0)
                   (delivered st0) (reported st0))) as Hlast.
    { intros st0 Hi0 Hold Hrun0.
      assert (i < length (sources st0))%nat as Hlt0
        by (apply lookup_lt_is_Some; eauto).
      pose proof (step_cancel s st0 i e Hi0 Hcancel Hold) as Hc.
      set (st1 := mkState (cancel e (cause st0)) (certs st0) (closed st0)
                    (<[i := Some (Return None)]> (sources st0))
                    (consumer st0) (returned st0) (delivered st0)
                    (reported st0)) in *.
      pose proof (step_return s st1 i None
                    ltac:(apply list_lookup_insert_eq; exact Hlt0)
                    ltac:(left; reflexivity)) as Hr.
      cbn [cause certs closed sources consumer returned delivered reported
           st1] in Hr.
      rewrite list_insert_insert_eq in Hr.
      eapply continues_app.
      - apply continues_step; [exact Hc | discriminate | ..];
          cbn [cause certs closed sources returned st1];
          [exact Hrun0 | reflexivity | apply length_insert |].
        intros e0 He0. rewrite He0. reflexivity.
      - apply continues_step; [exact Hr | discriminate | ..];
          cbn [cause certs closed sources returned st1];
          [exact Hrun0 | reflexivity | | auto].
        rewrite !length_insert. reflexivity. }
    destruct (decide (i ∈ reported st)) as [Hold|Hnew].
    + eexists _, _.
      split; [exact (Hlast st Hi Hold Hrun) |]. split; [exact Hempty |].
      reflexivity.
    + pose proof (step_report s st i e Hi Hcancel Hnew) as Hreport.
      eexists ([l_report i] ++ _), _. split.
      * eapply continues_app;
          [apply continues_step; [exact Hreport | discriminate | ..] |
           apply Hlast];
          cbn [cause certs closed sources returned reported];
          try exact Hrun; try reflexivity; auto.
        left.
      * split; [exact Hempty | reflexivity].
Qed.

Lemma running_insert_None (srcs : list (option Sourcer)) (i : nat)
    (p : Sourcer) :
  srcs !! i = Some (Some p) ->
  running srcs = S (running (<[i := None]> srcs)).
Proof.
  intros Hi. unfold running.
  pose proof (sum_list_insert_lookup
                (fun g : option Sourcer =>
                   match g with Some _ => 1%nat | None => 0%nat end)
                srcs i None (Some p) Hi) as Hsum.
  cbn beta iota in Hsum. lia.
Qed.

(** All data sources can run until they have returned. *)
Lemma can_finish_all (n : nat) :
  forall st : State,
    running (sources st) = n ->
    certs st = [] -> returned st = None ->
    length (sources st) = length (DataSources s) ->
    exists ls st',
      continues s ls st st' /\ certs st' = []
      /\ Forall (fun g => g = None) (sources st').
Proof.
  induction n as [|n IH]; intros st Hn Hempty Hrun Hlen;
    (destruct (all_returned_or_running (sources st)) as [Hall|(i & p & Hi)];
     [exists [], st; split; [apply continues_nil, Hrun | auto] |]).
  - rewrite (running_insert_None _ _ _ Hi) in Hn. discriminate.
  - assert (0 < length (DataSources s))%nat as Hsome.
    { rewrite <- Hlen. apply lookup_lt_Some in Hi. lia. }
    destruct (can_finish_source p st i Hi Hempty Hrun Hsome)
      as (ls1 & st1 & Hcont1 & Hcerts1 & Hsrc1).
    destruct (IH st1) as (ls2 & st2 & Hcont2 & Hcerts2 & Hall2).
    + rewrite Hsrc1. rewrite (running_insert_None _ _ _ Hi) in Hn. lia.
    + exact Hcerts1.
    + apply Hcont1.
    + destruct Hcont1 as (_ & _ & _ & _ & Hl & _). congruence.
    + exists (ls1 ++ ls2), st2.
      split; [exact (continues_app _ _ _ _ _ Hcont1 Hcont2) | auto].
Qed.

(** Every step keeps the number of data sources. *)
Lemma step_sources_length (l : label) (st st' : State) :
  step s l st st' -> length (sources st') = length (sources st).
Proof.
  intros Hstep.
  destruct Hstep as
    [st i certBytes next Hi Hcap
    |st i cancelled otherwise Hi
    |st i err Hi Hplain
    |st i e Hi Hcancel Hnew
    |st i e Hi Hcancel Hold
    |st Hall Hopen
    |st i certBytes rest Hrun Hcerts
    |st e Hrun He
    |st Hrun Hcerts Hcl
    |st]; cbn [sources]; try reflexivity; apply length_insert.
Qed.

Lemma steps_sources_length (ls : list label) (st : State) :
  steps s ls (initial s) st -> length (sources st) = length (DataSources s).
Proof.
  intros Hsteps.
  apply (steps_invariant s
           (fun st => length (sources st) = length (DataSources s))
           (fun _ => False)
           ltac:(intros l a b Ha Hstep _;
                 exact (eq_trans (step_sources_length l a b Hstep) Ha))
           ls (initial s) st); [| exact Hsteps |].
  - unfold initial. cbn [sources]. apply length_fmap.
  - apply Forall_forall. intros l _ H. exact H.
Qed.

(** From a state in which the loop has not returned, the goroutines can run
    on until the loop returns [nil]. *)
Lemma can_return_nil (st : State) :
  returned st = None ->
  length (sources st) = length (DataSources s) ->
  exists ls st',
    steps s ls st st' /\ (l_parent_cancelled ∉ ls)
    /\ returned st' = Some None
    /\ (forall e, cause st = Some e -> cause st' = Some e).
Proof.
  intros Hrun Hlen.
  destruct (can_drain st Hrun) as (ls1 & st1 & Hcont1 & Hcerts1 & Hsrc1).
  destruct (closed st1) eqn:Hclosed1.
  - (* the channel is closed already *)
    destruct Hcont1 as (Hsteps1 & Hno1 & Hrun1 & _ & _ & Hcause1).
    pose proof (step_closed s st1 Hrun1 Hcerts1 Hclosed1) as Hstep.
    eexists (ls1 ++ [l_closed]), _.
    split; [apply (steps_app s _ _ _ _ _ Hsteps1);
            eapply steps_cons; [exact Hstep | constructor] |].
    split; [rewrite elem_of_app, list_elem_of_singleton;
            intros [H|H]; [exact (Hno1 H) | discriminate] |].
    split; [reflexivity | exact Hcause1].
  - (* the data sources return, the channel is closed *)
    destruct (can_finish_all _ st1 eq_refl Hcerts1 ltac:(apply Hcont1)
                ltac:(congruence))
      as (ls2 & st2 & Hcont2 & Hcerts2 & Hall2).
    destruct (continues_app _ _ _ _ _ Hcont1 Hcont2)
      as (Hsteps & Hno & Hrun2 & Hclosed2 & _ & Hcause).
    assert (closed st2 = false) as Hopen
      by (destruct Hcont1 as (_ & _ & _ & Hc & _); congruence).
    pose proof (step_close s st2 Hall2 Hopen) as Hclose.
    pose proof (step_closed s
                  (mkState (cause st2) (certs st2) true (sources st2)
                     (consumer st2) (returned st2) (delivered st2)
                     (reported st2))
                  Hrun2 Hcerts2 eq_refl) as Hstep.
    eexists ((ls1 ++ ls2) ++ [l_close; l_closed]), _.
    split; [apply (steps_app s _ _ _ _ _ Hsteps);
            eapply steps_cons; [exact Hclose |];
            eapply steps_cons; [exact Hstep | constructor] |].
    split; [rewrite elem_of_app, !elem_of_cons, elem_of_nil;
            intros [H|[H|[H|H]]]; [exact (Hno H) | discriminate..| exact H] |].
    split; [reflexivity | exact Hcause].
Qed.

End ExecuteRace.

(** Once the context is cancelled (a data source has failed under
    [ErrorBehaviorCancel]) and while the loop of [Execute] has not returned,
    both results are possible: the loop can return the cause at its next
    select, and the goroutines can also run on, without any cancellation of
    the parent context, until the loop finds the channel closed and returns
    [nil]. *)
Theorem Execute_may_return_nil_after_failure {libs : Libs} (s : Search)
    (ls : list label) (st : State) (e : error) :
  steps s ls (initial s) st ->
  returned st = None ->
  cause st = Some e ->
  (exists st', step s l_done st st' /\ returned st' = Some (Some e))
  /\ (exists ls' st',
        steps s ls' st st' /\ (l_parent_cancelled ∉ ls')
        /\ returned st' = Some None /\ cause st' = Some e).
Proof.
  intros Hsteps Hrun Hcause. split.
  - eexists. split; [apply (step_done s st e Hrun Hcause) | reflexivity].
  - destruct (can_return_nil s st Hrun (steps_sources_length s ls st Hsteps))
      as (ls' & st' & Hsteps' & Hno & Hnil & Hkeep).
    exists ls', st'. auto.
Qed.

Lemma Execute_may_return_nil_after_failure_witness :
  steps cancel_search failure_labels (initial cancel_search) failure_state
  /\ DataSourceErrorBehavior cancel_search = ErrorBehaviorCancel
  /\ exists ls' st',
       steps cancel_search ls' failure_state st'
       /\ (l_parent_cancelled ∉ ls')
       /\ returned st' = Some None /\ cause st' = Some boom.
Proof.
  split; [exact failure_run |]. split; [reflexivity |].
  exact (proj2 (Execute_may_return_nil_after_failure (libs := demo_libs)
                  cancel_search failure_labels failure_state boom failure_run
                  eq_refl eq_refl)).
Defined.

Section ExecuteQuiet.

Context {libs : Libs}.
Variable s : Search.

(** A step that is not the failure of a data source is a step under either
    behaviour. *)
Lemma step_continuing (l : label) (st st' : State) :
  step s l st st' ->
  (forall i e, sources st !! i = Some (Some (Return (Some e))) -> False) ->
  step (continuing s) l st st'.
Proof.
  intros Hstep Hquiet.
  destruct Hstep as
    [st i certBytes next Hi Hcap
    |st i cancelled otherwise Hi
    |st i err Hi Hplain
    |st i e Hi Hcancel Hnew
    |st i e Hi Hcancel Hold
    |st Hall Hopen
    |st i certBytes rest Hrun Hbuf
    |st e Hrun He
    |st Hrun Hbuf Hcl
    |st].
  - exact (step_send (continuing s) st i certBytes next Hi Hcap).
  - exact (step_look (continuing s) st i cancelled otherwise Hi).
  - apply (step_return (continuing s) st i err Hi). right. discriminate.
  - destruct (Hquiet i e Hi).
  - destruct (Hquiet i e Hi).
  - exact (step_close (continuing s) st Hall Hopen).
  - exact (step_recv (continuing s) st i certBytes rest Hrun Hbuf).
  - exact (step_done (continuing s) st e Hrun He).
  - exact (step_closed (continuing s) st Hrun Hbuf Hcl).
  - exact (step_parent_cancelled (continuing s) st).
Qed.

Lemma no_failure_running (st : State) (i : nat) (e : error) :
  no_failure st -> sources st !! i = Some (Some (Return (Some e))) -> False.
Proof. intros [_ Hsrc] Hi. specialize (Hsrc i _ Hi). discriminate. Qed.

Lemma no_failure_initial :
  Forall (fun p => returns p = None) (DataSources s) ->
  no_failure (initial s).
Proof.
  intros Hall. split; [reflexivity |]. intros i q Hq.
  unfold initial in Hq. cbn [sources] in Hq. rewrite list_lookup_fmap in Hq.
  destruct (DataSources s !! i) as [p|] eqn:Hp; [| discriminate].
  injection Hq as <-. rewrite Forall_lookup in Hall. exact (Hall i p Hp).
Qed.

Lemma no_failure_step (l : label) (st st' : State) :
  no_failure st -> step s l st st' -> l <> l_parent_cancelled ->
  no_failure st'.
Proof.
  intros [Hcause Hsrc] Hstep Hl.
  assert (forall i g,
            sources st !! i = Some (Some g) ->
            forall q, returns q = returns g ->
            forall j q', <[i := Some q]> (sources st) !! j = Some (Some q') ->
                         returns q' = None) as Hupdate.
  { intros i g Hi q Hq j q' Hj. destruct (decide (i = j)) as [->|Hne].
    - rewrite list_lookup_insert_eq in Hj by (apply lookup_lt_is_Some; eauto).
      injection Hj as <-. rewrite Hq. exact (Hsrc j g Hi).
    - rewrite list_lookup_insert_ne in Hj by exact Hne. exact (Hsrc j q' Hj). }
  destruct Hstep as
    [st i certBytes next Hi Hcap
    |st i cancelled otherwise Hi
    |st i err Hi Hplain
    |st i e Hi Hcancel Hnew
    |st i e Hi Hcancel Hold
    |st Hall Hopen
    |st i certBytes rest Hrun Hbuf
    |st e Hrun He
    |st Hrun Hbuf Hcl
    |st]; try (split; assumption).
  - split; [exact Hcause |]. cbn [sources].
    exact (Hupdate i _ Hi next eq_refl).
  - split; [exact Hcause |]. cbn [sources]. rewrite Hcause.
    exact (Hupdate i _ Hi otherwise eq_refl).
  - split; [exact Hcause |]. cbn [sources]. intros j q Hj.
    destruct (decide (i = j)) as [->|Hne].
    + rewrite list_lookup_insert_eq in Hj by (apply lookup_lt_is_Some; eauto).
      discriminate.
    + rewrite list_lookup_insert_ne in Hj by exact Hne. exact (Hsrc j q Hj).
  - specialize (Hsrc i _ Hi). discriminate.
  - congruence.
Qed.

Lemma steps_continuing (ls : list label) (st st' : State) :
  no_failure st ->
  steps s ls st st' -> l_parent_cancelled ∉ ls ->
  steps (continuing s) ls st st' /\ no_failure st'.
Proof.
  intros Hinv Hsteps. revert Hinv.
  induction Hsteps as [st|l ls st1 st2 st3 Hstep Hsteps IH]; intros Hinv Hls;
    [split; [constructor | exact Hinv] |].
  assert (l <> l_parent_cancelled) as Hl by (intros ->; apply Hls; left).
  destruct IH as [Hrest Hinv3].
  - exact (no_failure_step l st1 st2 Hinv Hstep Hl).
  - intros Hin. apply Hls. right. exact Hin.
  - split; [| exact Hinv3].
    eapply steps_cons; [| exact Hrest].
    apply (step_continuing l st1 st2 Hstep).
    intros i e. apply no_failure_running, Hinv.
Qed.

End ExecuteQuiet.

(** When every data source returns [nil] unless the context is cancelled,
    the search runs alike under [ErrorBehaviorCancel] and
    [ErrorBehaviorContinue]. Along every run in which nothing cancels the
    parent context: the context is not cancelled; the consumer has
    processed exactly the values delivered to it; when the loop returns it
    returns [nil], on a closed and empty channel, after everything that
    each data source sends has been delivered; and the loop does return:
    while it has not, some goroutine can take a step, and every step uses
    up some of the steps that are left. *)
Theorem Execute_without_failure {libs : Libs} (s : Search) (ls : list label)
    (st : State) :
  Forall (fun p => returns p = None) (DataSources s) ->
  steps s ls (initial s) st ->
  l_parent_cancelled ∉ ls ->
  cause st = None
  /\ consumer st = consumer_after s (delivered st)
  /\ (forall r, returned st = Some r ->
        r = None /\ closed st = true /\ certs st = []
        /\ forall i p, DataSources s !! i = Some p ->
                       from_source i (delivered st) = sends p)
  /\ (returned st = None ->
      exists l st', step s l st st' /\ l <> l_parent_cancelled)
  /\ (forall l st', step s l st st' -> l <> l_parent_cancelled ->
                    (weight st' < weight st)%nat).
Proof.
  intros Hquiet Hsteps Hls.
  destruct (steps_continuing s ls _ _ (no_failure_initial s Hquiet) Hsteps Hls)
    as [Hsteps' Hfail].
  pose proof (invariant_steps (continuing s) eq_refl ls _ _
                (invariant_initial (continuing s)) Hsteps' Hls)
    as (Hcause & Hcons & Hlen & Hclosed & Hret & Hflow).
  split; [exact Hcause |]. split; [exact Hcons |].
  split.
  { intros r Hr. destruct (Hret r Hr) as (-> & Hc & Hcerts).
    repeat (split; [assumption || reflexivity |]).
    intros i p Hp. specialize (Hflow i p Hp).
    rewrite Hcerts in Hflow.
    assert (remaining (sources st !! i) = []) as Hrem.
    { destruct (sources st !! i) as [[q|]|] eqn:Hi; try reflexivity.
      destruct (Forall_None_insert _ _ _ Hi (Hclosed Hc)). }
    rewrite Hrem in Hflow. cbn in Hflow. rewrite app_nil_r in Hflow.
    exact Hflow. }
  split.
  { intros Hrun. apply (continue_progress s st Hlen Hrun). }
  intros l st' Hstep Hl.
  apply (continue_weight (continuing s) eq_refl l st st' Hcause); [| exact Hl].
  apply (step_continuing s l st st' Hstep).
  intros i e. apply no_failure_running, Hfail.
Qed.

Lemma Execute_without_failure_witness :
  exists st : State (libs := demo_libs),
    steps quiet_search quiet_labels (initial quiet_search) st
    /\ returned st = Some None
    /\ calls (consumer st) = [cert_B; cert_A]
    /\ from_source 1 (delivered st) = [cert_B; cert_A].
Proof.
  assert (exists st : State (libs := demo_libs),
            steps quiet_search quiet_labels (initial quiet_search) st
            /\ returned st = Some None
            /\ calls (consumer st) = [cert_B; cert_A])
    as (st & Hsteps & Hret & Hcalls).
  { eexists. split; [| split].
    - unfold quiet_labels. settle_state.
      run_step ltac:(eapply (step_send _ _ 1%nat); [reflexivity | cbn; lia]).
      run_step ltac:(eapply (step_send _ _ 0%nat); [reflexivity | cbn; lia]).
      run_step ltac:(eapply step_recv; reflexivity).
      run_step ltac:(eapply (step_look _ _ 1%nat); reflexivity).
      run_step ltac:(eapply (step_return _ _ 0%nat); [reflexivity | plain_return]).
      run_step ltac:(eapply step_recv; reflexivity).
      run_step ltac:(eapply (step_send _ _ 1%nat); [reflexivity | cbn; lia]).
      run_step ltac:(eapply (step_return _ _ 1%nat); [reflexivity | plain_return]).
      run_step ltac:(eapply step_recv; reflexivity).
      run_step ltac:(eapply step_close; [repeat constructor | reflexivity]).
      run_step ltac:(eapply step_closed; reflexivity).
      apply steps_end. reflexivity.
    - reflexivity.
    - reflexivity. }
  exists st. split; [exact Hsteps |]. split; [exact Hret |].
  split; [exact Hcalls |].
  assert (l_parent_cancelled ∉ quiet_labels) as Hls.
  { unfold quiet_labels. rewrite !elem_of_cons, elem_of_nil.
    intros H. repeat (destruct H as [H|H]; [discriminate |]). exact H. }
  destruct (Execute_without_failure (libs := demo_libs) quiet_search
              quiet_labels st ltac:(repeat constructor) Hsteps Hls)
    as (_ & _ & Hdone & _).
  destruct (Hdone None Hret) as (_ & _ & _ & Hflow).
  exact (Hflow 1%nat _ eq_refl).
Defined.

Section BoulderSearch.

Context {libs : Libs}.
Variable s : Search.
Hypothesis Hboulder : Forall (fun p => p = boulder.Source) (DataSources s).

Lemma nothing_sent_initial : nothing_sent (initial s).
Proof.
  unfold nothing_sent, initial. cbn.
  repeat (split; [reflexivity |]).
  apply Forall_fmap. eapply Forall_impl; [exact Hboulder |].
  intros p ->. right. right. reflexivity.
Qed.

Lemma nothing_sent_step (l : label) (st st' : State) :
  nothing_sent st -> step s l st st' -> nothing_sent st'.
Proof.
  intros (Hcerts & Hdel & Hcalls & Hsrc) Hstep.
  assert (forall i p, sources st !! i = Some (Some p) ->
                      p = Return None \/ p = boulder.Source)
    as Hscript.
  { intros i p Hi. rewrite Forall_lookup in Hsrc.
    destruct (Hsrc i _ Hi) as [|[Heq|Heq]];
      [discriminate | left | right]; congruence. }
  destruct Hstep as
    [st i certBytes next Hi Hcap
    |st i cancelled otherwise Hi
    |st i err Hi Hplain
    |st i e Hi Hcancel Hnew
    |st i e Hi Hcancel Hold
    |st Hall Hopen
    |st i certBytes rest Hrun Hbuf
    |st e Hrun He
    |st Hrun Hbuf Hcl
    |st];
    try (destruct (Hscript _ _ Hi); discriminate);
    try (split; [exact Hcerts | split; [exact Hdel | split; assumption]]).
  - split; [exact Hcerts |]. split; [exact Hdel |]. split; [exact Hcalls |].
    apply Forall_insert; [exact Hsrc | left; reflexivity].
  - split; [exact Hcerts |]. split; [exact Hdel |]. split; [exact Hcalls |].
    apply Forall_insert; [exact Hsrc | right; left; reflexivity].
  - congruence.
Qed.

End BoulderSearch.

(** A search over data sources of the package boulder finds nothing: along
    every run in which nothing cancels the parent context, no value is sent
    or received, [MatchCallback] is never called, and the loop of [Execute]
    returns [nil] or, under [ErrorBehaviorCancel] only, the error "not
    implemented". *)
Theorem boulder_search_finds_nothing {libs : Libs} (s : Search)
    (ls : list label) (st : State) :
  Forall (fun p => p = boulder.Source) (DataSources s) ->
  steps s ls (initial s) st ->
  l_parent_cancelled ∉ ls ->
  delivered st = [] /\ calls (consumer st) = []
  /\ forall r, returned st = Some r ->
       r = None
       \/ (r = Some boulder.not_implemented
           /\ DataSourceErrorBehavior s = ErrorBehaviorCancel).
Proof.
  intros Hboulder Hsteps Hls.
  assert (nothing_sent st) as (_ & Hdel & Hcalls & _).
  { apply (steps_invariant s nothing_sent (fun _ => False)
             ltac:(intros l a b Ha Hstep _;
                   exact (nothing_sent_step s l a b Ha Hstep))
             ls (initial s) st (nothing_sent_initial s Hboulder) Hsteps).
    apply Forall_forall. intros l _ H. exact H. }
  split; [exact Hdel |]. split; [exact Hcalls |].
  intros [e|] Hret; [right | left; reflexivity].
  destruct (failure_invariant_steps s ls st Hsteps Hls)
    as (_ & _ & _ & Hcause & Hr).
  rewrite (Hr e Hret) in Hcause.
  destruct Hcause as (Hcancel & (i & p & Hp & Hmay) & _).
  split; [| exact Hcancel].
  rewrite Forall_lookup in Hboulder. rewrite (Hboulder i p Hp) in Hmay.
  inversion Hmay. reflexivity.
Qed.

Lemma boulder_search_finds_nothing_witness :
  exists st : State (libs := demo_libs),
    steps boulder_search [l_report 0; l_cancel 0; l_done]
      (initial boulder_search) st
    /\ returned st = Some (Some boulder.not_implemented)
    /\ calls (consumer st) = [].
Proof.
  assert (exists st : State (libs := demo_libs),
            steps boulder_search [l_report 0; l_cancel 0; l_done]
              (initial boulder_search) st
            /\ returned st = Some (Some boulder.not_implemented))
    as (st & Hsteps & Hret).
  { eexists. split.
    - settle_state.
      run_step ltac:(eapply (step_report _ _ 0%nat);
                       [reflexivity | reflexivity | apply not_elem_of_nil]).
      run_step ltac:(eapply (step_cancel _ _ 0%nat);
                       [reflexivity | reflexivity | left]).
      run_step ltac:(eapply step_done; reflexivity).
      apply steps_end. reflexivity.
    - reflexivity. }
  exists st. split; [exact Hsteps |]. split; [exact Hret |].
  refine (proj1 (proj2 (boulder_search_finds_nothing (libs := demo_libs)
                          boulder_search _ st _ Hsteps _))).
  - repeat constructor.
  - rewrite !elem_of_cons, elem_of_nil.
    intros H. repeat (destruct H as [H|H]; [discriminate |]). exact H.
Defined.
